(** * RDIP backend: job tracker, rate limiter, cache and LLM orchestration

    A shallow embedding of the resilient job pipeline of the RDIP backend
    (rdip_backend/services/job_store.py, rate_limiter.py, cache_manager.py,
    ai_orchestrator.py and rdip_backend/main.py) together with the
    properties its specification states about it.

    Conventions of the embedding:
    - a Python [str] is a list of Unicode code points ([pystr]);
    - a reading of [time.time()] is an integer number of seconds ([Z]);
      whoever calls an operation that reads the clock passes the reading;
    - a Python [dict] used as a map is a [gmap];
    - an operation that can raise returns a sum, [inl] carrying the
      exception;
    - the limits of the interpreter that [json.loads] can run into, the
      recursion depth and the digits of an [int], are numbers that the
      orchestrator carries ([Json.limits]). *)

From Stdlib Require Import ZArith NArith List Ascii String Lia Bool DecimalString.
From stdpp Require Import base option list sorting gmap fin_maps.

Set Warnings "-register-all,-clear-no-such-hyp".
Local Open Scope Z_scope.

(** ** Python strings *)

Abbreviation pystr := (list N).

(** A literal: one code point per character of an ASCII literal. *)
Definition py (s : string) : pystr :=
  map N_of_ascii (list_ascii_of_string s).

(** [s[a:b]] for non-negative bounds. *)
Definition slice (a b : nat) (s : pystr) : pystr :=
  take (b - a)%nat (drop a s).

(** ** JSON values, as [json.loads] builds them

    A [dict] keeps its keys in insertion order; a number with a fraction
    or an exponent keeps its lexeme, as does a float constant. *)

Inductive json : Type :=
| JNull
| JBool (b : bool)
| JInt (z : Z)
| JFloat (lexeme : pystr)
| JStr (s : pystr)
| JList (l : list json)
| JDict (d : list (pystr * json)).

(** ** models.py *)

Inductive Status := queued | processing | completed | failed.

#[global] Instance Status_eq_dec : EqDecision Status.
Proof. solve_decision. Defined.

Record JobStatus := mkJobStatus {
  job_id : pystr;
  status : Status;
  progress : Z;
  result : option json;
  error : option pystr;
  created_at : Z
}.

(** ** services/job_store.py

    The store maps an id to a reference to a [JobStatus] object: whatever
    the caller handed in, here a value of type [V]. *)

Module JobStore.
Section with_value.
Context {V : Type}.

Record t := mk {
  _ttl : Z;
  _jobs : gmap pystr V;
  _created_at : gmap pystr Z
}.

(** [JobStore.__init__]: [ttl or settings.job_ttl_seconds]. *)
Definition init (ttl : option Z) (job_ttl_seconds : Z) : t :=
  {| _ttl := match ttl with
             | Some v => if v =? 0 then job_ttl_seconds else v
             | None => job_ttl_seconds
             end;
     _jobs := ∅;
     _created_at := ∅ |}.

(** The ids [cleanup] collects: those created before the cutoff. *)
Definition expired (now : Z) (s : t) : list pystr :=
  let cutoff := now - _ttl s in
  (filter (λ p : pystr * Z, p.2 < cutoff) (map_to_list (_created_at s))).*1.

(** [JobStore.cleanup]: pops every expired id from both dicts and
    returns how many there were. *)
Definition cleanup (now : Z) (s : t) : Z * t :=
  let ex := expired now s in
  (Z.of_nat (length ex),
   {| _ttl := _ttl s;
      _jobs := foldl (λ m job_id, delete job_id m) (_jobs s) ex;
      _created_at := foldl (λ m job_id, delete job_id m) (_created_at s) ex |}).

(** [JobStore.add]: [now] is the clock reading of the cleanup, [now']
    the one stored as the creation time. *)
Definition add (now now' : Z) (job_id : pystr) (st : V) (s : t) : t :=
  let s := (cleanup now s).2 in
  {| _ttl := _ttl s;
     _jobs := <[job_id := st]> (_jobs s);
     _created_at := <[job_id := now']> (_created_at s) |}.

(** [JobStore.get]: a plain dict lookup; the clock is not read. *)
Definition get (job_id : pystr) (s : t) : option V :=
  _jobs s !! job_id.

(** [JobStore.update]: no insert for an unknown id. *)
Definition update (job_id : pystr) (st : V) (s : t) : bool * t :=
  match _jobs s !! job_id with
  | None => (false, s)
  | Some _ =>
      (true, {| _ttl := _ttl s;
                _jobs := <[job_id := st]> (_jobs s);
                _created_at := _created_at s |})
  end.

(** [JobStore.remove]. *)
Definition remove (job_id : pystr) (s : t) : bool * t :=
  match _jobs s !! job_id with
  | None => (false, s)
  | Some _ =>
      (true, {| _ttl := _ttl s;
                _jobs := delete job_id (_jobs s);
                _created_at := delete job_id (_created_at s) |})
  end.

(** [JobStore.stats]: sweeps, then counts the jobs by status;
    [status_of] reads the status field of a stored object. *)
Record counts := mkCounts {
  n_queued : Z; n_processing : Z; n_completed : Z; n_failed : Z; n_total : Z
}.

Definition count_status (status_of : V → Status) (x : Status) (s : t) : Z :=
  Z.of_nat (length (filter (λ p : pystr * V, status_of p.2 = x)
                           (map_to_list (_jobs s)))).

Definition stats (status_of : V → Status) (now : Z) (s : t) : counts * t :=
  let s := (cleanup now s).2 in
  ({| n_queued := count_status status_of queued s;
      n_processing := count_status status_of processing s;
      n_completed := count_status status_of completed s;
      n_failed := count_status status_of failed s;
      n_total := Z.of_nat (size (_jobs s)) |}, s).

(** [JobStore.clear]. *)
Definition clear (s : t) : Z * t :=
  (Z.of_nat (size (_jobs s)),
   {| _ttl := _ttl s; _jobs := ∅; _created_at := ∅ |}).

(** A record is sweep-eligible at [now]: created before [now - ttl]. *)
Definition is_expired (now : Z) (job_id : pystr) (s : t) : Prop :=
  ∃ created, _created_at s !! job_id = Some created ∧ created < now - _ttl s.

End with_value.
Arguments t : clear implicits.
End JobStore.

(** ** services/rate_limiter.py *)

Inductive provider := Groq | Gemini.

Module RateLimitManager.

Record t := mk {
  _groq_history : list Z;
  _gemini_history : list Z;
  _groq_limit_rpm : Z;
  _gemini_limit_rpm : Z;
  _window_seconds : Z
}.

(** The bounds of the two deques: [deque(maxlen=500)] and
    [deque(maxlen=100)]. *)
Definition groq_maxlen : nat := 500.
Definition gemini_maxlen : nat := 100.

(** [RateLimitManager.__init__]. *)
Definition init (groq_rpm_limit gemini_rpm_limit : Z) : t :=
  {| _groq_history := [];
     _gemini_history := [];
     _groq_limit_rpm := groq_rpm_limit;
     _gemini_limit_rpm := gemini_rpm_limit;
     _window_seconds := 60 |}.

(** [deque.append] on a bounded deque: the new item goes to the right
    and, when the bound is exceeded, the leftmost one is discarded. *)
Definition deque_append (maxlen : nat) (x : Z) (d : list Z) : list Z :=
  let d' := d ++ [x] in
  if (maxlen <? length d')%nat then drop 1 d' else d'.

(** [_clean_history]: [while history and history[0] < cutoff:
    history.popleft()]. *)
Fixpoint popleft_while (cutoff : Z) (history : list Z) : list Z :=
  match history with
  | [] => []
  | x :: rest => if x <? cutoff then popleft_while cutoff rest else history
  end.

Definition _clean_history (window_seconds now : Z) (history : list Z) : list Z :=
  let cutoff := now - window_seconds in
  popleft_while cutoff history.

Definition can_use_groq (now : Z) (s : t) : bool * t :=
  let h := _clean_history (_window_seconds s) now (_groq_history s) in
  (Z.of_nat (length h) <? _groq_limit_rpm s,
   {| _groq_history := h;
      _gemini_history := _gemini_history s;
      _groq_limit_rpm := _groq_limit_rpm s;
      _gemini_limit_rpm := _gemini_limit_rpm s;
      _window_seconds := _window_seconds s |}).

Definition can_use_gemini (now : Z) (s : t) : bool * t :=
  let h := _clean_history (_window_seconds s) now (_gemini_history s) in
  (Z.of_nat (length h) <? _gemini_limit_rpm s,
   {| _groq_history := _groq_history s;
      _gemini_history := h;
      _groq_limit_rpm := _groq_limit_rpm s;
      _gemini_limit_rpm := _gemini_limit_rpm s;
      _window_seconds := _window_seconds s |}).

(** [record_groq_usage]: appends the clock reading; nothing is evicted
    here apart from what the deque's bound discards. *)
Definition record_groq_usage (now : Z) (s : t) : t :=
  {| _groq_history := deque_append groq_maxlen now (_groq_history s);
     _gemini_history := _gemini_history s;
     _groq_limit_rpm := _groq_limit_rpm s;
     _gemini_limit_rpm := _gemini_limit_rpm s;
     _window_seconds := _window_seconds s |}.

Definition record_gemini_usage (now : Z) (s : t) : t :=
  {| _groq_history := _groq_history s;
     _gemini_history := deque_append gemini_maxlen now (_gemini_history s);
     _groq_limit_rpm := _groq_limit_rpm s;
     _gemini_limit_rpm := _gemini_limit_rpm s;
     _window_seconds := _window_seconds s |}.

Record stats := mkStats {
  groq_used : Z; groq_limit : Z; groq_available : Z;
  gemini_used : Z; gemini_limit : Z; gemini_available : Z
}.

(** [get_stats]: cleans both histories ([now] and [now'] are the two
    clock readings) and reports the counts. *)
Definition get_stats (now now' : Z) (s : t) : stats * t :=
  let hq := _clean_history (_window_seconds s) now (_groq_history s) in
  let hm := _clean_history (_window_seconds s) now' (_gemini_history s) in
  ({| groq_used := Z.of_nat (length hq);
      groq_limit := _groq_limit_rpm s;
      groq_available := _groq_limit_rpm s - Z.of_nat (length hq);
      gemini_used := Z.of_nat (length hm);
      gemini_limit := _gemini_limit_rpm s;
      gemini_available := _gemini_limit_rpm s - Z.of_nat (length hm) |},
   {| _groq_history := hq;
      _gemini_history := hm;
      _groq_limit_rpm := _groq_limit_rpm s;
      _gemini_limit_rpm := _gemini_limit_rpm s;
      _window_seconds := _window_seconds s |}).

(** The two providers side by side. *)
Definition history (p : provider) (s : t) : list Z :=
  match p with Groq => _groq_history s | Gemini => _gemini_history s end.
Definition limit_rpm (p : provider) (s : t) : Z :=
  match p with Groq => _groq_limit_rpm s | Gemini => _gemini_limit_rpm s end.
Definition maxlen (p : provider) : nat :=
  match p with Groq => groq_maxlen | Gemini => gemini_maxlen end.
Definition can_use (p : provider) : Z → t → bool * t :=
  match p with Groq => can_use_groq | Gemini => can_use_gemini end.
Definition record_usage (p : provider) : Z → t → t :=
  match p with Groq => record_groq_usage | Gemini => record_gemini_usage end.

(** The calls a client can make, each with the clock readings it takes. *)
Inductive op :=
| CanUse (p : provider) (now : Z)
| Record_ (p : provider) (now : Z)
| GetStats (now now' : Z).

Definition step (s : t) (o : op) : t :=
  match o with
  | CanUse p now => (can_use p now s).2
  | Record_ p now => record_usage p now s
  | GetStats now now' => (get_stats now now' s).2
  end.

Definition run (ops : list op) (s : t) : t := foldl step s ops.

(** One record call per reading of [ts], in order. *)
Definition record_all (p : provider) (ts : list Z) (s : t) : t :=
  foldl (λ s x, record_usage p x s) s ts.

Definition readings (o : op) : list Z :=
  match o with
  | CanUse _ now | Record_ _ now => [now]
  | GetStats now now' => [now; now']
  end.

(** The clock never goes back over a sequence of calls. *)
Definition monotone_clock (ops : list op) : Prop :=
  StronglySorted Z.le (ops ≫= readings).

(** Every stored timestamp lies within the window that ends at [now]. *)
Definition within_window (s : t) (now : Z) (h : list Z) : Prop :=
  Forall (λ x, now - _window_seconds s ≤ x ≤ now) h.

End RateLimitManager.

(** ** Exceptions

    [str(e)] is the message.  The handlers of this program tell a
    [ValueError] and a [RuntimeError] from any other [Exception]; an
    [HTTPException] carries its status code.  A subclass counts as its
    base: [JSONDecodeError] and [UnicodeEncodeError] are [ValueError]s,
    [RecursionError] is a [RuntimeError], and [AttributeError] is one of
    the others. *)

Inductive exn_class :=
| ValueError
| RuntimeError
| HTTPException (status_code : Z)
| OtherException.

Record exn := mkExn { exn_cls : exn_class; exn_msg : pystr }.

(** [str(n)] for a natural number. *)
Definition str_of_nat (n : nat) : pystr :=
  py (DecimalString.NilZero.string_of_uint (Nat.to_uint n)).

(** ** [json.loads]

    The default decoder of the standard library, in strict mode, on a
    [str].  It fails with [JSONDecodeError], or it runs into a limit of
    the interpreter: the recursion check that the scanner makes each
    time it enters an object or an array raises [RecursionError], and
    the conversion of an integer literal with too many digits raises
    [ValueError].  Whichever comes first in the text is what the call
    raises. *)

Module Json.

(** The limits of the interpreter: how many containers can be open at
    once when [json.loads] is called, and
    [sys.get_int_max_str_digits()], 0 when that limit is off. *)
Record limits := mkLimits {
  max_depth : nat;
  max_str_digits : nat
}.

Inductive limit_error :=
| TooDeep (array : bool)            (* entering an array, or an object *)
| TooManyDigits (digits : nat).     (* an integer literal of that many digits *)

(** [int(s)] refuses a literal of more than [max_str_digits] digits;
    the check is made for more than 640 digits only. *)
Definition over_digit_limit (lim : limits) (digits : nat) : bool :=
  ((640 <? digits) && (0 <? max_str_digits lim) && (max_str_digits lim <? digits))%nat.

(** The exception that a limit raises, with the message of CPython 3.11. *)
Definition limit_exn (lim : limits) (e : limit_error) : exn :=
  match e with
  | TooDeep array =>
      mkExn RuntimeError
        (py "maximum recursion depth exceeded while decoding a JSON "
           ++ (if array then py "array" else py "object")
           ++ py " from a unicode string")
  | TooManyDigits digits =>
      mkExn ValueError
        (py "Exceeds the limit (" ++ str_of_nat (max_str_digits lim)
           ++ py " digits) for integer string conversion: value has "
           ++ str_of_nat digits
           ++ py " digits; use sys.set_int_max_str_digits() to increase the limit")
  end.

Inductive res (A : Type) : Type :=
| Ok (a : A) (rest : pystr)
| Bad
| Limit (e : limit_error)
| OutOfFuel.
Arguments Ok {A} a rest.
Arguments Bad {A}.
Arguments Limit {A} e.
Arguments OutOfFuel {A}.

(** The decoder's whitespace: space, tab, line feed, carriage return. *)
Definition is_ws (c : N) : bool :=
  ((c =? 32) || (c =? 9) || (c =? 10) || (c =? 13))%N.

Fixpoint skip_ws (s : pystr) : pystr :=
  match s with
  | c :: r => if is_ws c then skip_ws r else s
  | [] => []
  end.

Definition is_digit (c : N) : bool := ((48 <=? c) && (c <=? 57))%N.

Definition hex_value (c : N) : option N :=
  if is_digit c then Some (c - 48)%N
  else if ((97 <=? c) && (c <=? 102))%N then Some (c - 87)%N
  else if ((65 <=? c) && (c <=? 70))%N then Some (c - 55)%N
  else None.

(** The four hex digits of a [\uXXXX] escape. *)
Definition decode_uXXXX (a b c d : N) : option N :=
  a ← hex_value a; b ← hex_value b; c ← hex_value c; d ← hex_value d;
  Some (((a * 16 + b) * 16 + c) * 16 + d)%N.

(** The one-character escapes. *)
Definition backslash (c : N) : option N :=
  if (c =? 34)%N then Some 34%N          (* quotation mark *)
  else if (c =? 92)%N then Some 92%N     (* reverse solidus *)
  else if (c =? 47)%N then Some 47%N     (* solidus *)
  else if (c =? 98)%N then Some 8%N      (* b *)
  else if (c =? 102)%N then Some 12%N    (* f *)
  else if (c =? 110)%N then Some 10%N    (* n *)
  else if (c =? 114)%N then Some 13%N    (* r *)
  else if (c =? 116)%N then Some 9%N     (* t *)
  else None.

Definition is_high_surrogate (u : N) : bool := ((55296 <=? u) && (u <=? 56319))%N.
Definition is_low_surrogate (u : N) : bool := ((56320 <=? u) && (u <=? 57343))%N.

Definition cons_fst (c : N) (r : option (pystr * pystr)) : option (pystr * pystr) :=
  match r with Some (str, rest) => Some (c :: str, rest) | None => None end.

(** [scanstring], from just after the opening quotation mark: the
    decoded string and what follows the closing quotation mark. *)
Fixpoint scanstring (s : pystr) : option (pystr * pystr) :=
  match s with
  | [] => None
  | c :: r =>
      if (c =? 34)%N then Some ([], r)
      else if (c =? 92)%N then
        match r with
        | [] => None
        | e :: r1 =>
            if (e =? 117)%N then
              match r1 with
              | h1 :: h2 :: h3 :: h4 :: r2 =>
                  match decode_uXXXX h1 h2 h3 h4 with
                  | None => None
                  | Some uni =>
                      match r2 with
                      | b :: u :: g1 :: g2 :: g3 :: g4 :: r3 =>
                          if is_high_surrogate uni && (b =? 92)%N && (u =? 117)%N then
                            match decode_uXXXX g1 g2 g3 g4 with
                            | None => None
                            | Some uni2 =>
                                if is_low_surrogate uni2 then
                                  cons_fst (65536 + (uni - 55296) * 1024 + (uni2 - 56320))%N
                                           (scanstring r3)
                                else cons_fst uni (scanstring r2)
                            end
                          else cons_fst uni (scanstring r2)
                      | _ => cons_fst uni (scanstring r2)
                      end
                  end
              | _ => None
              end
            else
              match backslash e with
              | Some x => cons_fst x (scanstring r1)
              | None => None
              end
        end
      else if (c <? 32)%N then None
      else cons_fst c (scanstring r)
  end.

Fixpoint span_digits (s : pystr) : pystr * pystr :=
  match s with
  | c :: r => if is_digit c then let '(d, r') := span_digits r in (c :: d, r')
              else ([], s)
  | [] => ([], [])
  end.

Definition int_of_digits (d : pystr) : Z :=
  foldl (λ acc c, acc * 10 + Z.of_N (c - 48)) 0 d.

(** The number pattern matched at the head of [s]: an optional minus
    sign, an integer part without a leading zero, an optional fraction
    and an optional exponent, each taken only when complete.  A literal
    without fraction and exponent goes through [int], which counts its
    digits. *)
Definition match_number (lim : limits) (s : pystr) :
    option ((limit_error + json) * pystr) :=
  let '(sign, s1) := match s with
                     | c :: r => if (c =? 45)%N then ([c], r) else ([], s)
                     | [] => ([], s)
                     end in
  let integer :=
    match s1 with
    | c :: r =>
        if (c =? 48)%N then Some ([c], r)
        else if is_digit c then let '(d, r') := span_digits r in Some (c :: d, r')
        else None
    | [] => None
    end in
  match integer with
  | None => None
  | Some (int_digits, s2) =>
      let '(frac, s3) :=
        match s2 with
        | p :: d :: r =>
            if (p =? 46)%N && is_digit d
            then let '(ds, r') := span_digits r in (p :: d :: ds, r')
            else ([], s2)
        | _ => ([], s2)
        end in
      let '(exp, s4) :=
        match s3 with
        | e :: r =>
            if (e =? 101)%N || (e =? 69)%N then
              match r with
              | g :: r' =>
                  if (g =? 43)%N || (g =? 45)%N then
                    match r' with
                    | d :: r'' =>
                        if is_digit d
                        then let '(ds, r3) := span_digits r'' in (e :: g :: d :: ds, r3)
                        else ([], s3)
                    | [] => ([], s3)
                    end
                  else if is_digit g
                  then let '(ds, r3) := span_digits r' in (e :: g :: ds, r3)
                  else ([], s3)
              | [] => ([], s3)
              end
            else ([], s3)
        | [] => ([], s3)
        end in
      match frac, exp with
      | [], [] =>
          if over_digit_limit lim (length int_digits)
          then Some (inl (TooManyDigits (length int_digits)), s4)
          else
            let v := int_of_digits int_digits in
            Some (inr (JInt (match sign with [] => v | _ => - v end)), s4)
      | _, _ => Some (inr (JFloat (sign ++ int_digits ++ frac ++ exp)), s4)
      end
  end.

(** [s] starts with the literal [lit]: what follows it. *)
Fixpoint strip_prefix (lit s : pystr) : option pystr :=
  match lit, s with
  | [], _ => Some s
  | a :: lit', b :: s' => if (a =? b)%N then strip_prefix lit' s' else None
  | _ :: _, [] => None
  end.

(** [dict[k] = v]: a key already there keeps its place. *)
Fixpoint dict_set (k : pystr) (v : json) (d : list (pystr * json)) :
    list (pystr * json) :=
  match d with
  | [] => [(k, v)]
  | (k', v') :: d' =>
      if decide (k = k') then (k, v) :: d' else (k', v') :: dict_set k v d'
  end.

Definition dict_of_pairs (ps : list (pystr * json)) : list (pystr * json) :=
  foldl (λ d kv, dict_set kv.1 kv.2 d) [] ps.

(** [scan_once] at the head of [s]; [object_members] from just after
    the opening quotation mark of a key; [array_items] from the start
    of an item.  [depth] is the number of containers that can still be
    entered. *)
Fixpoint scan_once (lim : limits) (n depth : nat) (s : pystr) {struct n} : res json :=
  match n with
  | O => OutOfFuel
  | S n =>
      match s with
      | [] => Bad
      | c :: r =>
          if (c =? 34)%N then
            match scanstring r with
            | Some (str, r') => Ok (JStr str) r'
            | None => Bad
            end
          else if (c =? 123)%N then
            match depth with
            | O => Limit (TooDeep false)
            | S depth =>
                match skip_ws r with
                | c' :: r' =>
                    if (c' =? 125)%N then Ok (JDict []) r'
                    else if (c' =? 34)%N then
                      match object_members lim n depth r' with
                      | Ok ps r'' => Ok (JDict (dict_of_pairs ps)) r''
                      | Bad => Bad
                      | Limit e => Limit e
                      | OutOfFuel => OutOfFuel
                      end
                    else Bad
                | [] => Bad
                end
            end
          else if (c =? 91)%N then
            match depth with
            | O => Limit (TooDeep true)
            | S depth =>
                match skip_ws r with
                | c' :: r' =>
                    if (c' =? 93)%N then Ok (JList []) r'
                    else
                      match array_items lim n depth (c' :: r') with
                      | Ok vs r'' => Ok (JList vs) r''
                      | Bad => Bad
                      | Limit e => Limit e
                      | OutOfFuel => OutOfFuel
                      end
                | [] => Bad
                end
            end
          else
            match strip_prefix (py "null") s,
                  strip_prefix (py "true") s,
                  strip_prefix (py "false") s with
            | Some r', _, _ => Ok JNull r'
            | _, Some r', _ => Ok (JBool true) r'
            | _, _, Some r' => Ok (JBool false) r'
            | _, _, _ =>
                match match_number lim s with
                | Some (inr v, r') => Ok v r'
                | Some (inl e, _) => Limit e
                | None =>
                    match strip_prefix (py "NaN") s,
                          strip_prefix (py "Infinity") s,
                          strip_prefix (py "-Infinity") s with
                    | Some r', _, _ => Ok (JFloat (py "NaN")) r'
                    | _, Some r', _ => Ok (JFloat (py "Infinity")) r'
                    | _, _, Some r' => Ok (JFloat (py "-Infinity")) r'
                    | _, _, _ => Bad
                    end
                end
            end
      end
  end
with object_members (lim : limits) (n depth : nat) (s : pystr) {struct n} :
    res (list (pystr * json)) :=
  match n with
  | O => OutOfFuel
  | S n =>
      match scanstring s with
      | None => Bad
      | Some (key, r) =>
          match skip_ws r with
          | c :: r1 =>
              if (c =? 58)%N then
                match scan_once lim n depth (skip_ws r1) with
                | Ok v r2 =>
                    match skip_ws r2 with
                    | d :: r3 =>
                        if (d =? 125)%N then Ok [(key, v)] r3
                        else if (d =? 44)%N then
                          match skip_ws r3 with
                          | q :: r4 =>
                              if (q =? 34)%N then
                                match object_members lim n depth r4 with
                                | Ok ps r5 => Ok ((key, v) :: ps) r5
                                | Bad => Bad
                                | Limit e => Limit e
                                | OutOfFuel => OutOfFuel
                                end
                              else Bad
                          | [] => Bad
                          end
                        else Bad
                    | [] => Bad
                    end
                | Bad => Bad
                | Limit e => Limit e
                | OutOfFuel => OutOfFuel
                end
              else Bad
          | [] => Bad
          end
      end
  end
with array_items (lim : limits) (n depth : nat) (s : pystr) {struct n} :
    res (list json) :=
  match n with
  | O => OutOfFuel
  | S n =>
      match scan_once lim n depth s with
      | Ok v r =>
          match skip_ws r with
          | d :: r1 =>
              if (d =? 93)%N then Ok [v] r1
              else if (d =? 44)%N then
                match array_items lim n depth (skip_ws r1) with
                | Ok vs r2 => Ok (v :: vs) r2
                | Bad => Bad
                | Limit e => Limit e
                | OutOfFuel => OutOfFuel
                end
              else Bad
          | [] => Bad
          end
      | Bad => Bad
      | Limit e => Limit e
      | OutOfFuel => OutOfFuel
      end
  end.

(** What a call of [json.loads] comes to. *)
Inductive outcome :=
| Value (v : json)
| DecodeError
| LimitError (e : limit_error).

(** [json.loads] under the limits [lim]: leading whitespace, one value,
    trailing whitespace, nothing more.  The fuel is always enough
    ([loads_fuel] below). *)
Definition decode (lim : limits) (s : pystr) : outcome :=
  match scan_once lim (2 * length s + 1) (max_depth lim) (skip_ws s) with
  | Ok v r => match skip_ws r with [] => Value v | _ :: _ => DecodeError end
  | Bad | OutOfFuel => DecodeError
  | Limit e => LimitError e
  end.

(** What [json.loads] returns when it returns: the decoder with the
    digit limit off and a depth that no text of this length exhausts.
    [None] stands for [JSONDecodeError]. *)
Definition unlimited (s : pystr) : limits :=
  {| max_depth := length s; max_str_digits := 0 |}.

Definition loads (s : pystr) : option json :=
  match decode (unlimited s) s with
  | Value v => Some v
  | DecodeError | LimitError _ => None
  end.

End Json.
(** ** Regular expressions, as the [re] module matches them

    A backtracking matcher: alternatives are tried in priority order and
    the first complete match wins.  There is one capture group.  The
    patterns of this program never match the empty string inside a
    repetition, so an iteration that consumes nothing is not taken. *)

Module Re.

Inductive re : Type :=
| Chr (p : N → bool)              (* one character of a class *)
| Eps                             (* the empty pattern *)
| Seq (r1 r2 : re)                (* r1 then r2 *)
| Alt (r1 r2 : re)                (* r1, or else r2 *)
| Star (greedy : bool) (r : re)   (* zero or more, greedy or lazy *)
| Group (r : re).                 (* the capture group *)

(** Zero or more matches of [body], each consuming something; [n]
    bounds the number of iterations and the length of the input is
    enough. *)
Fixpoint star_loop {A}
    (body : option pystr → pystr → (option pystr → pystr → option A) → option A)
    (greedy : bool) (k : option pystr → pystr → option A)
    (n : nat) (cap : option pystr) (s : pystr) {struct n} : option A :=
  let more :=
    match n with
    | O => None
    | S n' =>
        body cap s (λ cap' s',
          if (length s' <? length s)%nat
          then star_loop body greedy k n' cap' s' else None)
    end in
  if greedy then
    match more with Some a => Some a | None => k cap s end
  else
    match k cap s with Some a => Some a | None => more end.

(** [m r cap s k]: match [r] at the head of [s], with [cap] the capture
    so far, and hand the capture and the rest of the input to [k]. *)
Fixpoint m {A} (r : re) (cap : option pystr) (s : pystr)
    (k : option pystr → pystr → option A) {struct r} : option A :=
  match r with
  | Chr p =>
      match s with
      | c :: s' => if p c then k cap s' else None
      | [] => None
      end
  | Eps => k cap s
  | Seq r1 r2 => m r1 cap s (λ cap' s', m r2 cap' s' k)
  | Alt r1 r2 =>
      match m r1 cap s k with
      | Some a => Some a
      | None => m r2 cap s k
      end
  | Star greedy r1 => star_loop (m r1) greedy k (length s) cap s
  | Group r1 =>
      m r1 cap s (λ _ s', k (Some (take (length s - length s') s)) s')
  end.

(** A match at the head of [s]: the matched text, the capture, the rest. *)
Definition match_here (r : re) (s : pystr) : option (pystr * option pystr * pystr) :=
  m r None s (λ cap rest, Some (take (length s - length rest) s, cap, rest)).

(** [re.search]: the match at the leftmost position that has one. *)
Fixpoint search (r : re) (s : pystr) : option (pystr * option pystr) :=
  match match_here r s with
  | Some (whole, cap, _) => Some (whole, cap)
  | None =>
      match s with
      | [] => None
      | _ :: s' => search r s'
      end
  end.

(** [re.sub]: every non-overlapping match, left to right, replaced by
    [repl] of its capture. *)
Fixpoint sub_from (n : nat) (r : re) (repl : option pystr → pystr) (s : pystr) : pystr :=
  match n with
  | O => s
  | S n =>
      match match_here r s with
      | Some (_ :: _, cap, rest) => repl cap ++ sub_from n r repl rest
      | _ =>
          match s with
          | [] => []
          | c :: s' => c :: sub_from n r repl s'
          end
      end
  end.

Definition sub (r : re) (repl : option pystr → pystr) (s : pystr) : pystr :=
  sub_from (length s) r repl s.

(** Pattern building blocks. *)
Definition chr (c : N) : re := Chr (N.eqb c).
Definition any : re := Chr (λ _, true).          (* the dot under DOTALL *)
Fixpoint lit (s : pystr) : re :=
  match s with
  | [] => Eps
  | c :: s' => Seq (chr c) (lit s')
  end.
Definition opt (r : re) : re := Alt r Eps.
Definition plus (r : re) : re := Seq r (Star true r).

(** Whitespace of a [str]: what [\s] matches and [str.strip] removes. *)
Definition is_space (c : N) : bool :=
  (((9 <=? c) && (c <=? 13)) || ((28 <=? c) && (c <=? 32))
   || (c =? 133) || (c =? 160) || (c =? 5760)
   || ((8192 <=? c) && (c <=? 8202)) || (c =? 8232) || (c =? 8233)
   || (c =? 8239) || (c =? 8287) || (c =? 12288))%N.
Definition space : re := Chr is_space.

End Re.

Notation "r1 ⋅ r2" := (Re.Seq r1 r2) (at level 41, right associativity).

(** [str.lstrip], [str.rstrip] and [str.strip] without argument. *)
Fixpoint lstrip (s : pystr) : pystr :=
  match s with
  | c :: r => if Re.is_space c then lstrip r else s
  | [] => []
  end.
Definition rstrip (s : pystr) : pystr := reverse (lstrip (reverse s)).
Definition strip (s : pystr) : pystr := rstrip (lstrip s).
(** ** services/ai_orchestrator.py: the response-recovery cascade *)

Module Recovery.
Import Re.

Definition backtick : N := 96.
Definition lbrace : N := 123.
Definition rbrace : N := 125.
Definition rbracket : N := 93.
Definition comma : N := 44.
Definition not_brace (c : N) : bool := negb ((c =? lbrace) || (c =? rbrace))%N.

(** The pattern of a fenced block: three backticks, an optional
    [json], whitespace, the capture (an opening brace, lazily anything,
    a closing brace), whitespace, three backticks. *)
Definition code_block_re : re :=
  lit (py "```") ⋅ opt (lit (py "json")) ⋅ Star true space
    ⋅ Group (chr lbrace ⋅ Star false any ⋅ chr rbrace)
    ⋅ Star true space ⋅ lit (py "```").

(** The pattern of a brace region with one level of nesting. *)
Definition brace_re : re :=
  chr lbrace ⋅ Star true (Chr not_brace)
    ⋅ Star true (chr lbrace ⋅ Star true (Chr not_brace) ⋅ chr rbrace
                 ⋅ Star true (Chr not_brace))
    ⋅ chr rbrace.

(** The greedy pattern: from an opening brace to the last closing one. *)
Definition nested_re : re := chr lbrace ⋅ Star true any ⋅ chr rbrace.

(** The control characters that the fourth strategy removes. *)
Definition control_re : re := Chr (λ c, (c <=? 31) || (c =? 127))%N.

(** A comma, whitespace, and the captured closing bracket or brace. *)
Definition trailing_comma_re : re :=
  chr comma ⋅ Star true space ⋅ Group (Chr (λ c, (c =? rbrace) || (c =? rbracket))%N).

(** [_fix_json_issues]: each such comma goes, the capture stays. *)
Definition _fix_json_issues (text : pystr) : pystr :=
  sub trailing_comma_re (λ cap, default [] cap) text.

(** [try: return json.loads(s) except json.JSONDecodeError: ...]: the
    value, or nothing when the handler takes the error; what a limit of
    the interpreter raises is no [JSONDecodeError] and goes through. *)
Definition try_loads (lim : Json.limits) (s : pystr) : exn + option json :=
  match Json.decode lim s with
  | Json.Value v => inr (Some v)
  | Json.DecodeError => inr None
  | Json.LimitError e => inl (Json.limit_exn lim e)
  end.

(** The five strategies, each yielding a value, failing, or raising. *)
Definition try_direct (lim : Json.limits) (text : pystr) : exn + option json :=
  try_loads lim text.

Definition try_code_block (lim : Json.limits) (text : pystr) : exn + option json :=
  match search code_block_re text with
  | Some (_, Some group1) => try_loads lim group1
  | _ => inr None
  end.

Definition try_brace (lim : Json.limits) (text : pystr) : exn + option json :=
  match search brace_re text with
  | Some (whole, _) => try_loads lim whole
  | None => inr None
  end.

Definition try_cleaned (lim : Json.limits) (text : pystr) : exn + option json :=
  let cleaned := sub control_re (λ _, []) text in
  let cleaned := strip cleaned in
  try_loads lim cleaned.

Definition try_nested (lim : Json.limits) (text : pystr) : exn + option json :=
  match search nested_re text with
  | Some (candidate, _) =>
      let candidate := _fix_json_issues candidate in
      try_loads lim candidate
  | None => inr None
  end.

Definition parse_error_note : pystr :=
  py "Error de parseo: no se pudo extraer JSON v" ++ [225%N] ++ py "lido".

Definition neutral_sentiment : json :=
  JDict [(py "label", JStr (py "Neutro"));
         (py "score", JFloat (py "0.5"));
         (py "details", JStr parse_error_note)].

(** [_create_fallback_response]. *)
Definition _create_fallback_response (raw_text : pystr) : json :=
  let summary_post :=
    match raw_text with
    | _ :: _ => slice 0 400 raw_text
    | [] => py "Error al procesar respuesta del LLM"
    end in
  let summary_comments :=
    if (400 <? length raw_text)%nat then slice 400 1000 raw_text else [] in
  JDict [(py "summary_post", JStr summary_post);
         (py "summary_comments", JStr summary_comments);
         (py "sentiment_post", neutral_sentiment);
         (py "sentiment_comments", neutral_sentiment);
         (py "consensus", JStr (py "No disponible debido a error de procesamiento"));
         (py "key_controversies", JList []);
         (py "useful_links", JList [])].

(** One strategy, then the rest of the cascade when it fails. *)
Definition or_else (attempt : exn + option json) (rest : exn + json) : exn + json :=
  match attempt with
  | inl e => inl e
  | inr (Some v) => inr v
  | inr None => rest
  end.

(** [_parse_json_response]: the first strategy that yields a value,
    else the fallback; an exception that is no [JSONDecodeError] ends
    the cascade. *)
Definition _parse_json_response (lim : Json.limits) (text : pystr) : exn + json :=
  or_else (try_direct lim text)
    (or_else (try_code_block lim text)
       (or_else (try_brace lim text)
          (or_else (try_cleaned lim text)
             (or_else (try_nested lim text)
                (inr (_create_fallback_response text)))))).

End Recovery.

(** ** [hashlib.sha256] and [str.encode] *)

Module Sha256.

Definition w32 (x : Z) : Z := x mod 4294967296.
Definition add32 (x y : Z) : Z := w32 (x + y).
Definition rotr (n x : Z) : Z :=
  Z.lor (Z.shiftr x n) (w32 (Z.shiftl x (32 - n))).
Definition not32 (x : Z) : Z := 4294967295 - x.

Definition ch (x y z : Z) : Z := Z.lxor (Z.land x y) (Z.land (not32 x) z).
Definition maj (x y z : Z) : Z :=
  Z.lxor (Z.lxor (Z.land x y) (Z.land x z)) (Z.land y z).
Definition bsig0 (x : Z) : Z := Z.lxor (Z.lxor (rotr 2 x) (rotr 13 x)) (rotr 22 x).
Definition bsig1 (x : Z) : Z := Z.lxor (Z.lxor (rotr 6 x) (rotr 11 x)) (rotr 25 x).
Definition ssig0 (x : Z) : Z := Z.lxor (Z.lxor (rotr 7 x) (rotr 18 x)) (Z.shiftr x 3).
Definition ssig1 (x : Z) : Z := Z.lxor (Z.lxor (rotr 17 x) (rotr 19 x)) (Z.shiftr x 10).

(** The constants of the standard are fractional parts of roots of the
first primes, on 32 bits: cube roots of the first 64 primes for the round
constants, square roots of the first 8 for the initial hash value. *)
Definition is_prime (n : nat) : bool :=
forallb (λ d, negb (n mod d =? 0)%nat) (seq 2 (n - 2)).

Definition primes : list Z := Z.of_nat <$> filter is_prime (seq 2 310).

Fixpoint cube_root_between (fuel : nat) (lo hi n : Z) : Z :=
match fuel with
| O => lo
| S fuel =>
    let mid := (lo + hi) / 2 in
    if mid * mid * mid <=? n
    then cube_root_between fuel mid hi n
    else cube_root_between fuel lo mid n
end.

Definition K : list Z :=
Eval vm_compute in
  map (λ p, w32 (cube_root_between 48 0 (2 ^ 44) (p * 2 ^ 96))) primes.

Definition H0 : list Z :=
Eval vm_compute in
  map (λ p, w32 (Z.sqrt (p * 2 ^ 64))) (take 8 primes).

(** The message followed by the bit 1, zeros, and its length in bits
    on eight bytes. *)
Definition pad (msg : list Z) : list Z :=
  let l := length msg in
  let zeros := ((64 - (l + 9) mod 64) mod 64)%nat in
  let bits := Z.of_nat l * 8 in
  msg ++ [128] ++ replicate zeros 0
      ++ map (λ i, Z.shiftr bits (8 * i) mod 256) [7; 6; 5; 4; 3; 2; 1; 0].

Fixpoint words (bytes : list Z) : list Z :=
  match bytes with
  | a :: b :: c :: d :: rest => (((a * 256 + b) * 256 + c) * 256 + d) :: words rest
  | _ => []
  end.

Fixpoint blocks (n : nat) (ws : list Z) : list (list Z) :=
  match n with
  | O => []
  | S n => match ws with [] => [] | _ => take 16 ws :: blocks n (drop 16 ws) end
  end.

(** The message schedule, most recent word first. *)
Fixpoint schedule (n : nat) (rev_w : list Z) : list Z :=
  match n with
  | O => rev_w
  | S n =>
      let w := add32 (add32 (ssig1 (rev_w !!! 1%nat)) (rev_w !!! 6%nat))
                     (add32 (ssig0 (rev_w !!! 14%nat)) (rev_w !!! 15%nat)) in
      schedule n (w :: rev_w)
  end.

Definition round (st : list Z) (kw : Z * Z) : list Z :=
  match st with
  | [a; b; c; d; e; f; g; h] =>
      let t1 := add32 (add32 (add32 h (bsig1 e)) (add32 (ch e f g) kw.1)) kw.2 in
      let t2 := add32 (bsig0 a) (maj a b c) in
      [add32 t1 t2; a; b; c; add32 d t1; e; f; g]
  | _ => st
  end.

Definition compress (h : list Z) (block : list Z) : list Z :=
  let w := reverse (schedule 48 (reverse block)) in
  zip_with add32 h (foldl round h (zip K w)).

Definition digest (msg : list Z) : list Z :=
  let ws := words (pad msg) in
  foldl compress H0 (blocks (length ws) ws)
    ≫= λ w, map (λ i, Z.shiftr w (8 * i) mod 256) [3; 2; 1; 0].

Definition hex_digit (n : Z) : N :=
  if n <? 10 then Z.to_N (48 + n) else Z.to_N (87 + n).

(** [hexdigest]: two lowercase hex digits per byte. *)
Definition hexdigest (msg : list Z) : pystr :=
  digest msg ≫= λ b, [hex_digit (b / 16); hex_digit (b mod 16)].

End Sha256.

(** [str.encode()]: the UTF-8 bytes of a string that has no surrogate.
    On a string that has one [str.encode] raises, see [encode_error];
    [encode] then gives the three bytes that the surrogate would take. *)
Definition utf8_char (c : N) : list Z :=
  let c := Z.of_N c in
  if c <? 128 then [c]
  else if c <? 2048 then [192 + c / 64; 128 + c mod 64]
  else if c <? 65536 then [224 + c / 4096; 128 + (c / 64) mod 64; 128 + c mod 64]
  else [240 + c / 262144; 128 + (c / 4096) mod 64; 128 + (c / 64) mod 64;
        128 + c mod 64].

Definition encode (s : pystr) : list Z := s ≫= utf8_char.

Definition is_surrogate (c : N) : bool := ((55296 <=? c) && (c <=? 57343))%N.

(** How many surrogates [s] starts with. *)
Fixpoint surrogates_ahead (s : pystr) : nat :=
  match s with
  | c :: r => if is_surrogate c then S (surrogates_ahead r) else 0
  | [] => 0
  end.

(** The first run of surrogates of [s], from position [i] on: where it
    starts, its first character and its length. *)
Fixpoint surrogate_run (i : nat) (s : pystr) : option (nat * N * nat) :=
  match s with
  | [] => None
  | c :: r =>
      if is_surrogate c then Some (i, c, surrogates_ahead s)
      else surrogate_run (S i) r
  end.

(** What [str.encode()] raises, with the message of CPython 3.11: a
    [UnicodeEncodeError] for the first run of surrogates. *)
Definition encode_error (s : pystr) : option exn :=
  match surrogate_run 0 s with
  | None => None
  | Some (start, c, run) =>
      Some (mkExn ValueError
              (py "'utf-8' codec can't encode character"
                 ++ match run with
                    | 1%nat =>
                        py " '\ud"
                          ++ map (λ i, Sha256.hex_digit (Z.of_N (N.shiftr c (4 * i)) mod 16))
                               [2; 1; 0]%N
                          ++ py "' in position " ++ str_of_nat start
                    | _ =>
                        py "s in position " ++ str_of_nat start ++ py "-"
                          ++ str_of_nat (start + run - 1)
                    end
                 ++ py ": surrogates not allowed"))
  end.

(** ** [str.lower()]

    The lower-case mappings of Unicode 14.0, which CPython 3.11 carries.
    Each code point goes to its lower-case mapping, one code point but
    for U+0130; the capital sigma, U+03A3, goes to the final sigma when a
    cased character comes before it and none after it, characters that
    are case-ignorable not counting, and to the small sigma otherwise.

    The code points from [lo] to [hi] in steps of [step] move by
    [delta]. *)
Definition lower_ranges : list (N * N * N * Z) :=
  [
    (65, 90, 1, 32%Z); (192, 214, 1, 32%Z); (216, 222, 1, 32%Z); (256, 302, 2, 1%Z);
    (306, 310, 2, 1%Z); (313, 327, 2, 1%Z); (330, 374, 2, 1%Z); (376, 376, 1, (-121)%Z);
    (377, 381, 2, 1%Z); (385, 385, 1, 210%Z); (386, 388, 2, 1%Z); (390, 390, 1, 206%Z);
    (391, 391, 1, 1%Z); (393, 394, 1, 205%Z); (395, 395, 1, 1%Z); (398, 398, 1, 79%Z);
    (399, 399, 1, 202%Z); (400, 400, 1, 203%Z); (401, 401, 1, 1%Z); (403, 403, 1, 205%Z);
    (404, 404, 1, 207%Z); (406, 406, 1, 211%Z); (407, 407, 1, 209%Z); (408, 408, 1, 1%Z);
    (412, 412, 1, 211%Z); (413, 413, 1, 213%Z); (415, 415, 1, 214%Z); (416, 420, 2, 1%Z);
    (422, 422, 1, 218%Z); (423, 423, 1, 1%Z); (425, 425, 1, 218%Z); (428, 428, 1, 1%Z);
    (430, 430, 1, 218%Z); (431, 431, 1, 1%Z); (433, 434, 1, 217%Z); (435, 437, 2, 1%Z);
    (439, 439, 1, 219%Z); (440, 440, 1, 1%Z); (444, 444, 1, 1%Z); (452, 452, 1, 2%Z);
    (453, 453, 1, 1%Z); (455, 455, 1, 2%Z); (456, 456, 1, 1%Z); (458, 458, 1, 2%Z);
    (459, 475, 2, 1%Z); (478, 494, 2, 1%Z); (497, 497, 1, 2%Z); (498, 500, 2, 1%Z);
    (502, 502, 1, (-97)%Z); (503, 503, 1, (-56)%Z); (504, 542, 2, 1%Z); (544, 544, 1, (-130)%Z);
    (546, 562, 2, 1%Z); (570, 570, 1, 10795%Z); (571, 571, 1, 1%Z); (573, 573, 1, (-163)%Z);
    (574, 574, 1, 10792%Z); (577, 577, 1, 1%Z); (579, 579, 1, (-195)%Z); (580, 580, 1, 69%Z);
    (581, 581, 1, 71%Z); (582, 590, 2, 1%Z); (880, 882, 2, 1%Z); (886, 886, 1, 1%Z);
    (895, 895, 1, 116%Z); (902, 902, 1, 38%Z); (904, 906, 1, 37%Z); (908, 908, 1, 64%Z);
    (910, 911, 1, 63%Z); (913, 929, 1, 32%Z); (931, 939, 1, 32%Z); (975, 975, 1, 8%Z);
    (984, 1006, 2, 1%Z); (1012, 1012, 1, (-60)%Z); (1015, 1015, 1, 1%Z); (1017, 1017, 1, (-7)%Z);
    (1018, 1018, 1, 1%Z); (1021, 1023, 1, (-130)%Z); (1024, 1039, 1, 80%Z); (1040, 1071, 1, 32%Z);
    (1120, 1152, 2, 1%Z); (1162, 1214, 2, 1%Z); (1216, 1216, 1, 15%Z); (1217, 1229, 2, 1%Z);
    (1232, 1326, 2, 1%Z); (1329, 1366, 1, 48%Z); (4256, 4293, 1, 7264%Z); (4295, 4295, 1, 7264%Z);
    (4301, 4301, 1, 7264%Z); (5024, 5103, 1, 38864%Z); (5104, 5109, 1, 8%Z); (7312, 7354, 1, (-3008)%Z);
    (7357, 7359, 1, (-3008)%Z); (7680, 7828, 2, 1%Z); (7838, 7838, 1, (-7615)%Z); (7840, 7934, 2, 1%Z);
    (7944, 7951, 1, (-8)%Z); (7960, 7965, 1, (-8)%Z); (7976, 7983, 1, (-8)%Z); (7992, 7999, 1, (-8)%Z);
    (8008, 8013, 1, (-8)%Z); (8025, 8031, 2, (-8)%Z); (8040, 8047, 1, (-8)%Z); (8072, 8079, 1, (-8)%Z);
    (8088, 8095, 1, (-8)%Z); (8104, 8111, 1, (-8)%Z); (8120, 8121, 1, (-8)%Z); (8122, 8123, 1, (-74)%Z);
    (8124, 8124, 1, (-9)%Z); (8136, 8139, 1, (-86)%Z); (8140, 8140, 1, (-9)%Z); (8152, 8153, 1, (-8)%Z);
    (8154, 8155, 1, (-100)%Z); (8168, 8169, 1, (-8)%Z); (8170, 8171, 1, (-112)%Z); (8172, 8172, 1, (-7)%Z);
    (8184, 8185, 1, (-128)%Z); (8186, 8187, 1, (-126)%Z); (8188, 8188, 1, (-9)%Z); (8486, 8486, 1, (-7517)%Z);
    (8490, 8490, 1, (-8383)%Z); (8491, 8491, 1, (-8262)%Z); (8498, 8498, 1, 28%Z); (8544, 8559, 1, 16%Z);
    (8579, 8579, 1, 1%Z); (9398, 9423, 1, 26%Z); (11264, 11311, 1, 48%Z); (11360, 11360, 1, 1%Z);
    (11362, 11362, 1, (-10743)%Z); (11363, 11363, 1, (-3814)%Z); (11364, 11364, 1, (-10727)%Z); (11367, 11371, 2, 1%Z);
    (11373, 11373, 1, (-10780)%Z); (11374, 11374, 1, (-10749)%Z); (11375, 11375, 1, (-10783)%Z); (11376, 11376, 1, (-10782)%Z);
    (11378, 11378, 1, 1%Z); (11381, 11381, 1, 1%Z); (11390, 11391, 1, (-10815)%Z); (11392, 11490, 2, 1%Z);
    (11499, 11501, 2, 1%Z); (11506, 11506, 1, 1%Z); (42560, 42604, 2, 1%Z); (42624, 42650, 2, 1%Z);
    (42786, 42798, 2, 1%Z); (42802, 42862, 2, 1%Z); (42873, 42875, 2, 1%Z); (42877, 42877, 1, (-35332)%Z);
    (42878, 42886, 2, 1%Z); (42891, 42891, 1, 1%Z); (42893, 42893, 1, (-42280)%Z); (42896, 42898, 2, 1%Z);
    (42902, 42920, 2, 1%Z); (42922, 42922, 1, (-42308)%Z); (42923, 42923, 1, (-42319)%Z); (42924, 42924, 1, (-42315)%Z);
    (42925, 42925, 1, (-42305)%Z); (42926, 42926, 1, (-42308)%Z); (42928, 42928, 1, (-42258)%Z); (42929, 42929, 1, (-42282)%Z);
    (42930, 42930, 1, (-42261)%Z); (42931, 42931, 1, 928%Z); (42932, 42946, 2, 1%Z); (42948, 42948, 1, (-48)%Z);
    (42949, 42949, 1, (-42307)%Z); (42950, 42950, 1, (-35384)%Z); (42951, 42953, 2, 1%Z); (42960, 42960, 1, 1%Z);
    (42966, 42968, 2, 1%Z); (42997, 42997, 1, 1%Z); (65313, 65338, 1, 32%Z); (66560, 66599, 1, 40%Z);
    (66736, 66771, 1, 40%Z); (66928, 66964, 2, 39%Z); (66929, 66937, 2, 39%Z); (66941, 66953, 2, 39%Z);
    (66957, 66961, 2, 39%Z); (66965, 66965, 1, 39%Z); (68736, 68786, 1, 64%Z); (71840, 71871, 1, 32%Z);
    (93760, 93791, 1, 32%Z); (125184, 125217, 1, 34%Z)
  ]%N.

Definition case_ignorable_ranges : list (N * N) :=
  [
    (39, 39); (46, 46); (58, 58); (94, 94); (96, 96);
    (168, 168); (173, 173); (175, 175); (180, 180); (183, 184);
    (688, 879); (884, 885); (890, 890); (900, 901); (903, 903);
    (1155, 1161); (1369, 1369); (1375, 1375); (1425, 1469); (1471, 1471);
    (1473, 1474); (1476, 1477); (1479, 1479); (1524, 1524); (1536, 1541);
    (1552, 1562); (1564, 1564); (1600, 1600); (1611, 1631); (1648, 1648);
    (1750, 1757); (1759, 1768); (1770, 1773); (1807, 1807); (1809, 1809);
    (1840, 1866); (1958, 1968); (2027, 2037); (2042, 2042); (2045, 2045);
    (2070, 2093); (2137, 2139); (2184, 2184); (2192, 2193); (2200, 2207);
    (2249, 2306); (2362, 2362); (2364, 2364); (2369, 2376); (2381, 2381);
    (2385, 2391); (2402, 2403); (2417, 2417); (2433, 2433); (2492, 2492);
    (2497, 2500); (2509, 2509); (2530, 2531); (2558, 2558); (2561, 2562);
    (2620, 2620); (2625, 2626); (2631, 2632); (2635, 2637); (2641, 2641);
    (2672, 2673); (2677, 2677); (2689, 2690); (2748, 2748); (2753, 2757);
    (2759, 2760); (2765, 2765); (2786, 2787); (2810, 2815); (2817, 2817);
    (2876, 2876); (2879, 2879); (2881, 2884); (2893, 2893); (2901, 2902);
    (2914, 2915); (2946, 2946); (3008, 3008); (3021, 3021); (3072, 3072);
    (3076, 3076); (3132, 3132); (3134, 3136); (3142, 3144); (3146, 3149);
    (3157, 3158); (3170, 3171); (3201, 3201); (3260, 3260); (3263, 3263);
    (3270, 3270); (3276, 3277); (3298, 3299); (3328, 3329); (3387, 3388);
    (3393, 3396); (3405, 3405); (3426, 3427); (3457, 3457); (3530, 3530);
    (3538, 3540); (3542, 3542); (3633, 3633); (3636, 3642); (3654, 3662);
    (3761, 3761); (3764, 3772); (3782, 3782); (3784, 3789); (3864, 3865);
    (3893, 3893); (3895, 3895); (3897, 3897); (3953, 3966); (3968, 3972);
    (3974, 3975); (3981, 3991); (3993, 4028); (4038, 4038); (4141, 4144);
    (4146, 4151); (4153, 4154); (4157, 4158); (4184, 4185); (4190, 4192);
    (4209, 4212); (4226, 4226); (4229, 4230); (4237, 4237); (4253, 4253);
    (4348, 4348); (4957, 4959); (5906, 5908); (5938, 5939); (5970, 5971);
    (6002, 6003); (6068, 6069); (6071, 6077); (6086, 6086); (6089, 6099);
    (6103, 6103); (6109, 6109); (6155, 6159); (6211, 6211); (6277, 6278);
    (6313, 6313); (6432, 6434); (6439, 6440); (6450, 6450); (6457, 6459);
    (6679, 6680); (6683, 6683); (6742, 6742); (6744, 6750); (6752, 6752);
    (6754, 6754); (6757, 6764); (6771, 6780); (6783, 6783); (6823, 6823);
    (6832, 6862); (6912, 6915); (6964, 6964); (6966, 6970); (6972, 6972);
    (6978, 6978); (7019, 7027); (7040, 7041); (7074, 7077); (7080, 7081);
    (7083, 7085); (7142, 7142); (7144, 7145); (7149, 7149); (7151, 7153);
    (7212, 7219); (7222, 7223); (7288, 7293); (7376, 7378); (7380, 7392);
    (7394, 7400); (7405, 7405); (7412, 7412); (7416, 7417); (7468, 7530);
    (7544, 7544); (7579, 7679); (8125, 8125); (8127, 8129); (8141, 8143);
    (8157, 8159); (8173, 8175); (8189, 8190); (8203, 8207); (8216, 8217);
    (8228, 8228); (8231, 8231); (8234, 8238); (8288, 8292); (8294, 8303);
    (8305, 8305); (8319, 8319); (8336, 8348); (8400, 8432); (11388, 11389);
    (11503, 11505); (11631, 11631); (11647, 11647); (11744, 11775); (11823, 11823);
    (12293, 12293); (12330, 12333); (12337, 12341); (12347, 12347); (12441, 12446);
    (12540, 12542); (40981, 40981); (42232, 42237); (42508, 42508); (42607, 42610);
    (42612, 42621); (42623, 42623); (42652, 42655); (42736, 42737); (42752, 42785);
    (42864, 42864); (42888, 42890); (42994, 42996); (43000, 43001); (43010, 43010);
    (43014, 43014); (43019, 43019); (43045, 43046); (43052, 43052); (43204, 43205);
    (43232, 43249); (43263, 43263); (43302, 43309); (43335, 43345); (43392, 43394);
    (43443, 43443); (43446, 43449); (43452, 43453); (43471, 43471); (43493, 43494);
    (43561, 43566); (43569, 43570); (43573, 43574); (43587, 43587); (43596, 43596);
    (43632, 43632); (43644, 43644); (43696, 43696); (43698, 43700); (43703, 43704);
    (43710, 43711); (43713, 43713); (43741, 43741); (43756, 43757); (43763, 43764);
    (43766, 43766); (43867, 43871); (43881, 43883); (44005, 44005); (44008, 44008);
    (44013, 44013); (64286, 64286); (64434, 64450); (65024, 65039); (65043, 65043);
    (65056, 65071); (65106, 65106); (65109, 65109); (65279, 65279); (65287, 65287);
    (65294, 65294); (65306, 65306); (65342, 65342); (65344, 65344); (65392, 65392);
    (65438, 65439); (65507, 65507); (65529, 65531); (66045, 66045); (66272, 66272);
    (66422, 66426); (67456, 67461); (67463, 67504); (67506, 67514); (68097, 68099);
    (68101, 68102); (68108, 68111); (68152, 68154); (68159, 68159); (68325, 68326);
    (68900, 68903); (69291, 69292); (69446, 69456); (69506, 69509); (69633, 69633);
    (69688, 69702); (69744, 69744); (69747, 69748); (69759, 69761); (69811, 69814);
    (69817, 69818); (69821, 69821); (69826, 69826); (69837, 69837); (69888, 69890);
    (69927, 69931); (69933, 69940); (70003, 70003); (70016, 70017); (70070, 70078);
    (70089, 70092); (70095, 70095); (70191, 70193); (70196, 70196); (70198, 70199);
    (70206, 70206); (70367, 70367); (70371, 70378); (70400, 70401); (70459, 70460);
    (70464, 70464); (70502, 70508); (70512, 70516); (70712, 70719); (70722, 70724);
    (70726, 70726); (70750, 70750); (70835, 70840); (70842, 70842); (70847, 70848);
    (70850, 70851); (71090, 71093); (71100, 71101); (71103, 71104); (71132, 71133);
    (71219, 71226); (71229, 71229); (71231, 71232); (71339, 71339); (71341, 71341);
    (71344, 71349); (71351, 71351); (71453, 71455); (71458, 71461); (71463, 71467);
    (71727, 71735); (71737, 71738); (71995, 71996); (71998, 71998); (72003, 72003);
    (72148, 72151); (72154, 72155); (72160, 72160); (72193, 72202); (72243, 72248);
    (72251, 72254); (72263, 72263); (72273, 72278); (72281, 72283); (72330, 72342);
    (72344, 72345); (72752, 72758); (72760, 72765); (72767, 72767); (72850, 72871);
    (72874, 72880); (72882, 72883); (72885, 72886); (73009, 73014); (73018, 73018);
    (73020, 73021); (73023, 73029); (73031, 73031); (73104, 73105); (73109, 73109);
    (73111, 73111); (73459, 73460); (78896, 78904); (92912, 92916); (92976, 92982);
    (92992, 92995); (94031, 94031); (94095, 94111); (94176, 94177); (94179, 94180);
    (110576, 110579); (110581, 110587); (110589, 110590); (113821, 113822); (113824, 113827);
    (118528, 118573); (118576, 118598); (119143, 119145); (119155, 119170); (119173, 119179);
    (119210, 119213); (119362, 119364); (121344, 121398); (121403, 121452); (121461, 121461);
    (121476, 121476); (121499, 121503); (121505, 121519); (122880, 122886); (122888, 122904);
    (122907, 122913); (122915, 122916); (122918, 122922); (123184, 123197); (123566, 123566);
    (123628, 123631); (125136, 125142); (125252, 125259); (127995, 127999); (917505, 917505);
    (917536, 917631); (917760, 917999)
  ]%N.

Definition cased_ranges : list (N * N) :=
  [
    (65, 90); (97, 122); (170, 170); (181, 181); (186, 186);
    (192, 214); (216, 246); (248, 442); (444, 447); (452, 659);
    (661, 696); (704, 705); (736, 740); (837, 837); (880, 883);
    (886, 887); (890, 893); (895, 895); (902, 902); (904, 906);
    (908, 908); (910, 929); (931, 1013); (1015, 1153); (1162, 1327);
    (1329, 1366); (1376, 1416); (4256, 4293); (4295, 4295); (4301, 4301);
    (4304, 4346); (4349, 4351); (5024, 5109); (5112, 5117); (7296, 7304);
    (7312, 7354); (7357, 7359); (7424, 7615); (7680, 7957); (7960, 7965);
    (7968, 8005); (8008, 8013); (8016, 8023); (8025, 8025); (8027, 8027);
    (8029, 8029); (8031, 8061); (8064, 8116); (8118, 8124); (8126, 8126);
    (8130, 8132); (8134, 8140); (8144, 8147); (8150, 8155); (8160, 8172);
    (8178, 8180); (8182, 8188); (8305, 8305); (8319, 8319); (8336, 8348);
    (8450, 8450); (8455, 8455); (8458, 8467); (8469, 8469); (8473, 8477);
    (8484, 8484); (8486, 8486); (8488, 8488); (8490, 8493); (8495, 8500);
    (8505, 8505); (8508, 8511); (8517, 8521); (8526, 8526); (8544, 8575);
    (8579, 8580); (9398, 9449); (11264, 11492); (11499, 11502); (11506, 11507);
    (11520, 11557); (11559, 11559); (11565, 11565); (42560, 42605); (42624, 42653);
    (42786, 42887); (42891, 42894); (42896, 42954); (42960, 42961); (42963, 42963);
    (42965, 42969); (42997, 42998); (43000, 43002); (43824, 43866); (43868, 43880);
    (43888, 43967); (64256, 64262); (64275, 64279); (65313, 65338); (65345, 65370);
    (66560, 66639); (66736, 66771); (66776, 66811); (66928, 66938); (66940, 66954);
    (66956, 66962); (66964, 66965); (66967, 66977); (66979, 66993); (66995, 67001);
    (67003, 67004); (67456, 67456); (67459, 67461); (67463, 67504); (67506, 67514);
    (68736, 68786); (68800, 68850); (71840, 71903); (93760, 93823); (119808, 119892);
    (119894, 119964); (119966, 119967); (119970, 119970); (119973, 119974); (119977, 119980);
    (119982, 119993); (119995, 119995); (119997, 120003); (120005, 120069); (120071, 120074);
    (120077, 120084); (120086, 120092); (120094, 120121); (120123, 120126); (120128, 120132);
    (120134, 120134); (120138, 120144); (120146, 120485); (120488, 120512); (120514, 120538);
    (120540, 120570); (120572, 120596); (120598, 120628); (120630, 120654); (120656, 120686);
    (120688, 120712); (120714, 120744); (120746, 120770); (120772, 120779); (122624, 122633);
    (122635, 122654); (125184, 125251); (127280, 127305); (127312, 127337); (127344, 127369)
  ]%N.

Definition in_ranges (ranges : list (N * N)) (c : N) : bool :=
  existsb (λ r : N * N, (r.1 <=? c) && (c <=? r.2))%N ranges.

Definition is_case_ignorable (c : N) : bool := in_ranges case_ignorable_ranges c.
Definition is_cased (c : N) : bool := in_ranges cased_ranges c.

Definition in_lower_range (c : N) (r : N * N * N * Z) : bool :=
  let '(lo, hi, step, _) := r in
  ((lo <=? c) && (c <=? hi) && ((c - lo) mod step =? 0))%N.

(** The mapping of one code point, the capital sigma apart. *)
Definition to_lower (c : N) : pystr :=
  if (c =? 304)%N then [105; 775]%N
  else
    match find (in_lower_range c) lower_ranges with
    | Some (_, _, _, delta) => [Z.to_N (Z.of_N c + delta)]
    | None => [c]
    end.

(** The first character that is not case-ignorable. *)
Fixpoint skip_ignorable (s : pystr) : option N :=
  match s with
  | [] => None
  | c :: r => if is_case_ignorable c then skip_ignorable r else Some c
  end.

(** The capital sigma stands at the end of a word: [before] is what
    precedes it, the nearest character first. *)
Definition final_sigma (before after : pystr) : bool :=
  match skip_ignorable before with
  | Some c =>
      is_cased c
      && match skip_ignorable after with
         | Some d => negb (is_cased d)
         | None => true
         end
  | None => false
  end.

Fixpoint lower_from (before s : pystr) : pystr :=
  match s with
  | [] => []
  | c :: r =>
      (if (c =? 931)%N
       then [if final_sigma before r then 962%N else 963%N]
       else to_lower c)
        ++ lower_from (c :: before) r
  end.

Definition lower (s : pystr) : pystr := lower_from [] s.

(** [s.rstrip(chars)] for a single character. *)
Fixpoint lstrip_char (x : N) (s : pystr) : pystr :=
  match s with
  | c :: r => if (c =? x)%N then lstrip_char x r else s
  | [] => []
  end.
Definition rstrip_char (x : N) (s : pystr) : pystr :=
  reverse (lstrip_char x (reverse s)).
(** ** [json.dumps]

    With the default separators; [ensure_ascii] as the caller sets it.
    A float is written back as its lexeme, where Python writes the
    shortest text that reads back as the same value. *)

Module JsonDumps.

Definition hex4 (n : N) : pystr :=
  map (λ i, Sha256.hex_digit (Z.of_N (N.shiftr n (4 * i)) mod 16))
      [3; 2; 1; 0]%N.

Definition u_escape (n : N) : pystr := py "\u" ++ hex4 n.

Definition escape_char (ensure_ascii : bool) (c : N) : pystr :=
  if (c =? 34)%N then py "\" ++ [34%N]
  else if (c =? 92)%N then py "\\"
  else if (c =? 10)%N then py "\n"
  else if (c =? 13)%N then py "\r"
  else if (c =? 9)%N then py "\t"
  else if (c =? 8)%N then py "\b"
  else if (c =? 12)%N then py "\f"
  else if (c <? 32)%N then u_escape c
  else if ensure_ascii && (126 <? c)%N then
    if (c <? 65536)%N then u_escape c
    else
      let n := (c - 65536)%N in
      u_escape (55296 + N.land (N.shiftr n 10) 1023)
        ++ u_escape (56320 + N.land n 1023)
  else [c].

Definition quote (ensure_ascii : bool) (s : pystr) : pystr :=
  [34%N] ++ (s ≫= escape_char ensure_ascii) ++ [34%N].

Fixpoint join (sep : pystr) (parts : list pystr) : pystr :=
  match parts with
  | [] => []
  | [x] => x
  | x :: rest => x ++ sep ++ join sep rest
  end.

Fixpoint dumps (ensure_ascii : bool) (v : json) : pystr :=
  match v with
  | JNull => py "null"
  | JBool true => py "true"
  | JBool false => py "false"
  | JInt z => py (DecimalString.NilZero.string_of_int (Z.to_int z))
  | JFloat lexeme => lexeme
  | JStr s => quote ensure_ascii s
  | JList l => py "[" ++ join (py ", ") (map (dumps ensure_ascii) l) ++ py "]"
  | JDict d =>
      py "{"
        ++ join (py ", ")
             (map (λ kv, match kv with
                         | (k, x) => quote ensure_ascii k ++ py ": "
                                       ++ dumps ensure_ascii x
                         end) d)
        ++ py "}"
  end.

End JsonDumps.

(** ** services/cache_manager.py *)

Module InMemoryCache.

Record t := mk {
  _data : gmap pystr (Z * pystr);
  _ttl : Z
}.

Definition init (ttl : Z) : t := {| _data := ∅; _ttl := ttl |}.

(** [get]: the value when the entry is younger than the TTL; an entry
    that is not is deleted. *)
Definition get (now : Z) (key : pystr) (s : t) : option pystr * t :=
  match _data s !! key with
  | Some (timestamp, value) =>
      if now - timestamp <? _ttl s then (Some value, s)
      else (None, {| _data := delete key (_data s); _ttl := _ttl s |})
  | None => (None, s)
  end.

(** [setex]: the [ttl] argument is not used; the entry is stamped. *)
Definition setex (now : Z) (key : pystr) (ttl : Z) (value : pystr) (s : t) : t :=
  {| _data := <[key := (now, value)]> (_data s); _ttl := _ttl s |}.

Definition delete (key : pystr) (s : t) : t :=
  {| _data := base.delete key (_data s); _ttl := _ttl s |}.

Definition _cleanup (now : Z) (s : t) : t :=
  {| _data := filter (λ kv : pystr * (Z * pystr), ¬ (_ttl s ≤ now - kv.2.1)) (_data s);
     _ttl := _ttl s |}.

Definition dbsize (now : Z) (s : t) : Z * t :=
  let s := _cleanup now s in (Z.of_nat (size (_data s)), s).

End InMemoryCache.

Module DualCacheManager.

(** A row of the table [analyses] of the durable tier; the two
    timestamp columns, which nothing reads, are left out. *)
Record row := mkRow {
  row_url : pystr;
  row_analysis : pystr;
  row_access_count : Z
}.

Record t := mk {
  _ttl : Z;
  _hot : InMemoryCache.t;
  _cold : gmap pystr row
}.

(** [DualCacheManager.__init__] on an empty database. *)
Definition init (hot_cache_ttl : Z) : t :=
  {| _ttl := hot_cache_ttl; _hot := InMemoryCache.init hot_cache_ttl; _cold := ∅ |}.

Definition slash : N := 47.

(** [url.strip().lower().rstrip("/")]. *)
Definition normalize (url : pystr) : pystr :=
  rstrip_char slash (lower (strip url)).

(** [_hash_url]: the first sixteen hex digits of the digest.  It raises
    what [normalized.encode()] raises, see [hash_raises]; [get], [save]
    and [invalidate] below start with this call, outside their [try]
    blocks, and are written for a URL on which it returns. *)
Definition _hash_url (url : pystr) : pystr :=
  let normalized := normalize url in
  take 16 (Sha256.hexdigest (encode normalized)).

Definition hash_raises (url : pystr) : option exn :=
  encode_error (normalize url).

(** Which of the guarded steps of [get] raise, as the environment
    decides: reading the volatile tier, reading the durable tier,
    writing the value back, counting the access.  A read that raises
    can be the tier or the decoding of what it holds, when [json.loads]
    runs into a limit of the interpreter. *)
Record get_faults := mkGetFaults {
  hot_read_fails : bool;
  cold_read_fails : bool;
  rehydrate_fails : bool;
  touch_fails : bool
}.

Definition no_get_faults : get_faults := mkGetFaults false false false false.

(** [get]: [now] is the reading taken by the volatile tier's [get],
    [now'] the one taken by its [setex]. *)
Definition get (f : get_faults) (now now' : Z) (url : pystr) (s : t) :
    option json * t :=
  let key := _hash_url url in
  let '(hit, s) :=
    if hot_read_fails f then (None, s)
    else
      let '(data, hot) := InMemoryCache.get now key (_hot s) in
      let s := {| _ttl := _ttl s; _hot := hot; _cold := _cold s |} in
      match data with
      | Some (c :: d) => (Json.loads (c :: d), s)
      | _ => (None, s)
      end in
  match hit with
  | Some v => (Some v, s)
  | None =>
      if cold_read_fails f then (None, s)
      else
        match _cold s !! key with
        | None => (None, s)
        | Some r =>
            match Json.loads (row_analysis r) with
            | None => (None, s)
            | Some v =>
                let hot :=
                  if rehydrate_fails f then _hot s
                  else InMemoryCache.setex now' key (_ttl s)
                         (JsonDumps.dumps true v) (_hot s) in
                let cold :=
                  if touch_fails f then _cold s
                  else <[key := {| row_url := row_url r; row_analysis := row_analysis r;
                                   row_access_count := row_access_count r + 1 |}]> (_cold s) in
                (Some v, {| _ttl := _ttl s; _hot := hot; _cold := cold |})
            end
        end
  end.

(** What goes wrong in [save], as the environment decides: what
    [json.dumps] raises, if it does (a value of the result that is not
    serializable, a result nested too deep, an integer with too many
    digits), and which of the two guarded writes raise. *)
Record save_faults := mkSaveFaults {
  dumps_raises : option exn;
  hot_write_fails : bool;
  cold_write_fails : bool
}.

Definition no_save_faults : save_faults := mkSaveFaults None false false.

(** The two statements of [save] that stand outside its [try] blocks:
    what the call raises, if it does. *)
Definition save_raises (f : save_faults) (u : pystr) : option exn :=
  match hash_raises u with
  | Some e => Some e
  | None => dumps_raises f
  end.

(** [save] when those two statements return: both tiers are written;
    the durable write is an upsert. *)
Definition save (f : save_faults) (now : Z) (u : pystr) (v : json) (s : t) : t :=
  let key := _hash_url u in
  let serialized := JsonDumps.dumps false v in
  let hot :=
    if hot_write_fails f then _hot s
    else InMemoryCache.setex now key (_ttl s) serialized (_hot s) in
  let cold :=
    if cold_write_fails f then _cold s
    else
      match _cold s !! key with
      | Some r =>
          <[key := {| row_url := row_url r; row_analysis := serialized;
                      row_access_count := row_access_count r + 1 |}]> (_cold s)
      | None =>
          <[key := {| row_url := u; row_analysis := serialized;
                      row_access_count := 1 |}]> (_cold s)
      end in
  {| _ttl := _ttl s; _hot := hot; _cold := cold |}.

Record invalidate_faults := mkInvalidateFaults {
  hot_delete_fails : bool;
  cold_delete_fails : bool
}.

Definition invalidate (f : invalidate_faults) (u : pystr) (s : t) : t :=
  let key := _hash_url u in
  {| _ttl := _ttl s;
     _hot := if hot_delete_fails f then _hot s else InMemoryCache.delete key (_hot s);
     _cold := if cold_delete_fails f then _cold s else delete key (_cold s) |}.

End DualCacheManager.
(** ** models.py, continued *)

Record ThreadContext := mkThreadContext {
  tc_id : pystr;
  tc_url : pystr;
  tc_title : pystr;
  tc_selftext : pystr;
  tc_author : pystr;
  tc_score : Z;
  tc_serialized_comments : pystr;
  token_count_llama : Z;
  token_count_gemini : Z;
  tc_metadata : list (pystr * json)
}.

Record AnalyzeRequest := mkAnalyzeRequest {
  req_url : pystr;
  force_refresh : bool;
  deep_scan : bool;
  lite_mode : bool
}.

(** [str(uuid.uuid4())] from the sixteen random bytes read as a number:
    the version and variant bits are set, and the 32 hex digits are
    grouped 8-4-4-4-12. *)
Definition uuid4_int (rnd : N) : N :=
  let i := (rnd mod 2 ^ 128)%N in
  let i := N.lor (N.ldiff i (N.shiftl 49152 48)) (N.shiftl 32768 48) in
  N.lor (N.ldiff i (N.shiftl 61440 64)) (N.shiftl 4 76).

Definition hex32 (n : N) : pystr :=
  map (λ i : nat, Sha256.hex_digit (Z.of_N (N.shiftr n (4 * N.of_nat (31 - i))) mod 16))
      (seq 0 32).

Definition uuid4 (rnd : N) : pystr :=
  let h := hex32 (uuid4_int rnd) in
  slice 0 8 h ++ py "-" ++ slice 8 12 h ++ py "-" ++ slice 12 16 h ++ py "-"
    ++ slice 16 20 h ++ py "-" ++ slice 20 32 h.

(** ** The running service

    The service handles of [main.py], the [JobStatus] objects the job
    store refers to, the clock as the readings its successive calls
    return, and a trace of the effects the properties below speak of. *)

Abbreviation loc := nat.

Inductive event :=
| EvRecord (p : provider)                      (* a usage timestamp was recorded *)
| EvCall (p : provider)                        (* the remote call was attempted *)
| EvUpdate (job_id : pystr) (job : JobStatus)  (* [job_store.update], with the
                                                  object as it is then *)
| EvSpawn (job_id url : pystr).                (* the pipeline task was created *)

Record World := mkWorld {
  clock : nat → Z;
  ticks : nat;
  rate_limiter : RateLimitManager.t;
  job_store : JobStore.t loc;
  heap : gmap loc JobStatus;
  cache_manager : DualCacheManager.t;
  log : list event
}.

Definition set_ticks (n : nat) (w : World) : World :=
  mkWorld (clock w) n (rate_limiter w) (job_store w) (heap w) (cache_manager w) (log w).
Definition set_rate_limiter (x : RateLimitManager.t) (w : World) : World :=
  mkWorld (clock w) (ticks w) x (job_store w) (heap w) (cache_manager w) (log w).
Definition set_job_store (x : JobStore.t loc) (w : World) : World :=
  mkWorld (clock w) (ticks w) (rate_limiter w) x (heap w) (cache_manager w) (log w).
Definition set_heap (x : gmap loc JobStatus) (w : World) : World :=
  mkWorld (clock w) (ticks w) (rate_limiter w) (job_store w) x (cache_manager w) (log w).
Definition set_cache_manager (x : DualCacheManager.t) (w : World) : World :=
  mkWorld (clock w) (ticks w) (rate_limiter w) (job_store w) (heap w) x (log w).
Definition emit (e : event) (w : World) : World :=
  mkWorld (clock w) (ticks w) (rate_limiter w) (job_store w) (heap w) (cache_manager w)
          (log w ++ [e]).

(** Computations that read and change the world and may raise. *)
Definition M (A : Type) : Type := World → (exn + A) * World.

Definition ret {A} (a : A) : M A := λ w, (inr a, w).
Definition raise {A} (e : exn) : M A := λ w, (inl e, w).
Definition bind {A B} (c : M A) (k : A → M B) : M B :=
  λ w, match c w with
       | (inr a, w') => k a w'
       | (inl e, w') => (inl e, w')
       end.
(** [try: c except Exception as e: h e]. *)
Definition try_except {A} (c : M A) (h : exn → M A) : M A :=
  λ w, match c w with
       | (inr a, w') => (inr a, w')
       | (inl e, w') => h e w'
       end.
Definition modify (f : World → World) : M unit := λ w, (inr tt, f w).
Definition gets {A} (f : World → A) : M A := λ w, (inr (f w), w).

#[global] Instance M_ret : MRet M := @ret.
#[global] Instance M_bind : MBind M := λ A B k c, bind c k.

(** A result that was computed outside the monad. *)
Definition lift {A} (x : exn + A) : M A :=
  match x with inr a => ret a | inl e => raise e end.

(** [time.time()]: the next reading. *)
Definition time_time : M Z :=
  λ w, (inr (clock w (ticks w)), set_ticks (S (ticks w)) w).

(** The rate limiter as the orchestrator calls it. *)
Definition limiter_can_use (p : provider) : M bool :=
  now ← time_time;
  s ← gets rate_limiter;
  let '(ok, s') := RateLimitManager.can_use p now s in
  modify (set_rate_limiter s');;
  ret ok.

Definition limiter_record_usage (p : provider) : M unit :=
  now ← time_time;
  modify (λ w, set_rate_limiter (RateLimitManager.record_usage p now (rate_limiter w)) w);;
  modify (emit (EvRecord p)).

(** ** services/ai_orchestrator.py: [detect_subreddit_type]

    [models.SubredditType]. *)
Inductive SubredditType := TECH | GAMING | FINANCE | SCIENCE | POLITICS | GENERAL.

(** [b.startswith(a)] and [a in b] for two strings. *)
Fixpoint starts_with (a b : pystr) : bool :=
  match a, b with
  | [], _ => true
  | x :: a', y :: b' => (x =? y)%N && starts_with a' b'
  | _ :: _, [] => false
  end.

Fixpoint occurs_in (a b : pystr) : bool :=
  starts_with a b
  || match b with
     | [] => false
     | _ :: b' => occurs_in a b'
     end.

(** The dict [SUBREDDIT_CATEGORIES], in the order it is written. *)
Definition SUBREDDIT_CATEGORIES : list (SubredditType * list pystr) :=
  [ (TECH,
     [py "programming"; py "technology"; py "webdev"; py "python"; py "javascript";
      py "rust"; py "golang"; py "java"; py "cpp"; py "machinelearning";
      py "datascience"; py "devops"; py "linux"; py "apple"; py "android";
      py "software"; py "coding"; py "learnprogramming"]);
    (GAMING,
     [py "gaming"; py "games"; py "pcgaming"; py "ps5"; py "xbox"; py "nintendo";
      py "steam"; py "valorant"; py "leagueoflegends"; py "minecraft";
      py "fortnite"; py "overwatch"]);
    (FINANCE,
     [py "wallstreetbets"; py "stocks"; py "investing"; py "cryptocurrency";
      py "bitcoin"; py "ethereum"; py "personalfinance";
      py "financialindependence"; py "economics"]);
    (SCIENCE,
     [py "science"; py "askscience"; py "space"; py "physics"; py "biology";
      py "chemistry"; py "astronomy"; py "medicine"; py "neuroscience";
      py "environment"]);
    (POLITICS,
     [py "politics"; py "worldnews"; py "news"; py "uspolitics"; py "geopolitics";
      py "conservative"; py "liberal"; py "democrat"; py "republican"]) ].

(** The category of the first entry of the dict whose list passes [test]. *)
Fixpoint first_category (test : list pystr → bool)
    (categories : list (SubredditType * list pystr)) : option SubredditType :=
  match categories with
  | [] => None
  | (category, subreddits) :: rest =>
      if test subreddits then Some category else first_category test rest
  end.

(** [detect_subreddit_type]: a first pass looks for the name itself, a
    second for a listed name that occurs in it or in which it occurs. *)
Definition detect_subreddit_type (subreddit : pystr) : SubredditType :=
  let subreddit_lower := lower subreddit in
  match first_category (λ subreddits, bool_decide (subreddit_lower ∈ subreddits))
          SUBREDDIT_CATEGORIES with
  | Some category => category
  | None =>
      match first_category
              (existsb (λ sub, occurs_in sub subreddit_lower
                               || occurs_in subreddit_lower sub))
              SUBREDDIT_CATEGORIES with
      | Some category => category
      | None => GENERAL
      end
  end.

(** ** services/ai_orchestrator.py: [AIOrchestrator] *)

(** [type(v).__name__], and the [AttributeError] for an attribute that
    the value does not have. *)
Definition type_name (v : json) : pystr :=
  match v with
  | JNull => py "NoneType"
  | JBool _ => py "bool"
  | JInt _ => py "int"
  | JFloat _ => py "float"
  | JStr _ => py "str"
  | JList _ => py "list"
  | JDict _ => py "dict"
  end.

Definition attribute_error (v : json) (attribute : pystr) : exn :=
  mkExn OtherException
    (py "'" ++ type_name v ++ py "' object has no attribute '" ++ attribute ++ py "'").

(** [d.get(key, default)] on a dict in insertion order. *)
Definition get_default (d : list (pystr * json)) (key : pystr) (default : json) : json :=
  match list_find (λ kv : pystr * json, kv.1 = key) d with
  | Some (_, (_, x)) => x
  | None => default
  end.

Module AIOrchestrator.
Import Recovery.

(** The client of Groq, the configuration of Gemini and the ceiling of
    the settings; with them, the limits of the interpreter in which the
    methods run. *)
Record t := mk {
  _groq_client : bool;          (* the client is not None *)
  _gemini_configured : bool;
  groq_max_tokens : Z;          (* from the settings *)
  interpreter : Json.limits
}.

(** What an invocation does up to the raw text, as the environment
    decides: the prompts are built and the remote call returns the text
    of the response, or one of the two raises. *)
Definition remote := sum exn pystr.

Definition call_remote (p : provider) (api : remote) : M pystr :=
  modify (emit (EvCall p));;
  match api with
  | inr raw_response => ret raw_response
  | inl e => raise e
  end.

Definition _invoke_groq (self : t) (api : remote) : M json :=
  if negb (_groq_client self)
  then raise (mkExn RuntimeError (py "Groq client not initialized"))
  else
    raw_response ← call_remote Groq api;
    lift (_parse_json_response (interpreter self) raw_response).

Definition _invoke_gemini (self : t) (api : remote) : M json :=
  raw_response ← call_remote Gemini api;
  lift (_parse_json_response (interpreter self) raw_response).

(** [analyze]: the kind of the subreddit is worked out first, outside
    any [try]: [detect_subreddit_type] calls [lower] on what the
    metadata hold under [subreddit].  Then Groq when configured, under
    its token ceiling and admitted; Gemini when Groq was not tried or
    raised. *)
Definition analyze (self : t) (context : ThreadContext)
    (groq_api gemini_api : remote) : M json :=
  let subreddit := get_default (tc_metadata context) (py "subreddit") (JStr []) in
  sub_type ←
    match subreddit with
    | JStr name => ret (detect_subreddit_type name)
    | _ => raise (attribute_error subreddit (py "lower"))
    end;
  can_use_groq ←
    (if _groq_client self then
       if token_count_llama context <? groq_max_tokens self
       then limiter_can_use Groq
       else ret false
     else ret false);
  from_groq ←
    (if can_use_groq : bool then
       limiter_record_usage Groq;;
       try_except (v ← _invoke_groq self groq_api; ret (Some v))
                  (λ _, ret None)
     else ret None);
  match from_groq with
  | Some v => ret v
  | None =>
      can_use_gemini ←
        (if _gemini_configured self then limiter_can_use Gemini else ret false);
      if can_use_gemini : bool then
        limiter_record_usage Gemini;;
        try_except (_invoke_gemini self gemini_api)
          (λ e, raise (mkExn RuntimeError
                         (py "All LLMs failed. Last error: " ++ exn_msg e)))
      else
        raise (mkExn RuntimeError
                 (py "No LLM available (rate limits exceeded or not configured)"))
  end.

End AIOrchestrator.

(** ** main.py *)

(** Truth value of a JSON value, as [if x:] tests it.  A float is false
    when its mantissa has no digit other than zero; a literal so small
    that it rounds to zero is outside the model. *)
Fixpoint mantissa (lexeme : pystr) : pystr :=
  match lexeme with
  | c :: r => if ((c =? 101) || (c =? 69))%N then [] else c :: mantissa r
  | [] => []
  end.

Definition float_is_zero (lexeme : pystr) : bool :=
  forallb (λ c, negb (Json.is_digit c) || (c =? 48)%N) (mantissa lexeme)
  && existsb Json.is_digit lexeme.

Definition truthy (v : json) : bool :=
  match v with
  | JNull => false
  | JBool b => b
  | JInt z => negb (z =? 0)
  | JFloat lexeme => negb (float_is_zero lexeme)
  | JStr s => match s with [] => false | _ => true end
  | JList l => match l with [] => false | _ => true end
  | JDict d => match d with [] => false | _ => true end
  end.

(** [d.get(key, default)] on a JSON value: an [AttributeError] when the
    value is not a dict. *)
Definition dict_get (v : json) (key : pystr) (default : json) : exn + json :=
  match v with
  | JDict d => inr (get_default d key default)
  | _ => inl (attribute_error v (py "get"))
  end.

Module Main.
Import Re.

Definition in_range (a b c : N) : bool := ((a <=? c) && (c <=? b))%N.
(** The classes [A-Za-z0-9_] and [A-Za-z0-9]. *)
Definition alnum : re :=
  Chr (λ c, in_range 65 90 c || in_range 97 122 c || in_range 48 57 c).
Definition word : re :=
  Chr (λ c, in_range 65 90 c || in_range 97 122 c || in_range 48 57 c || (c =? 95)%N).

Definition scheme : re := lit (py "http") ⋅ opt (chr 115) ⋅ lit (py "://").

Definition REDDIT_URL_PATTERNS : list re :=
  [ scheme ⋅ opt (lit (py "www.")) ⋅ lit (py "reddit.com/r/") ⋅ plus word
      ⋅ lit (py "/comments/") ⋅ plus alnum;
    scheme ⋅ lit (py "redd.it/") ⋅ plus alnum;
    scheme ⋅ lit (py "old.reddit.com/r/") ⋅ plus word
      ⋅ lit (py "/comments/") ⋅ plus alnum;
    scheme ⋅ opt (lit (py "www.")) ⋅ lit (py "reddit.com/r/") ⋅ plus word
      ⋅ lit (py "/s/") ⋅ plus alnum ].

Definition validate_reddit_url (url : pystr) : bool :=
  existsb (λ pattern, bool_decide (is_Some (search pattern url))) REDDIT_URL_PATTERNS.

(** The id of the descriptor returned on a cache hit. *)
Definition cache_sentinel : pystr := py "cache".

(** [datetime.utcnow()], read off the same clock. *)
Definition utcnow : M Z := time_time.

(** [cache_manager.get]: it raises what [_hash_url] raises; two clock
    readings are set aside for it, one for the read of the volatile tier
    and one for the write-back. *)
Definition cache_get (f : DualCacheManager.get_faults) (url : pystr) : M (option json) :=
  match DualCacheManager.hash_raises url with
  | Some e => raise e
  | None =>
      now ← time_time;
      now' ← time_time;
      c ← gets cache_manager;
      let '(r, c') := DualCacheManager.get f now now' url c in
      modify (set_cache_manager c');;
      ret r
  end.

(** [cache_manager.save]: it raises what its first two statements
    raise, before anything is written. *)
Definition cache_save (f : DualCacheManager.save_faults) (url : pystr) (v : json) : M unit :=
  match DualCacheManager.save_raises f url with
  | Some e => raise e
  | None =>
      now ← time_time;
      modify (λ w, set_cache_manager (DualCacheManager.save f now url v (cache_manager w)) w)
  end.

(** A new [JobStatus] object. *)
Definition new_job (j : JobStatus) : M loc :=
  h ← gets heap;
  let l := fresh (dom h) in
  modify (set_heap (<[l := j]> h));;
  ret l.

Definition job_store_add (job_id : pystr) (l : loc) : M unit :=
  now ← time_time;
  now' ← time_time;
  modify (λ w, set_job_store (JobStore.add now now' job_id l (job_store w)) w).

(** [job_store.update(job_id, job)]: the store keeps the reference;
    the trace keeps the object as it is at this point. *)
Definition job_store_update (job_id : pystr) (l : loc) : M bool :=
  s ← gets job_store;
  let '(ok, s') := JobStore.update job_id l s in
  modify (set_job_store s');;
  h ← gets heap;
  match h !! l with
  | Some j => modify (emit (EvUpdate job_id j))
  | None => ret tt
  end;;
  ret ok.

(** [submit_analysis]: [rnd] is the random number behind the new id. *)
Definition submit_analysis (f : DualCacheManager.get_faults) (rnd : N)
    (request : AnalyzeRequest) : M JobStatus :=
  if negb (validate_reddit_url (req_url request)) then
    raise (mkExn (HTTPException 400)
             (py "Invalid Reddit URL. Please provide a valid Reddit thread URL."))
  else
    cached ← (if negb (force_refresh request)
              then cache_get f (req_url request) else ret None);
    match cached with
    | Some (JDict (kv :: d)) =>
        now ← utcnow;
        ret (mkJobStatus cache_sentinel completed 100 (Some (JDict (kv :: d))) None now)
    | _ =>
        match cached with
        | Some v =>
            if truthy v then
              raise (mkExn ValueError (py "result: Input should be a valid dictionary"))
            else ret tt
        | None => ret tt
        end;;
        let job_id := uuid4 rnd in
        now ← utcnow;
        let job_status := mkJobStatus job_id queued 0 None None now in
        l ← new_job job_status;
        job_store_add job_id l;;
        modify (emit (EvSpawn job_id (req_url request)));;
        ret job_status
    end.

(** [get_job_status]. *)
Definition get_job_status (job_id : pystr) : M JobStatus :=
  s ← gets job_store;
  h ← gets heap;
  match JobStore.get job_id s ≫= (h !!.) with
  | Some job => ret job
  | None => raise (mkExn (HTTPException 404) (py "Job not found"))
  end.

(** [job_store.stats()], as the health and stats endpoints call it. *)
Definition job_store_stats : M JobStore.counts :=
  now ← time_time;
  s ← gets job_store;
  h ← gets heap;
  let '(c, s') := JobStore.stats (λ l, default failed (status <$> h !! l)) now s in
  modify (set_job_store s');;
  ret c.

(** What the collaborators of one pipeline run do, as the environment
    decides: the extractor, the two remote calls, the enricher, the
    construction and dump of the [AnalysisResult] from the context, the
    raw analysis and the links, and the writes of the cache. *)
Record outcomes := mkOutcomes {
  extraction : exn + ThreadContext;
  groq_api : AIOrchestrator.remote;
  gemini_api : AIOrchestrator.remote;
  enrichment : exn + json;
  build_result : ThreadContext → json → json → exn + json;
  save_faults : DualCacheManager.save_faults
}.

(** Assignments to the fields of the job object. *)
Definition set_job (l : loc) (f : JobStatus → JobStatus) : M unit :=
  modify (λ w, set_heap (alter f l (heap w)) w).
Definition with_status (x : Status) (j : JobStatus) : JobStatus :=
  mkJobStatus (job_id j) x (progress j) (result j) (error j) (created_at j).
Definition with_progress (x : Z) (j : JobStatus) : JobStatus :=
  mkJobStatus (job_id j) (status j) x (result j) (error j) (created_at j).
Definition with_result (x : option json) (j : JobStatus) : JobStatus :=
  mkJobStatus (job_id j) (status j) (progress j) x (error j) (created_at j).
Definition with_error (x : option pystr) (j : JobStatus) : JobStatus :=
  mkJobStatus (job_id j) (status j) (progress j) (result j) x (created_at j).

(** The [try] block of [process_analysis_pipeline]. *)
Definition pipeline_body (orch : AIOrchestrator.t) (job_id url : pystr) (l : loc)
    (o : outcomes) : M unit :=
  set_job l (with_status processing);;
  set_job l (with_progress 10);;
  job_store_update job_id l;;
  context ← lift (extraction o);
  set_job l (with_progress 35);;
  job_store_update job_id l;;
  llm_raw ← AIOrchestrator.analyze orch context (groq_api o) (gemini_api o);
  set_job l (with_progress 70);;
  job_store_update job_id l;;
  raw_links ← lift (dict_get llm_raw (py "useful_links") (JList []));
  enriched_links ←
    (if truthy raw_links
     then try_except (lift (enrichment o)) (λ _, ret raw_links)
     else ret (JList []));
  set_job l (with_progress 85);;
  job_store_update job_id l;;
  result ← lift (build_result o context llm_raw enriched_links);
  set_job l (with_progress 95);;
  job_store_update job_id l;;
  cache_save (save_faults o) url result;;
  set_job l (with_result (Some result));;
  set_job l (with_status completed);;
  set_job l (with_progress 100);;
  job_store_update job_id l;;
  ret tt.

(** The three handlers. *)
Definition pipeline_failed (job_id : pystr) (l : loc) (e : exn) : M unit :=
  set_job l (with_status failed);;
  set_job l (with_error
               (Some (match exn_cls e with
                      | ValueError | RuntimeError => take 200 (exn_msg e)
                      | _ => py "Unexpected error: " ++ take 180 (exn_msg e)
                      end)));;
  job_store_update job_id l;;
  ret tt.

Definition process_analysis_pipeline (orch : AIOrchestrator.t) (job_id url : pystr)
    (o : outcomes) : M unit :=
  s ← gets job_store;
  match JobStore.get job_id s with
  | None => ret tt
  | Some l => try_except (pipeline_body orch job_id url l o) (pipeline_failed job_id l)
  end.

(** The service at start-up: [lifespan] before it yields. *)
Definition startup (job_ttl_seconds groq_rpm_limit gemini_rpm_limit hot_cache_ttl : Z)
    (cold : gmap pystr DualCacheManager.row) (clk : nat → Z) : World :=
  {| clock := clk; ticks := 0;
     rate_limiter := RateLimitManager.init groq_rpm_limit gemini_rpm_limit;
     job_store := JobStore.init None job_ttl_seconds;
     heap := ∅;
     cache_manager :=
       DualCacheManager.mk hot_cache_ttl (InMemoryCache.init hot_cache_ttl) cold;
     log := [] |}.

(** [job_store.cleanup()], as [lifespan] calls it at shutdown. *)
Definition job_store_cleanup : M Z :=
  now ← time_time;
  s ← gets job_store;
  let '(n, s') := JobStore.cleanup now s in
  modify (set_job_store s');;
  ret n.

(** What happens to the running service: a submission, a whole
    pipeline run, one [job_store.update] of a pipeline that is under
    way, a status poll, a statistics request, the sweep at shutdown. *)
Inductive action :=
| Submit (f : DualCacheManager.get_faults) (rnd : N) (request : AnalyzeRequest)
| RunPipeline (orch : AIOrchestrator.t) (job_id url : pystr) (o : outcomes)
| UpdateJob (job_id : pystr) (l : loc)
| PollStatus (job_id : pystr)
| Stats
| Shutdown.

Definition perform (w : World) (a : action) : World :=
  match a with
  | Submit f rnd request => (submit_analysis f rnd request w).2
  | RunPipeline orch job_id url o => (process_analysis_pipeline orch job_id url o w).2
  | UpdateJob job_id l => (job_store_update job_id l w).2
  | PollStatus job_id => (get_job_status job_id w).2
  | Stats => (job_store_stats w).2
  | Shutdown => (job_store_cleanup w).2
  end.

Definition run_actions (acts : list action) (w : World) : World :=
  foldl perform w acts.

End Main.

(** ** Vocabulary of the properties *)

(** The outcome of a computation satisfies [Q]. *)
Definition wp {A} (c : M A) (Q : exn + A → World → Prop) (w : World) : Prop :=
  Q (c w).1 (c w).2.

(** The snapshots that [job_store.update] left in a trace. *)
Definition updates_of (evs : list event) : list JobStatus :=
  omap (λ e, match e with EvUpdate _ j => Some j | _ => None end) evs.

(** The part of the world one pipeline run works on: the job object at
    [l], reachable under [job_id], and the updates traced since [w0]. *)
Definition at_job (w0 : World) (job_id : pystr) (l : loc)
    (j : JobStatus) (tr : list JobStatus) (w : World) : Prop :=
  heap w !! l = Some j
  ∧ JobStore.get job_id (job_store w) = Some l
  ∧ ∃ evs, log w = log w0 ++ evs ∧ updates_of evs = tr.

(** The result is there exactly when the job is completed, the error
    exactly when it has failed. *)
Definition record_ok (j : JobStatus) : Prop :=
  (result j ≠ None ↔ status j = completed)
  ∧ (error j ≠ None ↔ status j = failed).

(** What the poller of a job can have seen, in order: progress never
    goes down and every state is consistent. *)
Definition good_trace (trace : list JobStatus) : Prop :=
  StronglySorted Z.le (progress <$> trace) ∧ Forall record_ok trace.

Definition finished (w0 : World) (job_id : pystr) (l : loc) (j0 : JobStatus)
    (r : exn + ()) (w' : World) : Prop :=
  r = inr tt
  ∧ ∃ j tr, at_job w0 job_id l j tr w'
            ∧ good_trace (j0 :: tr) ∧ last (j0 :: tr) = Some j.

(** The job store has no record under [k]. *)
Definition untracked (k : pystr) (w : World) : Prop :=
  JobStore.get k (job_store w) = None.

Definition keeps (k : pystr) {A} (c : M A) : Prop :=
  ∀ w, untracked k w → untracked k (c w).2.

(** Every code point lies in the Latin-1 range. *)
Definition latin1 (s : pystr) : Prop := Forall (λ c, (c < 256)%N) s.

(** A code point that [lower] leaves as it is, whatever stands around
    it; the code points of a range of the table; and the check that
    the table sends each of them to a code point that stays. *)
Definition stable (c : N) : bool :=
  negb (c =? 931)%N && negb (c =? 304)%N
  && match find (in_lower_range c) lower_ranges with
     | None => true
     | Some _ => false
     end.

Definition range_points (r : N * N * N * Z) : list N :=
  let '(lo, hi, step, _) := r in
  map (λ k, (lo + N.of_nat k * step)%N) (seq 0 (S (N.to_nat ((hi - lo) / step)))).

Definition range_ok (r : N * N * N * Z) : bool :=
  (0 <? r.1.2)%N
  && forallb (λ c, stable (Z.to_N (Z.of_N c + r.2))) (range_points r).


(** What a scanner of the decoder leaves is no longer than what it was
    given, and fuel of twice the length plus [slack] is enough for it. *)
Definition scans_within {A} (f : nat → nat → pystr → Json.res A) (slack n : nat) : Prop :=
  ∀ depth s, (∀ v r, f n depth s = Json.Ok v r → (length r ≤ length s)%nat)
             ∧ ((2 * length s + slack ≤ n)%nat → f n depth s ≠ Json.OutOfFuel).

(** A scanner runs into no limit on a text that is no longer than the
    depth it is allowed. *)
Definition scans_unlimited {A} (f : nat → nat → pystr → Json.res A) (n : nat) : Prop :=
  ∀ depth s e, (length s ≤ depth)%nat → f n depth s ≠ Json.Limit e.

(** What an invocation comes to: what the call raised, or what the
    recovery cascade makes of the text it returned. *)
Definition invocation (lim : Json.limits) (api : AIOrchestrator.remote) : exn + json :=
  match api with
  | inl e => inl e
  | inr raw_response => Recovery._parse_json_response lim raw_response
  end.

(** What [analyze] reads as the subreddit of the context. *)
Definition subreddit_of (context : ThreadContext) : json :=
  get_default (tc_metadata context) (py "subreddit") (JStr []).


(** What stops a run of a class in a pattern: the end of the input or
    a character outside the class. *)
Definition stops (p : N → bool) (rest : pystr) : Prop :=
  match rest with [] => True | c :: _ => p c = false end.

Definition brace_free (s : pystr) : Prop :=
  Forall (λ c, Recovery.not_brace c = true) s.

(** Text nested one level deep: each group is a brace pair around
    brace-free text, followed by brace-free text. *)
Definition groups_text (gs : list (pystr * pystr)) : pystr :=
  gs ≫= λ gc, [Recovery.lbrace] ++ gc.1 ++ [Recovery.rbrace] ++ gc.2.

Definition groups_ok (gs : list (pystr * pystr)) : Prop :=
  Forall (λ gc, brace_free gc.1 ∧ brace_free gc.2) gs.

(** An object whose text is nested at most one level deep. *)
Definition one_level (c0 : pystr) (gs : list (pystr * pystr)) : pystr :=
  [Recovery.lbrace] ++ c0 ++ groups_text gs ++ [Recovery.rbrace].

(** The repeated part of the brace pattern. *)
Definition inner_group : Re.re :=
  Re.chr Recovery.lbrace ⋅ Re.Star true (Re.Chr Recovery.not_brace)
    ⋅ Re.chr Recovery.rbrace ⋅ Re.Star true (Re.Chr Recovery.not_brace).

(** A response that is a fenced block: three backticks, the tag or
    not, whitespace, the body, whitespace, three backticks. *)
Definition fenced (tag : bool) (ws1 ws2 body : pystr) : pystr :=
  py "```" ++ (if tag then py "json" else []) ++ ws1 ++ body ++ ws2 ++ py "```".

Definition spaces (s : pystr) : Prop := Forall (λ c, Re.is_space c = true) s.
Definition tick_free (s : pystr) : Prop := Forall (λ c, c ≠ Recovery.backtick) s.

(** Whitespace and three backticks, as the end of a fenced block reads;
    and a text in which no closing brace is followed by them. *)
Definition closes_fence (s : pystr) : bool := starts_with (py "```") (lstrip s).

Fixpoint fence_free (s : pystr) : bool :=
  match s with
  | [] => true
  | c :: r => negb ((c =? Recovery.rbrace)%N && closes_fence r) && fence_free r
  end.


(** Sample inputs.  The limits are those of CPython 3.11 as it starts,
    with some of the recursion limit of 1000 taken by the callers. *)
Definition lim_demo : Json.limits := Json.mkLimits 900 4300.
Definition w_demo : World :=
  Main.startup 3600 150 8 86400 ∅ (λ n, Z.of_nat n).
Definition ctx_demo : ThreadContext :=
  mkThreadContext (py "abc123") (py "https://redd.it/abc123") (py "title") []
    (py "author") 1 [] 100 100 [].
Definition R_demo : json :=
  JDict [(py "summary_post", JStr (py "ok")); (py "useful_links", JList [])].
Definition s_cold_only : DualCacheManager.t :=
  DualCacheManager.mk 86400 (InMemoryCache.init 86400)
    {[ DualCacheManager._hash_url (py "https://redd.it/abc") :=
         DualCacheManager.mkRow (py "https://redd.it/abc") (py "{}") 1 ]}.
Definition demo_request : AnalyzeRequest :=
  mkAnalyzeRequest (py "https://redd.it/abc123") false false false.
Definition demo_actions : list Main.action :=
  [Main.Submit DualCacheManager.no_get_faults 77 demo_request;
   Main.RunPipeline (AIOrchestrator.mk true true 120000 lim_demo) (uuid4 77)
     (py "https://redd.it/abc123")
     (Main.mkOutcomes (inr ctx_demo) (inr (py "{}")) (inr (py "{}")) (inr (JList []))
        (λ _ _ _, inr R_demo) DualCacheManager.no_save_faults)].

(** Sample responses. [quoted s] is [s] between quotation marks. *)
Definition quoted (s : string) : pystr := [34%N] ++ py s ++ [34%N].
Definition shallow_c0 : pystr := quoted "a" ++ py ": ".
Definition shallow_gs : list (pystr * pystr) := [(quoted "b" ++ py ": 1", [])].
Definition shallow_value : json := JDict [(py "a", JDict [(py "b", JInt 1)])].
Definition deep_text (tail : pystr) : pystr :=
  py "{" ++ quoted "a" ++ py ": {" ++ quoted "b" ++ py ": {" ++ quoted "c"
    ++ py ": 1}}" ++ tail.
Definition deep_value : json :=
  JDict [(py "a", JDict [(py "b", JDict [(py "c", JInt 1)])])].
Definition bracket_text (tail : pystr) : pystr :=
  py "{" ++ quoted "a" ++ py ": " ++ quoted "x,]" ++ tail.

(** ** Sequences of calls on the job store

    The calls a client of the job store can make, each with the clock
    readings it takes. *)
Inductive job_op (V : Type) :=
| JAdd (now now' : Z) (job_id : pystr) (st : V)
| JUpdate (job_id : pystr) (st : V)
| JRemove (job_id : pystr)
| JCleanup (now : Z)
| JStats (now : Z)
| JClear.
Arguments JAdd {V} now now' job_id st.
Arguments JUpdate {V} job_id st.
Arguments JRemove {V} job_id.
Arguments JCleanup {V} now.
Arguments JStats {V} now.
Arguments JClear {V}.

Definition job_step {V} (status_of : V → Status) (s : JobStore.t V) (o : job_op V) :
    JobStore.t V :=
  match o with
  | JAdd now now' job_id st => JobStore.add now now' job_id st s
  | JUpdate job_id st => (JobStore.update job_id st s).2
  | JRemove job_id => (JobStore.remove job_id s).2
  | JCleanup now => (JobStore.cleanup now s).2
  | JStats now => (JobStore.stats status_of now s).2
  | JClear => (JobStore.clear s).2
  end.

Definition job_run {V} (status_of : V → Status) (ops : list (job_op V))
    (s : JobStore.t V) : JobStore.t V :=
  foldl (job_step status_of) s ops.

(** The two dicts of the store hold the same ids. *)
Definition in_sync {V} (s : JobStore.t V) : Prop :=
  ∀ k, is_Some (JobStore._jobs s !! k) ↔ is_Some (JobStore._created_at s !! k).

(** ** The rate limiter as its callers use it

    The protocol of the class docstring and of [analyze]: a call is
    recorded only after an admission check that said yes.  [Acquire] is
    the check at [now] followed, when it admits, by the record at
    [now']; [Probe] is a check alone, [Report] a [get_stats] call.  The
    second component of the state lists the calls that were recorded. *)
Inductive guarded_op :=
| Acquire (p : provider) (now now' : Z)
| Probe (p : provider) (now : Z)
| Report (now now' : Z).

Definition guarded_step (st : RateLimitManager.t * list (provider * Z))
    (o : guarded_op) : RateLimitManager.t * list (provider * Z) :=
  let '(s, calls) := st in
  match o with
  | Acquire p now now' =>
      let '(ok, s') := RateLimitManager.can_use p now s in
      if ok then (RateLimitManager.record_usage p now' s', calls ++ [(p, now')])
      else (s', calls)
  | Probe p now => ((RateLimitManager.can_use p now s).2, calls)
  | Report now now' => ((RateLimitManager.get_stats now now' s).2, calls)
  end.

Definition guarded_run (ops : list guarded_op)
    (st : RateLimitManager.t * list (provider * Z)) :
    RateLimitManager.t * list (provider * Z) :=
  foldl guarded_step st ops.

Definition guarded_readings (o : guarded_op) : list Z :=
  match o with
  | Acquire _ now now' | Report now now' => [now; now']
  | Probe _ now => [now]
  end.

Definition same_provider (p q : provider) : bool :=
  match p, q with
  | Groq, Groq | Gemini, Gemini => true
  | _, _ => false
  end.

(** The readings of the recorded calls of one provider. *)
Definition calls_of (p : provider) (calls : list (provider * Z)) : list Z :=
  omap (λ c : provider * Z, if same_provider c.1 p then Some c.2 else None) calls.

(** What the limiter keeps for one provider while the protocol is
    followed under a clock that has reached [ub]: the recorded calls
    are in order, the window holds the latest of them, and the ones it
    no longer holds are more than sixty seconds old. *)
Definition window_tracks (p : provider) (ub : Z)
    (st : RateLimitManager.t * list (provider * Z)) : Prop :=
  StronglySorted Z.le (calls_of p st.2)
  ∧ Forall (λ x, x ≤ ub) (calls_of p st.2)
  ∧ ∃ old, calls_of p st.2 = old ++ RateLimitManager.history p st.1
           ∧ Forall (λ x, x < ub - 60) old.

(** The settings of the limiter, which no call changes. *)
Definition same_settings (p : provider) (limit : Z)
    (st : RateLimitManager.t * list (provider * Z)) : Prop :=
  RateLimitManager._window_seconds st.1 = 60
  ∧ RateLimitManager.limit_rpm p st.1 = limit.

(** [wait_for_groq] and [wait_for_gemini]: the loop polls until the
    limiter admits or [timeout] seconds have gone by on the clock.
    [asyncio.sleep] reads no clock: the time it takes shows in the next
    reading.  [fuel] bounds the number of rounds, and the result is
    [None] when it runs out. *)
Fixpoint wait_loop (p : provider) (timeout start : Z) (fuel : nat) : M (option bool) :=
  match fuel with
  | O => ret None
  | S n =>
      now ← time_time;
      if now - start <? timeout then
        ok ← limiter_can_use p;
        if ok : bool then ret (Some true) else wait_loop p timeout start n
      else ret (Some false)
  end.

Definition wait_for (p : provider) (timeout : Z) (fuel : nat) : M (option bool) :=
  start ← time_time;
  wait_loop p timeout start fuel.

(** The two messages that [analyze] raises with. *)
Definition no_llm_message : pystr :=
  py "No LLM available (rate limits exceeded or not configured)".
Definition all_failed_message (last : exn) : pystr :=
  py "All LLMs failed. Last error: " ++ exn_msg last.

(** Every name that the dict lists. *)
Definition listed_subreddits : list pystr :=
  SUBREDDIT_CATEGORIES ≫= snd.

(** The colon, and the detail of the answer to a URL that is not
    accepted. *)
Definition colon : N := 58.
Definition invalid_url_detail : pystr :=
  py "Invalid Reddit URL. Please provide a valid Reddit thread URL.".

(** The character class [A-Za-z0-9]. *)
Definition is_alnum (c : N) : bool :=
  Main.in_range 65 90 c || Main.in_range 97 122 c || Main.in_range 48 57 c.

(** The character class [A-Za-z0-9_]. *)
Definition is_word (c : N) : bool :=
  Main.in_range 65 90 c || Main.in_range 97 122 c || Main.in_range 48 57 c
  || (c =? 95)%N.

(** A thread URL as Reddit writes it, inside any text. *)
Definition thread_url (secure : bool) (host subreddit id : pystr) : pystr :=
  py "http" ++ (if secure then py "s" else []) ++ py "://" ++ host
    ++ py "reddit.com/r/" ++ subreddit ++ py "/comments/" ++ id.

(** ** services/reddit_miner.py: [_extract_urls]

    [re.findall] for a pattern without group that matches no empty
    text: the matches that do not overlap, left to right. *)
Fixpoint findall_from (n : nat) (r : Re.re) (s : pystr) : list pystr :=
  match n with
  | O => []
  | S n =>
      match Re.match_here r s with
      | Some (c :: whole, _, rest) => (c :: whole) :: findall_from n r rest
      | _ =>
          match s with
          | [] => []
          | _ :: s' => findall_from n r s'
          end
      end
  end.

Definition findall (r : Re.re) (s : pystr) : list pystr :=
  findall_from (length s) r s.

(** [s.rstrip(chars)]. *)
Fixpoint rstrip_chars (p : N → bool) (s : pystr) : pystr :=
  match s with
  | [] => []
  | c :: s' =>
      match rstrip_chars p s' with
      | [] => if p c then [] else [c]
      | r => c :: r
      end
  end.

(** The class of the URL pattern: no whitespace and none of
    [<], [>], the two quotes, []] and [)]. *)
Definition url_char (c : N) : bool :=
  negb (Re.is_space c
        || (c =? 60) || (c =? 62) || (c =? 34) || (c =? 39) || (c =? 93)
        || (c =? 41))%N.

Definition url_pattern : Re.re :=
  Re.lit (py "http") ⋅ Re.opt (Re.chr 115) ⋅ Re.lit (py "://")
    ⋅ Re.plus (Re.Chr url_char).

(** The punctuation stripped from the end of a match: [.,;:!?)>]}]
    and the two quotes. *)
Definition trailing_punctuation (c : N) : bool :=
  ((c =? 46) || (c =? 44) || (c =? 59) || (c =? 58) || (c =? 33) || (c =? 63)
   || (c =? 41) || (c =? 62) || (c =? 93) || (c =? 125) || (c =? 39)
   || (c =? 34))%N.

(** [_extract_urls]: what [list(set(...))] returns is kept as the set,
    the order of the list is not specified. *)
Definition _extract_urls (text : pystr) : gset pystr :=
  list_to_set (rstrip_chars trailing_punctuation <$> findall url_pattern text).

(** A URL as the pattern reads it: the scheme, then [body]. *)
Definition url_of (secure : bool) (body : pystr) : pystr :=
  py "http" ++ (if secure then py "s" else []) ++ py "://" ++ body.

(** The text ends where a URL can start: it is empty or its last
    character is outside the class of the pattern. *)
Definition breaks (pre : pystr) : Prop :=
  pre = [] ∨ ∃ p z, pre = p ++ [z] ∧ url_char z = false.

(** ** How a pipeline run ends

    The text that a failed run leaves as the error of the job: the
    message of the exception, cut to 200 characters for a [ValueError]
    and a [RuntimeError], cut to 180 and prefixed for any other. *)
Definition error_text (e : exn) : pystr :=
  match exn_cls e with
  | ValueError | RuntimeError => take 200 (exn_msg e)
  | _ => py "Unexpected error: " ++ take 180 (exn_msg e)
  end.

(** The links that go into the result: none when the analysis names
    none, else the enriched ones, or the raw ones when the enrichment
    raised. *)
Definition links_for (raw_links : json) (enrichment : exn + json) : json :=
  if truthy raw_links
  then match enrichment with inr v => v | inl _ => raw_links end
  else JList [].

(** The job object as a run that failed at progress [stage] leaves it,
    and as a run that went through leaves it. *)
Definition failed_job (j0 : JobStatus) (stage : Z) (e : exn) : JobStatus :=
  mkJobStatus (job_id j0) failed stage (result j0) (Some (error_text e)) (created_at j0).
Definition completed_job (j0 : JobStatus) (res : json) : JobStatus :=
  mkJobStatus (job_id j0) completed 100 (Some res) (error j0) (created_at j0).

(** What can make a run fail, and the progress at which it does. *)
Definition analysis_gives (orch : AIOrchestrator.t) (o : Main.outcomes)
    (r : exn + json) : Prop :=
  ∃ ctx w1, Main.extraction o = inr ctx
    ∧ (AIOrchestrator.analyze orch ctx (Main.groq_api o) (Main.gemini_api o) w1).1 = r.

Definition failure_at (orch : AIOrchestrator.t) (url : pystr) (o : Main.outcomes)
    (stage : Z) (e : exn) : Prop :=
  (stage = 10 ∧ Main.extraction o = inl e)
  ∨ (stage = 35 ∧ analysis_gives orch o (inl e)
     ∧ (exn_cls e = RuntimeError
        ∨ ∃ ctx, Main.extraction o = inr ctx
                 ∧ (∀ name, subreddit_of ctx ≠ JStr name)
                 ∧ e = attribute_error (subreddit_of ctx) (py "lower")))
  ∨ (stage = 70
     ∧ ∃ llm_raw, analysis_gives orch o (inr llm_raw)
                  ∧ (∀ d, llm_raw ≠ JDict d)
                  ∧ e = attribute_error llm_raw (py "get"))
  ∨ (stage = 85 ∧ ∃ ctx llm_raw links, Main.build_result o ctx llm_raw links = inl e)
  ∨ (stage = 95 ∧ DualCacheManager.save_raises (Main.save_faults o) url = Some e).

Definition run_ended (orch : AIOrchestrator.t) (w : World) (l : loc)
    (j0 : JobStatus) (url : pystr) (o : Main.outcomes) (w' : World) : Prop :=
  (∃ stage e, heap w' !! l = Some (failed_job j0 stage e)
              ∧ failure_at orch url o stage e
              ∧ cache_manager w' = cache_manager w)
  ∨ (∃ ctx llm_raw raw_links res n,
       heap w' !! l = Some (completed_job j0 res)
       ∧ Main.extraction o = inr ctx
       ∧ analysis_gives orch o (inr llm_raw)
       ∧ dict_get llm_raw (py "useful_links") (JList []) = inr raw_links
       ∧ Main.build_result o ctx llm_raw (links_for raw_links (Main.enrichment o))
         = inr res
       ∧ cache_manager w'
         = DualCacheManager.save (Main.save_faults o) (clock w n) url res
             (cache_manager w)).

(** The part of the world a run works on, with the cache as well. *)
Definition on_job (clk : nat → Z) (job_id : pystr) (l : loc)
    (c : DualCacheManager.t) (j : JobStatus) (w : World) : Prop :=
  heap w !! l = Some j
  ∧ JobStore.get job_id (job_store w) = Some l
  ∧ cache_manager w = c
  ∧ clock w = clk.

(** * Properties *)

Section JobStoreFacts.
Import JobStore.

Lemma foldl_delete_lookup {V} (ks : list pystr) (m : gmap pystr V) k :
  foldl (λ m j, delete j m) m ks !! k = if decide (k ∈ ks) then None else m !! k.
Proof.
  revert m. induction ks as [|j ks IH]; intros m; cbn [foldl].
  - case_decide as H; [by apply elem_of_nil in H | done].
  - rewrite IH, lookup_delete.
    destruct (decide (k ∈ ks)) as [Hin|Hnin].
    + rewrite decide_True; [done|]. by apply list_elem_of_further.
    + destruct (decide (j = k)) as [->|Hne].
      * rewrite decide_True; [done|]. apply list_elem_of_here.
      * rewrite decide_False; [done|].
        intros [?|?]%elem_of_cons; done.
Qed.

Lemma elem_of_expired {V} now (s : t V) k :
  k ∈ expired now s ↔ is_expired now k s.
Proof.
  unfold expired, is_expired. rewrite list_elem_of_fmap. split.
  - intros [[k' c] [-> Hin]]. apply list_elem_of_filter in Hin as [Hlt Hin].
    apply elem_of_map_to_list in Hin. eauto.
  - intros (c & Hc & Hlt). exists (k, c). split; [done|].
    apply list_elem_of_filter. split; [done|]. by apply elem_of_map_to_list.
Qed.

Lemma get_cleanup {V} now (s : t V) k :
  get k (cleanup now s).2
  = if decide (k ∈ expired now s) then None else get k s.
Proof. unfold get, cleanup. simpl. apply foldl_delete_lookup. Qed.

(** C1, as the code has it: [get] is a plain lookup and sweeps
    nothing.  A record whose creation time is older than the TTL at
    [now] is not found once a sweep has run at [now], be it [cleanup]
    itself, the one [add] runs before it inserts another id, or the one
    [stats] runs before it counts. *)
Theorem expired_not_found_after_sweep {V} now job_id (s : t V) :
  is_expired now job_id s →
  get job_id (cleanup now s).2 = None
  ∧ (∀ now' other st, other ≠ job_id →
       get job_id (add now now' other st s) = None)
  ∧ (∀ status_of, get job_id (stats status_of now s).2 = None).
Proof.
  intros Hex. apply elem_of_expired in Hex.
  assert (get job_id (cleanup now s).2 = None) as Hc.
  { rewrite get_cleanup. by rewrite decide_True. }
  split; [done|]. split.
  - intros now' other st Hne. unfold add, get. simpl.
    rewrite lookup_insert_ne by done. apply Hc.
  - intros status_of. apply Hc.
Qed.

Lemma expired_not_found_after_sweep_witness :
  get (py "job-1")
    (cleanup 5000
       (add 0 0 (py "job-1") queued (init (Some 3600) 3600))).2 = None.
Proof.
  refine (proj1 (expired_not_found_after_sweep 5000 (py "job-1")
           (add 0 0 (py "job-1") queued (init (Some 3600) 3600)) _)).
  exists 0. split; vm_compute; reflexivity.
Defined.

(** C1 as stated fails: a job added at reading 0 under a TTL of 3600
    is sweep-eligible at reading 5000, and [get], which reads no clock
    and sweeps nothing, still returns it. *)
Lemma expired_still_found :
  let s := add 0 0 (py "job-1") queued (init (Some 3600) 3600) in
  is_expired 5000 (py "job-1") s ∧ get (py "job-1") s = Some queued.
Proof.
  split.
  - exists 0. split; vm_compute; reflexivity.
  - vm_compute; reflexivity.
Qed.

End JobStoreFacts.

Section RateLimitFacts.
Import RateLimitManager.

Lemma popleft_while_suffix cutoff h :
  ∃ old, h = old ++ popleft_while cutoff h ∧ Forall (λ x, x < cutoff) old.
Proof.
  induction h as [|x h (old & Heq & Hold)]; simpl.
  - by exists [].
  - destruct (Z.ltb_spec x cutoff).
    + exists (x :: old). split; [by rewrite <- app_comm_cons, <- Heq|].
      by constructor.
    + by exists [].
Qed.

Lemma popleft_while_head cutoff h :
  match popleft_while cutoff h with
  | [] => True
  | x :: _ => cutoff ≤ x
  end.
Proof.
  induction h as [|x h IH]; simpl; [done|].
  destruct (Z.ltb_spec x cutoff); [done | lia].
Qed.

Lemma popleft_while_all_old cutoff h :
  Forall (λ x, x < cutoff) h → popleft_while cutoff h = [].
Proof.
  induction 1 as [|x h Hx _ IH]; simpl; [done|].
  by destruct (Z.ltb_spec x cutoff); [|lia].
Qed.

Lemma popleft_while_none_old cutoff h :
  Forall (λ x, cutoff ≤ x) h → popleft_while cutoff h = h.
Proof.
  destruct 1 as [|x h Hx _]; simpl; [done|].
  by destruct (Z.ltb_spec x cutoff); [lia|].
Qed.

(** What every reachable history satisfies under a clock that never
    goes back: it is sorted and bounded by the latest reading. *)
Definition ordered_upto (ub : Z) (h : list Z) : Prop :=
  StronglySorted Z.le h ∧ Forall (λ x, x ≤ ub) h.

Lemma ordered_upto_mono ub ub' h :
  ub ≤ ub' → ordered_upto ub h → ordered_upto ub' h.
Proof.
  intros Hle [Hs Hb]. split; [done|].
  eapply Forall_impl; [done|]. simpl. lia.
Qed.

Lemma ordered_upto_clean w now ub h :
  ordered_upto ub h → ordered_upto ub (_clean_history w now h).
Proof.
  unfold _clean_history. intros [Hs Hb].
  destruct (popleft_while_suffix (now - w) h) as (old & Heq & _).
  rewrite Heq in Hs, Hb. split.
  - clear Hb Heq. induction old as [|y old IH]; [done|].
    apply IH. by inversion Hs.
  - by apply Forall_app in Hb as [_ ?].
Qed.

Lemma clean_within_window w now h :
  ordered_upto now h →
  Forall (λ x, now - w ≤ x ≤ now) (_clean_history w now h).
Proof.
  intros Ho. pose proof (ordered_upto_clean w now now h Ho) as [Hs Hb].
  unfold _clean_history in *.
  pose proof (popleft_while_head (now - w) h) as Hhd.
  destruct (popleft_while (now - w) h) as [|x rest]; [done|].
  inversion Hs as [|? ? _ Hall]; subst.
  inversion Hb as [|? ? Hx Hrest]; subst.
  constructor; [lia|].
  rewrite Forall_forall in Hall, Hrest. apply Forall_forall.
  intros y Hy. specialize (Hall y Hy). specialize (Hrest y Hy). lia.
Qed.

Lemma ordered_upto_append n now h :
  ordered_upto now h → ordered_upto now (deque_append n now h).
Proof.
  intros [Hs Hb].
  assert (ordered_upto now (h ++ [now])) as [Hs' Hb'].
  { split.
    - induction h as [|y h IH]; simpl.
      + repeat constructor.
      + inversion Hs as [|? ? Hs1 Hall]; subst.
        inversion Hb as [|? ? Hy Hb1]; subst.
        constructor; [by apply IH|].
        apply Forall_app. split; [done|]. by repeat constructor.
    - apply Forall_app. split; [done|]. constructor; [lia|done]. }
  unfold deque_append. case_match; [|done].
  destruct (h ++ [now]) as [|y l]; [done|]. simpl. rewrite drop_0.
  split; [by inversion Hs' | by inversion Hb'].
Qed.

Lemma StronglySorted_sublist (l k : list Z) :
  l `sublist_of` k → StronglySorted Z.le k → StronglySorted Z.le l.
Proof.
  induction 1 as [|x l k Hsub IH|x l k Hsub IH]; intros Hs.
  - constructor.
  - inversion Hs as [|? ? Hk Hall]; subst. constructor; [by apply IH|].
    apply Forall_forall. intros y Hy. rewrite Forall_forall in Hall.
    apply Hall. by eapply elem_of_sublist.
  - inversion Hs; subst. by apply IH.
Qed.

Lemma clean_sublist w now h : _clean_history w now h `sublist_of` h.
Proof.
  unfold _clean_history.
  destruct (popleft_while_suffix (now - w) h) as (old & Heq & _).
  rewrite Heq at 2. by apply sublist_inserts_l.
Qed.

Lemma deque_append_sublist n x h k :
  h `sublist_of` k → deque_append n x h `sublist_of` k ++ [x].
Proof.
  intros Hsub. unfold deque_append.
  assert (h ++ [x] `sublist_of` k ++ [x]) as Hs by by apply sublist_app.
  case_match; [|done]. etrans; [apply sublist_drop|done].
Qed.

(** Every history is a subsequence of the clock readings taken so far. *)
Lemma history_sublist ops gl ml p :
  history p (run ops (init gl ml)) `sublist_of` ops ≫= readings.
Proof.
  unfold run. induction ops as [|o ops IH] using rev_ind; [by destruct p|].
  rewrite foldl_app, bind_app. simpl. rewrite app_nil_r.
  set (s := foldl step (init gl ml) ops) in *.
  destruct o as [q now|q now|now now']; simpl.
  - apply sublist_inserts_r.
    destruct p, q; simpl; try done; (etrans; [apply clean_sublist|done]).
  - destruct p, q; simpl; try (by apply deque_append_sublist);
      by apply sublist_inserts_r.
  - apply sublist_inserts_r.
    destruct p; simpl; (etrans; [apply clean_sublist|done]).
Qed.

Lemma ordered_upto_sublist now h k :
  h `sublist_of` k → StronglySorted Z.le (k ++ [now]) → ordered_upto now h.
Proof.
  intros Hsub Hs. split.
  - eapply StronglySorted_sublist; [done|]. by eapply StronglySorted_app_1_l.
  - apply Forall_forall. intros x Hx.
    eapply (StronglySorted_app_1_elem_of _ k [now]); [done| |apply list_elem_of_here].
    by eapply elem_of_sublist.
Qed.

(** C2, as the code has it: eviction happens before every read, not
    before a write.  Over any sequence of calls on a fresh limiter under
    a clock that never goes back, when the last call is an admission
    check every timestamp left in that provider's window lies within
    [window_seconds] of the reading the check took, and when it is a
    stats call the same holds for both providers, each against the
    reading taken for it.  A record call promises nothing of the kind. *)
Theorem clean_before_read ops o gl ml :
  monotone_clock (ops ++ [o]) →
  let s := run (ops ++ [o]) (init gl ml) in
  match o with
  | CanUse p now => within_window s now (history p s)
  | Record_ p now => True
  | GetStats now now' =>
      within_window s now (history Groq s) ∧ within_window s now' (history Gemini s)
  end.
Proof.
  unfold monotone_clock, run. rewrite bind_app, foldl_app. simpl.
  rewrite app_nil_r. intros Hmono.
  set (s := foldl step (init gl ml) ops).
  pose proof (λ p, history_sublist ops gl ml p) as Hsub.
  unfold run in Hsub. fold s in Hsub.
  destruct o as [p now|p now|now now']; simpl in *; [|done|].
  - unfold within_window.
    destruct p; simpl; apply clean_within_window;
      eapply ordered_upto_sublist;
      first [apply (Hsub Groq)|apply (Hsub Gemini)|done].
  - unfold within_window. simpl. split; apply clean_within_window.
    + eapply ordered_upto_sublist; [apply (Hsub Groq)|].
      replace [now; now'] with ([now] ++ [now']) in Hmono by done.
      rewrite app_assoc in Hmono. by eapply StronglySorted_app_1_l.
    + eapply ordered_upto_sublist; [apply (Hsub Gemini)|].
      apply StronglySorted_app in Hmono as (H1 & H2 & H3).
      apply StronglySorted_app_2; [|done|repeat constructor].
      intros x1 x2 Hx1 ->%list_elem_of_singleton. apply H1; [done|].
      apply list_elem_of_further, list_elem_of_here.
Qed.

Lemma clean_before_read_witness :
  within_window
    (run [Record_ Groq 0; Record_ Groq 100; CanUse Groq 100] (init 150 8)) 100
    (history Groq
       (run [Record_ Groq 0; Record_ Groq 100; CanUse Groq 100] (init 150 8))).
Proof.
  apply (clean_before_read
           [Record_ Groq 0; Record_ Groq 100] (CanUse Groq 100) 150 8).
  repeat constructor; lia.
Defined.

(** C2 as stated fails after a write: two Groq records a hundred
    seconds apart leave the first timestamp in the window although it
    is older than sixty seconds at the second reading. *)
Lemma stale_after_record :
  let ops := [Record_ Groq 0; Record_ Groq 100] in
  let s := run ops (init 150 8) in
  monotone_clock ops ∧ ¬ within_window s 100 (history Groq s).
Proof.
  split.
  - repeat constructor; lia.
  - intros H. apply Forall_inv in H. simpl in H. lia.
Qed.

Lemma record_all_history p ts s :
  (length (history p s) + length ts ≤ maxlen p)%nat →
  history p (record_all p ts s) = history p s ++ ts
  ∧ limit_rpm p (record_all p ts s) = limit_rpm p s
  ∧ _window_seconds (record_all p ts s) = _window_seconds s.
Proof.
  unfold record_all. revert s. induction ts as [|x ts IH]; intros s Hlen; simpl.
  - by rewrite app_nil_r.
  - simpl in Hlen.
    assert (history p (record_usage p x s) = history p s ++ [x]) as Hx.
    { destruct p; simpl; unfold deque_append; rewrite length_app; simpl in *;
        (case_match eqn:Hc; [apply Nat.ltb_lt in Hc; lia | done]). }
    destruct (IH (record_usage p x s)) as (-> & -> & ->).
    { rewrite Hx, length_app. simpl. lia. }
    rewrite Hx, <- app_assoc. by destruct p.
Qed.

Lemma can_use_spec p now s :
  can_use p now s =
    (Z.of_nat (length (_clean_history (_window_seconds s) now (history p s)))
       <? limit_rpm p s, (can_use p now s).2)
  ∧ history p (can_use p now s).2
    = _clean_history (_window_seconds s) now (history p s)
  ∧ limit_rpm p (can_use p now s).2 = limit_rpm p s
  ∧ _window_seconds (can_use p now s).2 = _window_seconds s.
Proof. by destruct p. Qed.

(** C3, as the code has it.  On a fresh limiter whose limit for the
    provider is N, with N no larger than the bound of the provider's
    deque (500 for Groq, 100 for Gemini): after exactly N record calls
    whose readings all lie in the window that ends at [now], the
    admission check at [now] returns false; and when N is at least one
    and the clock has then advanced by more than the window width, with
    no further record, the next admission check returns true. *)
Theorem limit_reached_then_released p gl ml ts now later :
  let s0 := init gl ml in
  Z.of_nat (length ts) = limit_rpm p s0 →
  (length ts ≤ maxlen p)%nat →
  Forall (λ x, now - 60 ≤ x ≤ now) ts →
  let s1 := record_all p ts s0 in
  (can_use p now s1).1 = false
  ∧ (ts ≠ [] → now + 60 < later →
     (can_use p later (can_use p now s1).2).1 = true).
Proof.
  intros s0 Hn Hmax Hwin s1.
  destruct (record_all_history p ts s0) as (Hh & Hl & Hw).
  { by destruct p. }
  fold s1 in Hh, Hl, Hw.
  replace (history p s0) with (@nil Z) in Hh by by destruct p.
  simpl in Hh. change (_window_seconds s0) with 60 in Hw.
  destruct (can_use_spec p now s1) as (E1 & Hh1 & Hl1 & Hw1).
  assert (_clean_history 60 now ts = ts) as Hc1.
  { apply popleft_while_none_old. eapply Forall_impl; [done|]. simpl. lia. }
  rewrite Hw, Hh, Hc1 in E1, Hh1. rewrite Hw in Hw1. split.
  - rewrite E1. simpl. apply Z.ltb_ge. lia.
  - intros Hne Hlater.
    destruct (can_use_spec p later (can_use p now s1).2) as (E2 & _).
    rewrite E2, Hh1, Hw1, Hl1, Hl. simpl.
    replace (_clean_history 60 later ts) with (@nil Z).
    + simpl. apply Z.ltb_lt. destruct ts; [done|]. simpl in Hn. lia.
    + symmetry. apply popleft_while_all_old.
      eapply Forall_impl; [done|]. simpl. lia.
Qed.

Lemma limit_reached_then_released_witness :
  (can_use Groq 30 (record_all Groq [10; 20] (init 2 8))).1 = false
  ∧ (can_use Groq 91
       (can_use Groq 30 (record_all Groq [10; 20] (init 2 8))).2).1 = true.
Proof.
  destruct (limit_reached_then_released Groq 2 8 [10; 20] 30 91) as [H1 H2].
  - reflexivity.
  - simpl. unfold groq_maxlen. lia.
  - repeat constructor; lia.
  - split; [exact H1|]. apply H2; [done|lia].
Defined.

(** C3 as stated fails in two ways.  With a limit of one, a record at
    reading 0 is refused at 0 and still refused at 60, a full window
    later, because an entry exactly sixty seconds old is not evicted.
    With a Groq limit of 501, above the bound of the deque, 501 records
    in one window leave 500 entries and the check still admits. *)
Lemma limit_not_released_or_not_reached :
  (can_use Groq 0 (record_all Groq [0] (init 1 8))).1 = false
  ∧ (can_use Groq 60 (can_use Groq 0 (record_all Groq [0] (init 1 8))).2).1
    = false
  ∧ (can_use Groq 0 (record_all Groq (replicate 501 0) (init 501 8))).1 = true.
Proof. by vm_compute. Qed.

End RateLimitFacts.

Section OrchestratorFacts.
Import RateLimitManager AIOrchestrator Recovery.













(** What the corrected C5 leaves open: a text nested deeper than the
    interpreter allows makes the cascade raise [RecursionError], which
    its handlers, written for [JSONDecodeError], do not take. *)
Lemma deep_response_raises :
  _parse_json_response lim_demo (replicate 901 91%N)
  = inl (mkExn RuntimeError
           (py "maximum recursion depth exceeded while decoding a JSON array from a unicode string")).
Proof. vm_compute. reflexivity. Qed.

End OrchestratorFacts.

Section JsonFacts.
Import Json.

Lemma skip_ws_length s : (length (skip_ws s) ≤ length s)%nat.
Proof. induction s as [|c s IH]; simpl; [done|]. case_match; simpl; lia. Qed.

Lemma skip_ws_cons s c r : skip_ws s = c :: r → (S (length r) ≤ length s)%nat.
Proof. intros H. pose proof (skip_ws_length s) as Hl. by rewrite H in Hl. Qed.

Lemma cons_fst_some c o k r : cons_fst c o = Some (k, r) → ∃ k', o = Some (k', r).
Proof. destruct o as [[k' r']|]; [|done]. intros [= <- <-]. by exists k'. Qed.

Lemma scanstring_length s k r :
  scanstring s = Some (k, r) → (length r < length s)%nat.
Proof.
  remember (length s) as n eqn:Hn. revert s k r Hn.
  induction n as [n IH] using lt_wf_ind. intros s k r -> H.
  destruct s as [|c s]; [done|]. cbn [scanstring] in H.
  repeat (case_match; simplify_eq; try done);
    try (apply cons_fst_some in H as [k' H];
         eapply IH in H; [| |reflexivity]; cbn [length] in *; lia);
    cbn [length]; lia.
Qed.

Lemma span_digits_length s d r : span_digits s = (d, r) → (length r ≤ length s)%nat.
Proof.
  revert d r. induction s as [|c s IH]; intros d r H; cbn [span_digits] in H.
  - by simplify_eq.
  - case_match; simplify_eq; [|done].
    destruct (span_digits s) as [d' r'] eqn:E. simplify_eq.
    specialize (IH _ _ eq_refl). simpl. lia.
Qed.

Lemma strip_prefix_length l s r : strip_prefix l s = Some r → (length r ≤ length s)%nat.
Proof.
  revert s. induction l as [|a l IH]; intros s H; destruct s as [|b s];
    cbn [strip_prefix] in H; simplify_eq; try done.
  case_match; [|done]. apply IH in H. simpl. lia.
Qed.

Lemma match_number_length lim s v r :
  match_number lim s = Some (v, r) → (length r ≤ length s)%nat.
Proof.
  unfold match_number. intros H.
  repeat (case_match; simplify_eq; try done);
    repeat match goal with
    | E : span_digits _ = (_, _) |- _ => apply span_digits_length in E
    end;
    cbn [length] in *; lia.
Qed.

Ltac length_facts :=
  repeat match goal with
  | E : skip_ws _ = _ :: _ |- _ => apply skip_ws_cons in E
  | E : scanstring _ = Some _ |- _ => apply scanstring_length in E
  | E : strip_prefix _ _ = Some _ |- _ => apply strip_prefix_length in E
  | E : match_number _ _ = Some _ |- _ => apply match_number_length in E
  | IH : scans_within ?f _ ?n, E : ?f ?n _ _ = Ok _ _ |- _ =>
      apply (proj1 (IH _ _)) in E
  end;
  try match goal with
  | |- context [skip_ws ?x] => pose proof (skip_ws_length x)
  | E : context [skip_ws ?x] |- _ => pose proof (skip_ws_length x)
  end.

Ltac fuel_step :=
  repeat (case_match; simplify_eq; try done);
  try match goal with
  | IH : scans_within ?f _ ?n, E : ?f ?n ?d ?x = OutOfFuel |- _ =>
      exfalso; revert E; apply (proj2 (IH d x))
  end;
  length_facts; cbn [length] in *; lia.

Lemma scanners_within lim n :
  scans_within (scan_once lim) 1 n ∧ scans_within (object_members lim) 2 n
  ∧ scans_within (array_items lim) 2 n.
Proof.
  induction n as [|n (IHs & IHo & IHa)].
  - repeat split; intros; first [done|simpl in *; lia].
  - split; [|split]; intros depth s; split.
    + intros v r H. cbn [scan_once] in H. fuel_step.
    + intros Hn H. cbn [scan_once] in H. fuel_step.
    + intros v r H. cbn [object_members] in H. fuel_step.
    + intros Hn H. cbn [object_members] in H. fuel_step.
    + intros v r H. cbn [array_items] in H. fuel_step.
    + intros Hn H. cbn [array_items] in H. fuel_step.
Qed.

(** The decoder never fails for want of fuel. *)
Lemma loads_fuel lim depth s :
  scan_once lim (2 * length s + 1) depth (skip_ws s) ≠ OutOfFuel.
Proof.
  apply (proj2 (proj1 (scanners_within _ _) _ _)).
  pose proof (skip_ws_length s). lia.
Qed.

Lemma digit_limit_off lim n :
  max_str_digits lim = 0%nat → over_digit_limit lim n = false.
Proof. intros H. unfold over_digit_limit. rewrite H. by destruct (640 <? n)%nat. Qed.

Lemma match_number_unlimited lim s e r :
  max_str_digits lim = 0%nat → match_number lim s ≠ Some (inl e, r).
Proof.
  intros Hd H. unfold match_number in H.
  repeat (case_match; simplify_eq; try done);
    match goal with
    | E : over_digit_limit _ _ = true |- _ => by rewrite digit_limit_off in E
    end.
Qed.

Ltac limit_step Hd :=
  repeat (case_match; simplify_eq; try done);
  first
    [ match goal with
      | E : match_number _ _ = Some (inl _, _) |- _ =>
          exfalso; eapply match_number_unlimited; [exact Hd|exact E]
      end
    | match goal with
      | IH : scans_unlimited ?f ?n, E : ?f ?n ?d ?x = Limit _ |- _ =>
          revert E; apply IH
      end;
      length_facts; cbn [length] in *; lia
    | cbn [length] in *; lia ].

Lemma scanners_unlimited lim n :
  max_str_digits lim = 0%nat →
  scans_unlimited (scan_once lim) n ∧ scans_unlimited (object_members lim) n
  ∧ scans_unlimited (array_items lim) n.
Proof.
  intros Hd.
  pose proof (scanners_within lim) as Hw.
  induction n as [|n (IHs & IHo & IHa)]; [by repeat split|].
  destruct (Hw n) as (Ws & Wo & Wa).
  split; [|split]; intros depth s e Hlen H.
  - cbn [scan_once] in H. limit_step Hd.
  - cbn [object_members] in H. limit_step Hd.
  - cbn [array_items] in H. limit_step Hd.
Qed.

(** [loads] stands for a call that met no limit: with the digit limit
    off and a depth of the length of the text, none is met. *)
Lemma loads_unlimited s e : decode (unlimited s) s ≠ LimitError e.
Proof.
  unfold decode. intros H.
  destruct (scan_once _ _ _ _) as [v r| |e'|] eqn:E; try done.
  - by destruct (skip_ws r).
  - revert E. apply scanners_unlimited; [done|].
    simpl. apply skip_ws_length.
Qed.

End JsonFacts.

Section RegexFacts.
Import Re.
Context {A : Type}.
Implicit Types (k : option pystr → pystr → option A) (cap : option pystr).

Lemma ltb_succ (n : nat) : (n <? S n)%nat = true.
Proof. apply Nat.ltb_lt. lia. Qed.

Lemma star_loop_0 body greedy k cap s :
  star_loop (A:=A) body greedy k 0 cap s
  = if greedy then k cap s
    else match k cap s with Some a => Some a | None => None end.
Proof. by destruct greedy. Qed.

Lemma star_loop_S body greedy k n cap s :
  star_loop (A:=A) body greedy k (S n) cap s
  = let more := body cap s (λ cap' s',
                  if (length s' <? length s)%nat
                  then star_loop body greedy k n cap' s' else None) in
    if greedy then match more with Some a => Some a | None => k cap s end
    else match k cap s with Some a => Some a | None => more end.
Proof. done. Qed.

Lemma m_class_cons p c cap s k :
  m (Chr p) cap (c :: s) k = if p c then k cap s else None.
Proof. done. Qed.

Lemma m_class_nil p cap k : m (Chr p) cap [] k = None.
Proof. done. Qed.

Lemma m_chr_hit c cap s k : m (chr c) cap (c :: s) k = k cap s.
Proof. unfold chr. by rewrite m_class_cons, N.eqb_refl. Qed.

Lemma m_chr_miss c d cap s k : d ≠ c → m (chr c) cap (d :: s) k = None.
Proof.
  intros H. unfold chr. rewrite m_class_cons.
  by destruct (N.eqb_spec c d); [congruence|].
Qed.

Lemma m_seq r1 r2 cap s k :
  m (Seq r1 r2) cap s k = m r1 cap s (λ cap' s', m r2 cap' s' k).
Proof. done. Qed.

Lemma m_star greedy r cap s k :
  m (Star greedy r) cap s k = star_loop (m r) greedy k (length s) cap s.
Proof. done. Qed.

Lemma m_group r cap s k :
  m (Group r) cap s k
  = m r cap s (λ _ s', k (Some (take (length s - length s') s)) s').
Proof. done. Qed.

Lemma m_lit l cap s k : m (lit l) cap (l ++ s) k = k cap s.
Proof.
  revert cap. induction l as [|c l IH]; intros cap; [done|].
  cbn [lit app]. rewrite m_seq, m_chr_hit. apply IH.
Qed.

Lemma m_lit_all l cap k : m (lit l) cap l k = k cap [].
Proof. pose proof (m_lit l cap [] k) as H. by rewrite app_nil_r in H. Qed.

Lemma m_lit_miss l c d cap s k : d ≠ c → m (lit (c :: l)) cap (d :: s) k = None.
Proof. intros H. cbn [lit]. by rewrite m_seq, m_chr_miss. Qed.

Lemma m_class_stops p rest cap k : stops p rest → m (Chr p) cap rest k = None.
Proof.
  destruct rest as [|c rest]; [done|]. intros H. unfold stops in H.
  by rewrite m_class_cons, H.
Qed.

(** A greedy run over a class takes all of it when what follows then
    matches. *)
Lemma star_class_greedy p xs rest k n cap a :
  Forall (λ c, p c = true) xs → stops p rest →
  (length (xs ++ rest) ≤ n)%nat →
  k cap rest = Some a →
  star_loop (m (Chr p)) true k n cap (xs ++ rest) = Some a.
Proof.
  intros Hxs Hstop. revert n. induction Hxs as [|c xs Hc _ IH]; intros n Hn Hk.
  - cbn [app]. destruct n as [|n].
    + by rewrite star_loop_0.
    + rewrite star_loop_S. cbv zeta. by rewrite m_class_stops, Hk.
  - destruct n as [|n]; [simpl in Hn; lia|]. cbn [app].
    rewrite star_loop_S. cbv zeta. rewrite m_class_cons, Hc.
    cbn [length]. rewrite ltb_succ.
    rewrite IH; [done| |done]. simpl in Hn. lia.
Qed.

(** A greedy run over a class fails when what follows matches after no
    part of the run. *)
Lemma star_class_greedy_fails p xs rest k n cap :
  Forall (λ c, p c = true) xs → stops p rest →
  (∀ x1 x2, xs = x1 ++ x2 → k cap (x2 ++ rest) = None) →
  star_loop (m (Chr p)) true k n cap (xs ++ rest) = None.
Proof.
  intros Hxs Hstop. revert n. induction Hxs as [|c xs Hc _ IH]; intros n Hk.
  - pose proof (Hk [] [] eq_refl) as Hk0. cbn [app] in *.
    destruct n as [|n]; [by rewrite star_loop_0|].
    rewrite star_loop_S. cbv zeta. by rewrite m_class_stops, Hk0.
  - pose proof (Hk [] (c :: xs) eq_refl) as Hk0. cbn [app] in *.
    destruct n as [|n]; [by rewrite star_loop_0|].
    rewrite star_loop_S. cbv zeta. rewrite m_class_cons, Hc.
    cbn [length]. rewrite ltb_succ, IH, Hk0; [done|].
    intros x1 x2 ->. by apply (Hk (c :: x1) x2).
Qed.

(** A lazy run over any character stops at the first place where what
    follows matches. *)
Lemma star_any_lazy xs rest k n cap a :
  (length (xs ++ rest) ≤ n)%nat →
  (∀ x1 x2, xs = x1 ++ x2 → x2 ≠ [] → k cap (x2 ++ rest) = None) →
  k cap rest = Some a →
  star_loop (m any) false k n cap (xs ++ rest) = Some a.
Proof.
  revert n. induction xs as [|c xs IH]; intros n Hn Hfail Hk.
  - cbn [app]. destruct n; [by rewrite star_loop_0, Hk|].
    rewrite star_loop_S. cbv zeta. by rewrite Hk.
  - destruct n as [|n]; [simpl in Hn; lia|].
    pose proof (Hfail [] (c :: xs) eq_refl ltac:(done)) as H0.
    cbn [app] in *. rewrite star_loop_S. cbv zeta. rewrite H0.
    unfold any at 1. rewrite m_class_cons. cbn [length]. rewrite ltb_succ.
    apply IH; [simpl in Hn; lia| |done].
    intros x1 x2 -> Hne. by apply (Hfail (c :: x1) x2).
Qed.

(** A greedy run over any character backs off to the last place where
    what follows matches. *)
Lemma star_any_greedy xs rest k n cap a :
  (length (xs ++ rest) ≤ n)%nat →
  (∀ y1 y2, rest = y1 ++ y2 → y1 ≠ [] → k cap y2 = None) →
  k cap rest = Some a →
  star_loop (m any) true k n cap (xs ++ rest) = Some a.
Proof.
  intros Hn Hfail Hk.
  assert (∀ n y1 y2, rest = y1 ++ y2 → y1 ≠ [] →
            star_loop (m any) true k n cap y2 = None) as Htail.
  { clear n Hn. intros n y1 y2. revert n y1.
    induction y2 as [|d y2 IH]; intros n y1 Hr Hne.
    - destruct n; [by rewrite star_loop_0, (Hfail y1 [])|].
      rewrite star_loop_S. cbv zeta. unfold any at 1.
      by rewrite m_class_nil, (Hfail y1 []).
    - destruct n as [|n]; [by rewrite star_loop_0, (Hfail y1 (d :: y2))|].
      rewrite star_loop_S. cbv zeta. unfold any at 1.
      rewrite m_class_cons. cbn [length]. rewrite ltb_succ.
      rewrite (IH n (y1 ++ [d])); [by rewrite (Hfail y1 (d :: y2))| |].
      + by rewrite <- app_assoc.
      + by destruct y1. }
  revert n Hn. induction xs as [|c xs IH]; intros n Hn.
  - cbn [app]. destruct n as [|n]; [by rewrite star_loop_0|].
    rewrite star_loop_S. cbv zeta. unfold any at 1.
    destruct rest as [|d rest]; [by rewrite m_class_nil, Hk|].
    rewrite m_class_cons. cbn [length]. rewrite ltb_succ.
    by rewrite (Htail n [d] rest), Hk.
  - destruct n as [|n]; [simpl in Hn; lia|]. cbn [app].
    rewrite star_loop_S. cbv zeta. unfold any at 1.
    rewrite m_class_cons. cbn [length]. rewrite ltb_succ.
    rewrite IH; [done|]. simpl in Hn. lia.
Qed.

End RegexFacts.

Section SearchFacts.
Import Re Recovery.

Lemma take_app_rest {X} (a b : list X) :
  take (length (a ++ b) - length b) (a ++ b) = a.
Proof.
  rewrite length_app. replace (length a + length b - length b)%nat
    with (length a) by lia.
  by rewrite take_app_length.
Qed.

Lemma take_matched {X} (whole rest all : list X) :
  all = whole ++ rest → take (length all - length rest) all = whole.
Proof. intros ->. apply take_app_rest. Qed.

(** The search moves on over every position where no match starts. *)
Lemma search_skip r pre s :
  (∀ x y, pre = x ++ y → y ≠ [] → match_here r (y ++ s) = None) →
  search r (pre ++ s) = search r s.
Proof.
  induction pre as [|c pre IH]; intros H; [done|].
  cbn [app search]. pose proof (H [] (c :: pre) eq_refl ltac:(done)) as H0.
  cbn [app] in H0. rewrite H0. apply IH.
  intros x y -> Hy. by apply (H (c :: x) y).
Qed.

Lemma search_here r s whole cap rest :
  match_here r s = Some (whole, cap, rest) → search r s = Some (whole, cap).
Proof. intros H. destruct s; simpl; by rewrite H. Qed.


(** No match of a pattern that opens with a given character starts at
    another one. *)
Lemma match_here_first c r d s :
  d ≠ c → match_here (chr c ⋅ r) (d :: s) = None.
Proof. intros H. unfold match_here. by rewrite m_seq, m_chr_miss. Qed.

Lemma suffix_head {X} (P : X → Prop) (pre x y : list X) :
  Forall P pre → pre = x ++ y → y ≠ [] → ∃ d y', y = d :: y' ∧ P d.
Proof.
  intros HP -> Hy. destruct y as [|d y']; [done|].
  apply Forall_app in HP as [_ HP]. inversion HP; subst. eauto.
Qed.

(** The greedy pattern finds the span from the first opening brace to
    the last closing one. *)
Lemma search_nested pre mid post :
  Forall (λ c, c ≠ lbrace) pre → Forall (λ c, c ≠ rbrace) post →
  search nested_re (pre ++ [lbrace] ++ mid ++ [rbrace] ++ post)
  = Some ([lbrace] ++ mid ++ [rbrace], None).
Proof.
  intros Hpre Hpost. rewrite search_skip.
  2:{ intros x y Hxy Hy.
      destruct (suffix_head _ _ _ _ Hpre Hxy Hy) as (d & y' & -> & Hd).
      by apply match_here_first. }
  apply (search_here _ _ _ _ post). unfold match_here, nested_re.
  cbn [app]. rewrite m_seq, m_chr_hit, m_seq, m_star.
  rewrite (star_any_greedy mid ([rbrace] ++ post) _ _ None
             (lbrace :: mid ++ [rbrace], None, post)).
  - done.
  - simpl. lia.
  - intros y1 y2 Hy Hne. destruct y1 as [|d y1]; [done|].
    injection Hy as <- ->.
    destruct y2 as [|e y2]; [done|]. rewrite m_chr_miss; [done|].
    apply Forall_app in Hpost as [_ Hpost]. by inversion Hpost.
  - cbn [app]. rewrite m_chr_hit. do 3 f_equal.
    apply take_matched. simpl. by rewrite <- app_assoc.
Qed.

Lemma groups_tail_stops gs post :
  stops not_brace (groups_text gs ++ rbrace :: post).
Proof. by destruct gs as [|[g c] gs]. Qed.

Lemma star_groups {A} gs post (k : option pystr → pystr → option A) n cap a :
  groups_ok gs →
  (length (groups_text gs ++ rbrace :: post) ≤ n)%nat →
  k cap (rbrace :: post) = Some a →
  star_loop (m inner_group) true k n cap (groups_text gs ++ rbrace :: post) = Some a.
Proof.
  intros Hgs. revert n. induction Hgs as [|[g c] gs [Hg Hc] _ IH]; intros n Hn Hk.
  - cbn [groups_text mbind list_bind app].
    destruct n; [by rewrite star_loop_0|].
    rewrite star_loop_S. cbv zeta. unfold inner_group at 1.
    by rewrite m_seq, m_chr_miss, Hk.
  - destruct n as [|n]; [simpl in Hn; lia|].
    change (groups_text ((g, c) :: gs))
      with (([lbrace] ++ g ++ [rbrace] ++ c) ++ groups_text gs) in *.
    set (tail := groups_text gs ++ rbrace :: post) in *.
    replace ((([lbrace] ++ g ++ [rbrace] ++ c) ++ groups_text gs) ++ rbrace :: post)
      with (lbrace :: g ++ (rbrace :: c ++ tail)) in *
      by (unfold tail; simpl; by rewrite <- !app_assoc).
    rewrite star_loop_S. cbv zeta. unfold inner_group at 1.
    rewrite m_seq, m_chr_hit, m_seq, m_star.
    erewrite (star_class_greedy not_brace g (rbrace :: c ++ tail));
      [reflexivity|done|done|done|].
    rewrite m_seq, m_chr_hit, m_star.
    erewrite (star_class_greedy not_brace c tail);
      [reflexivity|done|apply groups_tail_stops|done|].
    assert (length tail <? length (lbrace :: g ++ rbrace :: c ++ tail))%nat as Hlt.
    { apply Is_true_true, Nat.ltb_lt. simpl. rewrite !length_app. simpl.
      rewrite length_app. lia. }
    apply Is_true_true in Hlt. rewrite Hlt. apply IH; [|done].
    simpl in Hn. rewrite !length_app in Hn. simpl in Hn. rewrite length_app in Hn.
    lia.
Qed.

(** The one-level pattern finds the whole of a brace region nested at
    most one level deep. *)
Lemma search_brace pre c0 gs post :
  Forall (λ c, c ≠ lbrace) pre → brace_free c0 → groups_ok gs →
  search brace_re (pre ++ [lbrace] ++ c0 ++ groups_text gs ++ [rbrace] ++ post)
  = Some ([lbrace] ++ c0 ++ groups_text gs ++ [rbrace], None).
Proof.
  intros Hpre Hc0 Hgs. rewrite search_skip.
  2:{ intros x y Hxy Hy.
      destruct (suffix_head _ _ _ _ Hpre Hxy Hy) as (d & y' & -> & Hd).
      by apply match_here_first. }
  apply (search_here _ _ _ _ post). unfold match_here, brace_re.
  cbn [app]. rewrite m_seq, m_chr_hit, m_seq, m_star.
  erewrite (star_class_greedy not_brace c0 (groups_text gs ++ rbrace :: post));
    [reflexivity|done|apply groups_tail_stops|done|].
  rewrite m_seq, m_star. apply star_groups; [done|done|].
  rewrite m_chr_hit. do 3 f_equal. apply take_matched.
  simpl. by rewrite <- !app_assoc.
Qed.

Lemma ticks_miss {A} d s cap (k : option pystr → pystr → option A) :
  d ≠ backtick → m (lit (py "```")) cap (d :: s) k = None.
Proof. intros H. by apply (m_lit_miss [backtick; backtick] backtick). Qed.

Lemma span_spaces y : ∃ sp z, y = sp ++ z ∧ spaces sp ∧ stops is_space z.
Proof.
  induction y as [|c y (sp & z & -> & Hsp & Hz)].
  - exists [], []. repeat split. constructor.
  - destruct (is_space c) eqn:E.
    + exists (c :: sp), z. repeat split; [by constructor|done].
    + exists [], (c :: sp ++ z). repeat split; [constructor|done].
Qed.

Lemma lstrip_spaces sp z : spaces sp → stops is_space z → lstrip (sp ++ z) = z.
Proof.
  intros Hsp Hz. induction Hsp as [|c sp Hc _ IH]; cbn [app lstrip].
  - destruct z as [|d z]; [done|]. cbn [lstrip]. unfold stops in Hz. by rewrite Hz.
  - by rewrite Hc.
Qed.

Lemma m_lit_no {A} l s cap (k : option pystr → pystr → option A) :
  starts_with l s = false → m (lit l) cap s k = None.
Proof.
  revert s cap. induction l as [|c l IH]; intros s cap H; [done|].
  destruct s as [|d s]; [done|]. cbn [starts_with] in H.
  destruct (N.eqb_spec c d) as [->|Hne].
  - cbn [lit]. rewrite m_seq, m_chr_hit. by apply IH.
  - apply m_lit_miss. congruence.
Qed.

Lemma starts_with_same l p d1 d2 (r1 r2 : pystr) :
  Forall (λ x, x ≠ d1 ∧ x ≠ d2) l →
  starts_with l (p ++ d1 :: r1) = starts_with l (p ++ d2 :: r2).
Proof.
  intros Hl. revert p. induction Hl as [|x l [H1 H2] _ IH]; intros p; [done|].
  destruct p as [|c p]; cbn [app starts_with].
  - apply N.eqb_neq in H1, H2. by rewrite H1, H2.
  - by rewrite IH.
Qed.

Lemma closes_same p d1 d2 r1 r2 :
  is_space d1 = false → is_space d2 = false → d1 ≠ backtick → d2 ≠ backtick →
  closes_fence (p ++ d1 :: r1) = closes_fence (p ++ d2 :: r2).
Proof.
  intros S1 S2 T1 T2. unfold closes_fence.
  induction p as [|c p IH]; cbn [app lstrip].
  - rewrite S1, S2. apply (starts_with_same _ []). by repeat constructor.
  - destruct (is_space c); [done|].
    apply (starts_with_same _ (c :: p)). by repeat constructor.
Qed.

Lemma fence_free_split p y :
  fence_free (p ++ rbrace :: y) = true → closes_fence y = false.
Proof.
  induction p as [|c p IH]; cbn [app fence_free]; intros H.
  - rewrite N.eqb_refl in H. by destruct (closes_fence y).
  - apply andb_true_iff in H as [_ H]. by apply IH.
Qed.


Lemma tick_free_closes s : tick_free s → closes_fence s = false.
Proof.
  unfold closes_fence. induction 1 as [|c s Hc _ IH]; [done|]. cbn [lstrip].
  destruct (is_space c); [done|].
  change (py "```") with [backtick; backtick; backtick]. cbn [starts_with].
  by destruct (N.eqb_spec backtick c) as [<-|].
Qed.

Lemma tick_free_fence_free s : tick_free s → fence_free s = true.
Proof.
  induction 1 as [|c s Hc Hs IH]; [done|]. cbn [fence_free].
  by rewrite tick_free_closes, andb_false_r, IH.
Qed.

Lemma spaces_then_fence_fail {A} s cap n (k : option pystr → pystr → option A) :
  closes_fence s = false →
  star_loop (m space) true (λ cap s, m (lit (py "```")) cap s k) n cap s = None.
Proof.
  intros Hs. destruct (span_spaces s) as (sp & z & -> & Hsp & Hz).
  unfold closes_fence in Hs. rewrite lstrip_spaces in Hs by done.
  apply star_class_greedy_fails; [done|done|].
  intros x1 x2 ->. destruct x2 as [|e x2]; cbn [app].
  - by apply m_lit_no.
  - apply ticks_miss. intros ->.
    apply Forall_app in Hsp as [_ Hsp]. by inversion Hsp.
Qed.

(** The fenced-block pattern captures the body of a fenced block whose
    body is one brace region in which no closing brace is followed by
    whitespace and three backticks. *)
Lemma search_code_block tag ws1 ws2 inner :
  spaces ws1 → spaces ws2 → fence_free ([lbrace] ++ inner ++ [rbrace]) = true →
  search code_block_re (fenced tag ws1 ws2 ([lbrace] ++ inner ++ [rbrace]))
  = Some (fenced tag ws1 ws2 ([lbrace] ++ inner ++ [rbrace]),
          Some ([lbrace] ++ inner ++ [rbrace])).
Proof.
  intros H1 H2 Hin.
  set (body := [lbrace] ++ inner ++ [rbrace]).
  set (text := fenced tag ws1 ws2 body).
  apply (search_here _ _ _ _ []). unfold match_here, code_block_re.
  set (k0 := λ (cap : option pystr) (rest : pystr),
               Some (take (length text - length rest) text, cap, rest)).
  rewrite m_seq. unfold text at 1, fenced. rewrite m_lit. rewrite m_seq.
  set (K1 := λ (cap' : option pystr) (s' : pystr), m _ cap' s' k0).
  assert (K1 None (ws1 ++ body ++ ws2 ++ py "```") = Some (text, Some body, []))
    as HK1.
  { unfold K1. rewrite m_seq, m_star.
    erewrite (star_class_greedy is_space ws1 (body ++ ws2 ++ py "```"));
      [reflexivity|done|done|done|].
    rewrite m_seq, m_group.
    replace (body ++ ws2 ++ py "```")
      with (lbrace :: inner ++ rbrace :: ws2 ++ py "```")
      by (unfold body; simpl; by rewrite <- app_assoc).
    rewrite m_seq, m_chr_hit, m_seq, m_star.
    erewrite (star_any_lazy inner (rbrace :: ws2 ++ py "```"));
      [reflexivity|done| |].
    - intros x1 x2 -> Hne. destruct x2 as [|d x2]; [done|]. cbn [app].
      destruct (decide (d = rbrace)) as [->|Hd]; [|by rewrite m_chr_miss].
      rewrite m_chr_hit, m_seq, m_star.
      apply spaces_then_fence_fail.
      rewrite (closes_same x2 rbrace rbrace (ws2 ++ py "```") []) by done.
      apply (fence_free_split (lbrace :: x1)).
      cbn [app] in Hin |- *. by rewrite <- !app_assoc in Hin.
    - rewrite m_chr_hit, m_seq, m_star.
      erewrite (star_class_greedy is_space ws2 (py "```"));
        [reflexivity|done|done|done|].
      rewrite m_lit_all. unfold k0.
      simpl length at 2. rewrite Nat.sub_0_r, firstn_all.
      rewrite (take_matched body (ws2 ++ py "```")); [done|].
      unfold body. simpl. by rewrite <- !app_assoc. }
  unfold opt. cbn [m]. destruct tag.
  - by rewrite m_lit, HK1.
  - cbn [app].
    assert (m (lit (py "json")) None (ws1 ++ body ++ ws2 ++ py "```") K1 = None) as ->.
    { destruct ws1 as [|e ws1]; cbn [app].
      - by apply (m_lit_miss (py "son") 106).
      - apply (m_lit_miss (py "son") 106). intros ->. by inversion H1. }
    exact HK1.
Qed.








(** *** Where the comma goes in a text nested one level deep *)






(** *** The strategies on a fenced block *)

Lemma decode_backtick lim rest : Json.decode lim (backtick :: rest) = Json.DecodeError.
Proof.
  unfold Json.decode.
  replace (2 * length (backtick :: rest) + 1)%nat
    with (S (2 * length (backtick :: rest))) by lia.
  reflexivity.
Qed.

Lemma lstrip_snoc l c :
  is_space c = false → ∃ l', lstrip (l ++ [c]) = l' ++ [c].
Proof.
  intros Hc. induction l as [|d l [l' IH]]; cbn [app lstrip].
  - exists []. by rewrite Hc.
  - destruct (is_space d); [by exists l'|by exists (d :: l)].
Qed.

Lemma strip_backtick s : ∃ s', strip (backtick :: s) = backtick :: s'.
Proof.
  unfold strip, rstrip. cbn [lstrip]. change (is_space backtick) with false.
  cbn iota. rewrite reverse_cons.
  destruct (lstrip_snoc (reverse s) backtick eq_refl) as [l' ->].
  exists (reverse l'). by rewrite reverse_app.
Qed.

Lemma sub_control_backtick t :
  sub control_re (λ _, []) (backtick :: t)
  = backtick :: sub_from (length t) control_re (λ _, []) t.
Proof. reflexivity. Qed.

Lemma direct_fenced lim tag ws1 ws2 body :
  try_direct lim (fenced tag ws1 ws2 body) = inr None.
Proof.
  unfold try_direct, try_loads, fenced.
  change (py "```" ++ ?t) with (backtick :: ([backtick; backtick] ++ t)).
  by rewrite decode_backtick.
Qed.

Lemma cleaned_fenced lim tag ws1 ws2 body :
  try_cleaned lim (fenced tag ws1 ws2 body) = inr None.
Proof.
  unfold try_cleaned, fenced.
  change (py "```" ++ ?t) with (backtick :: ([backtick; backtick] ++ t)).
  rewrite sub_control_backtick.
  destruct (strip_backtick
    (sub_from (length ([backtick; backtick] ++
                 (if tag then py "json" else []) ++ ws1 ++ body ++ ws2 ++ py "```"))
       control_re (λ _, [])
       ([backtick; backtick] ++
          (if tag then py "json" else []) ++ ws1 ++ body ++ ws2 ++ py "```")))
    as [s' ->].
  unfold try_loads. by rewrite decode_backtick.
Qed.

Lemma fence_open_no_brace (tag : bool) ws1 :
  spaces ws1 →
  Forall (λ c, c ≠ lbrace) (py "```" ++ (if tag then py "json" else []) ++ ws1).
Proof.
  intros H. apply Forall_app. split; [by repeat constructor|].
  apply Forall_app. split; [destruct tag; by repeat constructor|].
  eapply Forall_impl; [done|]. intros c Hc Heq. by subst.
Qed.

Lemma fence_close_no_brace ws2 :
  spaces ws2 → Forall (λ c, c ≠ rbrace) (ws2 ++ py "```").
Proof.
  intros H. apply Forall_app. split; [|by repeat constructor].
  eapply Forall_impl; [done|]. intros c Hc Heq. by subst.
Qed.

Lemma fenced_split tag ws1 ws2 mid :
  fenced tag ws1 ws2 ([lbrace] ++ mid ++ [rbrace])
  = (py "```" ++ (if tag then py "json" else []) ++ ws1)
      ++ [lbrace] ++ mid ++ [rbrace] ++ (ws2 ++ py "```").
Proof. unfold fenced. by rewrite <- !app_assoc. Qed.

Lemma code_block_fenced lim tag ws1 ws2 inner :
  spaces ws1 → spaces ws2 → fence_free ([lbrace] ++ inner ++ [rbrace]) = true →
  try_code_block lim (fenced tag ws1 ws2 ([lbrace] ++ inner ++ [rbrace]))
  = try_loads lim ([lbrace] ++ inner ++ [rbrace]).
Proof. intros. unfold try_code_block. by rewrite search_code_block. Qed.

Lemma search_brace_fenced tag ws1 ws2 c0 gs :
  spaces ws1 → brace_free c0 → groups_ok gs →
  search brace_re (fenced tag ws1 ws2 ([lbrace] ++ c0 ++ groups_text gs ++ [rbrace]))
  = Some ([lbrace] ++ c0 ++ groups_text gs ++ [rbrace], None).
Proof.
  intros.
  replace (fenced tag ws1 ws2 ([lbrace] ++ c0 ++ groups_text gs ++ [rbrace]))
    with ((py "```" ++ (if tag then py "json" else []) ++ ws1)
            ++ [lbrace] ++ c0 ++ groups_text gs ++ [rbrace] ++ (ws2 ++ py "```"))
    by (unfold fenced; by rewrite <- !app_assoc).
  rewrite (search_brace _ c0 gs); [done|by apply fence_open_no_brace|done|done].
Qed.

Lemma brace_fenced lim tag ws1 ws2 c0 gs :
  spaces ws1 → brace_free c0 → groups_ok gs →
  try_brace lim (fenced tag ws1 ws2 ([lbrace] ++ c0 ++ groups_text gs ++ [rbrace]))
  = try_loads lim ([lbrace] ++ c0 ++ groups_text gs ++ [rbrace]).
Proof. intros. unfold try_brace. by rewrite search_brace_fenced. Qed.

Lemma nested_fenced lim tag ws1 ws2 mid :
  spaces ws1 → spaces ws2 →
  try_nested lim (fenced tag ws1 ws2 ([lbrace] ++ mid ++ [rbrace]))
  = try_loads lim (_fix_json_issues ([lbrace] ++ mid ++ [rbrace])).
Proof.
  intros. unfold try_nested. rewrite fenced_split.
  rewrite search_nested;
    [done|by apply fence_open_no_brace|by apply fence_close_no_brace].
Qed.

Lemma one_level_inner c0 gs :
  one_level c0 gs = [lbrace] ++ (c0 ++ groups_text gs) ++ [rbrace].
Proof. unfold one_level. by rewrite <- app_assoc. Qed.

(** What each strategy makes of a fenced object nested one level deep. *)
Lemma strategies_one_level lim tag ws1 ws2 c0 gs :
  spaces ws1 → spaces ws2 → brace_free c0 → groups_ok gs →
  fence_free (one_level c0 gs) = true →
  let text := fenced tag ws1 ws2 (one_level c0 gs) in
  try_direct lim text = inr None
  ∧ try_code_block lim text = try_loads lim (one_level c0 gs)
  ∧ try_brace lim text = try_loads lim (one_level c0 gs)
  ∧ try_cleaned lim text = inr None
  ∧ try_nested lim text = try_loads lim (_fix_json_issues (one_level c0 gs)).
Proof.
  intros H1 H2 Hc Hgs Htick text. unfold text.
  split; [apply direct_fenced|].
  split.
  { rewrite one_level_inner in Htick |- *. by apply code_block_fenced. }
  split; [by apply brace_fenced|].
  split; [apply cleaned_fenced|].
  rewrite one_level_inner. by apply nested_fenced.
Qed.





(** The repair is textual: a comma in front of a closing bracket inside
    a string value goes too. *)
Lemma trailing_comma_inside_string :
  Json.decode lim_demo (bracket_text (py "}"))
  = Json.Value (JDict [(py "a", JStr (py "x,]"))])
  ∧ Recovery._parse_json_response lim_demo
      (fenced true [10%N] [10%N] (bracket_text (py "}")))
    = inr (JDict [(py "a", JStr (py "x,]"))])
  ∧ Recovery._parse_json_response lim_demo
      (fenced true [10%N] [10%N] (bracket_text (py ",}")))
    = inr (JDict [(py "a", JStr (py "x]"))]).
Proof. repeat split; vm_compute; reflexivity. Qed.

(** Deeper objects and backticks: with the comma in front of the
    innermost brace of an object nested three levels deep, the region
    that the brace pattern finds holds the comma, and the repair gives
    the object back; so it does for an object with a backtick in it. *)
Lemma trailing_comma_innermost :
  Recovery._parse_json_response lim_demo
    (fenced true [10%N] [10%N]
       (py "{" ++ quoted "a" ++ py ": {" ++ quoted "b" ++ py ": {" ++ quoted "c"
          ++ py ": 1,}}}"))
  = inr deep_value
  ∧ Recovery._parse_json_response lim_demo
      (fenced true [10%N] [10%N] (py "{" ++ quoted "a" ++ py ": " ++ quoted "`" ++ py ",}"))
    = inr (JDict [(py "a", JStr (py "`"))]).
Proof. split; vm_compute; reflexivity. Qed.

End SearchFacts.

Section CacheFacts.
Import DualCacheManager.

Lemma ranges_ok : forallb range_ok lower_ranges = true.
Proof. vm_compute. reflexivity. Qed.

Lemma in_range_points c r :
  (0 < r.1.2)%N → in_lower_range c r = true → c ∈ range_points r.
Proof.
  destruct r as [[[lo hi] step] delta]. cbn [fst snd]. intros Hstep H.
  unfold in_lower_range in H.
  apply andb_true_iff in H as [H Hmod]. apply andb_true_iff in H as [Hlo Hhi].
  apply N.leb_le in Hlo, Hhi. apply N.eqb_eq in Hmod.
  unfold range_points. apply list_elem_of_fmap.
  exists (N.to_nat ((c - lo) / step)). split.
  - cbv beta. rewrite N2Nat.id.
    pose proof (N.div_mod (c - lo) step ltac:(lia)) as Hdm.
    rewrite Hmod, N.add_0_r, N.mul_comm in Hdm. rewrite <- Hdm. lia.
  - apply elem_of_seq.
    assert ((c - lo) / step ≤ (hi - lo) / step)%N as Hq
      by (apply N.Div0.div_le_mono; lia).
    revert Hq. generalize ((c - lo) / step)%N ((hi - lo) / step)%N. lia.
Qed.

Lemma to_lower_stable c : c ≠ 931%N → Forall (λ d, stable d = true) (to_lower c).
Proof.
  intros Hc. unfold to_lower.
  destruct (N.eqb_spec c 304) as [->|Hi]; [by repeat constructor|].
  destruct (find (in_lower_range c) lower_ranges) as [[[[lo hi] step] delta]|] eqn:E.
  - apply find_some in E as [Hin Hr]. repeat constructor.
    pose proof ranges_ok as Hok. rewrite forallb_forall in Hok.
    specialize (Hok _ Hin). unfold range_ok in Hok. cbn [fst snd] in Hok.
    apply andb_true_iff in Hok as [Hstep Hok]. apply N.ltb_lt in Hstep.
    rewrite forallb_forall in Hok. apply Hok.
    apply list_elem_of_In. by apply (in_range_points c (lo, hi, step, delta)).
  - repeat constructor. unfold stable. rewrite E.
    apply N.eqb_neq in Hc, Hi. by rewrite Hc, Hi.
Qed.

(** What [lower] returns is made of code points that it leaves alone. *)
Lemma lower_from_stable before s :
  Forall (λ d, stable d = true) (lower_from before s).
Proof.
  revert before. induction s as [|c s IH]; intros before; [constructor|].
  cbn [lower_from]. apply Forall_app. split; [|apply IH].
  destruct (N.eqb_spec c 931) as [->|Hc]; [|by apply to_lower_stable].
  destruct (final_sigma before s); by repeat constructor.
Qed.

Lemma stable_lower_from before s :
  Forall (λ d, stable d = true) s → lower_from before s = s.
Proof.
  intros H. revert before. induction H as [|c s Hc _ IH]; intros before; [done|].
  cbn [lower_from]. rewrite IH. unfold stable in Hc.
  apply andb_true_iff in Hc as [Hc Hf]. apply andb_true_iff in Hc as [H1 H2].
  apply negb_true_iff in H1, H2. rewrite H1. unfold to_lower. rewrite H2.
  by destruct (find (in_lower_range c) lower_ranges).
Qed.

Lemma lower_idem s : lower (lower s) = lower s.
Proof. apply stable_lower_from, lower_from_stable. Qed.

Lemma lstrip_char_keeps (P : N → Prop) x s : Forall P s → Forall P (lstrip_char x s).
Proof.
  induction 1 as [|c s Hc Hs IH]; [done|]. cbn [lstrip_char].
  destruct (c =? x)%N; [done|by constructor].
Qed.

Lemma rstrip_char_keeps (P : N → Prop) x s : Forall P s → Forall P (rstrip_char x s).
Proof.
  intros H. unfold rstrip_char.
  by apply Forall_reverse, lstrip_char_keeps, Forall_reverse.
Qed.

Lemma lstrip_char_idem x s : lstrip_char x (lstrip_char x s) = lstrip_char x s.
Proof.
  induction s as [|c s IH]; [done|]. simpl.
  destruct (c =? x)%N eqn:E; [done|]. simpl. by rewrite E.
Qed.

Lemma rstrip_char_idem x s : rstrip_char x (rstrip_char x s) = rstrip_char x s.
Proof. unfold rstrip_char. by rewrite reverse_involutive, lstrip_char_idem. Qed.

Lemma normalize_fixed u :
  strip (normalize u) = normalize u → normalize (normalize u) = normalize u.
Proof.
  intros Hs. unfold normalize at 1. rewrite Hs.
  assert (lower (normalize u) = normalize u) as ->.
  { apply stable_lower_from. unfold normalize.
    apply rstrip_char_keeps, lower_from_stable. }
  unfold normalize. apply rstrip_char_idem.
Qed.

(** C7, as the code has it.  Normalizing twice gives the same key as
    normalizing once whenever the normalized URL has no whitespace left
    at its ends; two URLs with the same normalized string get the same
    key; and for a URL and a result with which [save] returns, and a
    result that JSON serialization round-trips, [get] after [save]
    returns the saved result when the volatile tier took the write, can
    be read and is asked before the TTL has run out, and when the
    durable tier took the write and can be read, provided that the
    volatile tier, which is asked first, took the write too or cannot
    be read. *)
Theorem cache_key_and_round_trip :
  (∀ u, strip (normalize u) = normalize u →
        _hash_url (normalize u) = _hash_url u)
  ∧ (∀ u1 u2, normalize u1 = normalize u2 → _hash_url u1 = _hash_url u2)
  ∧ (∀ sf gf now now1 now2 u R s,
       save_raises sf u = None →
       Json.loads (JsonDumps.dumps false R) = Some R →
       (hot_write_fails sf = false ∧ hot_read_fails gf = false
        ∧ now1 - now < InMemoryCache._ttl (_hot s))
       ∨ (cold_write_fails sf = false ∧ cold_read_fails gf = false
          ∧ (hot_write_fails sf = false ∨ hot_read_fails gf = true)) →
       (get gf now1 now2 u (save sf now u R s)).1 = Some R).
Proof.
  split; [|split].
  - intros u Hs. unfold _hash_url. by rewrite normalize_fixed.
  - intros u1 u2 Heq. unfold _hash_url. by rewrite Heq.
  - intros sf gf now now1 now2 u R s _ Hrt Hpath.
    assert (∃ c d, JsonDumps.dumps false R = c :: d) as (c & d & Hcd).
    { destruct (JsonDumps.dumps false R) as [|c d] eqn:E; [|by eauto].
      by vm_compute in Hrt. }
    unfold get, save. set (key := _hash_url u).
    assert (∀ (m : gmap pystr row), ∃ r,
               (match m !! key with
                | Some r => <[key := {| row_url := row_url r;
                                        row_analysis := JsonDumps.dumps false R;
                                        row_access_count := row_access_count r + 1 |}]> m
                | None => <[key := {| row_url := u;
                                      row_analysis := JsonDumps.dumps false R;
                                      row_access_count := 1 |}]> m
                end) !! key = Some r ∧ row_analysis r = JsonDumps.dumps false R)
      as Hcold.
    { intros m. destruct (m !! key); rewrite lookup_insert_eq; eauto. }
    destruct (Hcold (_cold s)) as (r & Hr1 & Hr2).
    destruct Hpath as [(Hh & Hr & Hlive)|(Hc & Hr & [Hh|Hh])].
    + rewrite Hh, Hr. simpl.
      unfold InMemoryCache.get, InMemoryCache.setex. simpl.
      rewrite lookup_insert_eq. apply Z.ltb_lt in Hlive. rewrite Hlive. simpl.
      by rewrite Hcd, <- Hcd, Hrt.
    + rewrite Hc, Hr, Hh. simpl.
      destruct (hot_read_fails gf); simpl.
      * rewrite Hr1, Hr2, Hrt. done.
      * unfold InMemoryCache.get, InMemoryCache.setex. simpl.
        rewrite lookup_insert_eq.
        destruct (now1 - now <? InMemoryCache._ttl (_hot s)); simpl.
        -- by rewrite Hcd, <- Hcd, Hrt.
        -- rewrite Hr1, Hr2, Hrt. done.
    + rewrite Hc, Hr, Hh. simpl. rewrite Hr1, Hr2, Hrt. done.
Qed.

Lemma cache_key_and_round_trip_witness :
  _hash_url (normalize (py " HTTPS://Reddit.com/r/X/ ")) = _hash_url (py " HTTPS://Reddit.com/r/X/ ")
  ∧ _hash_url (py "https://redd.it/abc/") = _hash_url (py "HTTPS://redd.it/abc")
  ∧ (get no_get_faults 10 10 (py "https://redd.it/abc")
       (save (mkSaveFaults None false true) 5 (py "https://redd.it/abc") R_demo
          (init 86400))).1
    = Some R_demo.
Proof.
  destruct cache_key_and_round_trip as (H1 & H2 & H3).
  split; [|split].
  - apply H1. vm_compute. reflexivity.
  - apply H2. vm_compute. reflexivity.
  - apply H3; [vm_compute; reflexivity..|].
    left. by repeat split.
Defined.

(** C7 as stated fails.  A URL that the validator accepts and that has
    a space before its trailing slash keeps the space when normalized
    once and loses it when normalized twice, and the two keys differ.
    And [save] followed by [get] does not always return the result:
    with a lone surrogate in the URL [save] raises and nothing is
    stored, and when the durable write fails, as its handler allows,
    [get] returns nothing once the TTL of the volatile tier has run
    out. *)
Lemma normalize_twice_differs :
  let u := py "https://reddit.com/r/x/comments/abc /" in
  Main.validate_reddit_url u = true
  ∧ normalize (normalize u) ≠ normalize u
  ∧ _hash_url (normalize u) ≠ _hash_url u
  ∧ (let u := py "https://redd.it/abc" ++ [56448%N] in
     Main.validate_reddit_url u = true
     ∧ (Main.cache_save no_save_faults u R_demo w_demo).1
       = inl (mkExn ValueError
                (py "'utf-8' codec can't encode character '\udc80' in position 19: surrogates not allowed"))
     ∧ cache_manager (Main.cache_save no_save_faults u R_demo w_demo).2
       = cache_manager w_demo)
  ∧ (get no_get_faults 86405 86405 (py "https://redd.it/abc")
       (save (mkSaveFaults None false true) 5 (py "https://redd.it/abc") R_demo
          (init 86400))).1
    = None.
Proof. vm_compute. repeat split; discriminate. Qed.

(** C8: on a [get] that finds nothing fresh in the volatile tier and a
    row in the durable tier, the stored value is returned whether or
    not the write-back and the access count fail; when the write-back
    does not fail the volatile tier holds the value under a fresh
    stamp, and when the count does not fail the access counter has
    gone up by one. *)
Theorem durable_hit_best_effort f now now' u s r v :
  cold_read_fails f = false →
  (hot_read_fails f = false →
   (InMemoryCache.get now (_hash_url u) (_hot s)).1 = None) →
  _cold s !! _hash_url u = Some r →
  Json.loads (row_analysis r) = Some v →
  let out := get f now now' u s in
  out.1 = Some v
  ∧ (rehydrate_fails f = false →
     InMemoryCache._data (_hot out.2) !! _hash_url u
     = Some (now', JsonDumps.dumps true v))
  ∧ (touch_fails f = false →
     row_access_count <$> _cold out.2 !! _hash_url u
     = Some (row_access_count r + 1)).
Proof.
  intros Hc Hmiss Hrow Hv. unfold get. rewrite Hc.
  destruct (hot_read_fails f) eqn:Hh; simpl.
  - rewrite Hrow, Hv. simpl. split; [done|]. split; intros ->; simpl.
    + unfold InMemoryCache.setex. simpl. by rewrite lookup_insert_eq.
    + by rewrite lookup_insert_eq.
  - specialize (Hmiss eq_refl).
    destruct (InMemoryCache.get now (_hash_url u) (_hot s)) as [data hot] eqn:Hg.
    simpl in Hmiss. subst data. simpl.
    rewrite Hrow, Hv. simpl. split; [done|]. split; intros ->; simpl.
    + unfold InMemoryCache.setex. simpl. by rewrite lookup_insert_eq.
    + by rewrite lookup_insert_eq.
Qed.

Lemma durable_hit_best_effort_witness :
  (get (mkGetFaults false false true true) 10 10 (py "https://redd.it/abc")
     s_cold_only).1 = Some (JDict []).
Proof.
  refine (proj1 (durable_hit_best_effort (mkGetFaults false false true true) 10 10
                   (py "https://redd.it/abc") s_cold_only
                   (mkRow (py "https://redd.it/abc") (py "{}") 1) (JDict [])
                   _ _ _ _)); try (vm_compute; reflexivity).
Defined.
End CacheFacts.

Section MonadFacts.

Lemma wp_bind {A B} (c : M A) (k : A → M B) Q w :
  wp c (λ r w', match r with
                | inr a => wp (k a) Q w'
                | inl e => Q (inl e) w'
                end) w →
  wp (c ≫= k) Q w.
Proof.
  unfold wp, mbind, M_bind, bind. by destruct (c w) as [[e|a] w'].
Qed.

Lemma wp_try {A} (c : M A) (h : exn → M A) Q w :
  wp c (λ r w', match r with
                | inr a => Q (inr a) w'
                | inl e => wp (h e) Q w'
                end) w →
  wp (try_except c h) Q w.
Proof. unfold wp, try_except. by destruct (c w) as [[e|a] w']. Qed.

Lemma wp_ret {A} (a : A) Q w : Q (inr a) w → wp (ret a) Q w.
Proof. done. Qed.

Lemma wp_raise {A} e (Q : exn + A → World → Prop) w : Q (inl e) w → wp (raise e) Q w.
Proof. done. Qed.

Lemma wp_lift {A} (x : exn + A) Q w :
  (∀ a, x = inr a → Q (inr a) w) → (∀ e, x = inl e → Q (inl e) w) →
  wp (lift x) Q w.
Proof. destruct x; unfold wp; simpl; eauto. Qed.

Lemma wp_mono {A} (c : M A) (Q Q' : exn + A → World → Prop) w :
  wp c Q w → (∀ r w', Q r w' → Q' r w') → wp c Q' w.
Proof. unfold wp. eauto. Qed.

End MonadFacts.

(** The runs of [analyze], case by case. *)
Ltac analyze_cases orch ctx ga ma :=
  unfold AIOrchestrator.analyze, AIOrchestrator._invoke_groq,
    AIOrchestrator._invoke_gemini, AIOrchestrator.call_remote,
    limiter_can_use, limiter_record_usage, lift;
  unfold mbind, M_bind, bind, mret, M_ret, ret, raise, modify, gets, time_time,
    try_except;
  destruct (get_default (tc_metadata ctx) (py "subreddit") (JStr []));
  destruct (AIOrchestrator._groq_client orch),
    (AIOrchestrator._gemini_configured orch),
    (token_count_llama ctx <? AIOrchestrator.groq_max_tokens orch),
    ga, ma; simpl;
  repeat (match goal with
          | |- context [if ?b then _ else _] => destruct b
          | |- context [Recovery._parse_json_response ?l ?r] =>
              destruct (Recovery._parse_json_response l r) eqn:?
          end; simpl).

Section PipelineFacts.
Import Main.

Lemma updates_of_app a b : updates_of (a ++ b) = updates_of a ++ updates_of b.
Proof. apply omap_app. Qed.

Context (w0 : World) (job_id : pystr) (l : loc).

Lemma wp_set_job f j tr Q w :
  at_job w0 job_id l j tr w →
  (∀ w', at_job w0 job_id l (f j) tr w' → Q (inr tt) w') →
  wp (set_job l f) Q w.
Proof.
  intros (Hh & Hs & Hl) HQ. apply HQ. split; [|done].
  simpl. by rewrite lookup_alter_eq, Hh.
Qed.

Lemma wp_job_store_update j tr Q w :
  at_job w0 job_id l j tr w →
  (∀ ok w', at_job w0 job_id l j (tr ++ [j]) w' → Q (inr ok) w') →
  wp (job_store_update job_id l) Q w.
Proof.
  intros (Hh & Hs & evs & Hl & Hu) HQ. unfold wp, job_store_update.
  unfold mbind, M_bind, bind, gets, modify, ret. simpl.
  unfold JobStore.update. unfold JobStore.get in Hs. rewrite Hs. simpl.
  rewrite Hh. simpl. apply HQ. split; [done|]. split.
  - unfold JobStore.get. simpl. by rewrite lookup_insert_eq.
  - exists (evs ++ [EvUpdate job_id j]). simpl. rewrite Hl, app_assoc.
    split; [done|]. by rewrite updates_of_app, Hu.
Qed.

Lemma analyze_frame orch ctx ga ma w :
  let out := AIOrchestrator.analyze orch ctx ga ma w in
  heap out.2 = heap w ∧ job_store out.2 = job_store w
  ∧ ∃ evs, log out.2 = log w ++ evs ∧ updates_of evs = [].
Proof.
  analyze_cases orch ctx ga ma;
    (split; [done|split; [done|]]);
    rewrite <- ?app_assoc; eexists; (split; [first [reflexivity|symmetry; apply app_nil_r]|]);
    done.
Qed.

Lemma wp_analyze orch ctx ga ma j tr Q w :
  at_job w0 job_id l j tr w →
  (∀ r w', at_job w0 job_id l j tr w' → Q r w') →
  wp (AIOrchestrator.analyze orch ctx ga ma) Q w.
Proof.
  intros (Hh & Hs & evs & Hl & Hu) HQ. unfold wp. apply HQ.
  destruct (analyze_frame orch ctx ga ma w) as (H1 & H2 & evs' & H3 & H4).
  split; [by rewrite H1|]. split; [by rewrite H2|].
  exists (evs ++ evs'). rewrite H3, Hl, app_assoc. split; [done|].
  by rewrite updates_of_app, Hu, H4, app_nil_r.
Qed.

Lemma wp_cache_save f url v j tr Q w :
  at_job w0 job_id l j tr w →
  (∀ r w', at_job w0 job_id l j tr w' → Q r w') →
  wp (cache_save f url v) Q w.
Proof.
  intros H HQ. unfold wp, cache_save.
  destruct (DualCacheManager.save_raises f url); by apply HQ.
Qed.


Ltac close_leaf :=
  split; [done|]; eexists _, _; split; [eassumption|];
  split; [split; [repeat constructor; simpl; lia
                 |repeat constructor; simpl; naive_solver]
         |done].

Ltac fail_leaf H :=
  unfold pipeline_failed;
  apply wp_bind; eapply wp_set_job; [exact H|]; clear H; intros ? H; simpl in H;
  apply wp_bind; eapply wp_set_job; [exact H|]; clear H; intros ? H; simpl in H;
  apply wp_bind; eapply wp_job_store_update; [exact H|]; clear H; intros ? ? H;
  simpl in H; apply wp_ret; close_leaf.

Ltac set_step H :=
  apply wp_bind; eapply wp_set_job; [exact H|]; clear H; intros ? H; simpl in H.
Ltac update_step H :=
  apply wp_bind; eapply wp_job_store_update; [exact H|]; clear H; intros ? ? H;
  simpl in H.

Lemma wp_enrich (raw_links : json) (x : exn + json) Q w :
  (∀ v, Q (inr v) w) →
  wp (if truthy raw_links
      then try_except (lift x) (λ _, ret raw_links)
      else ret (JList [])) Q w.
Proof.
  intros HQ. destruct (truthy raw_links); [|apply HQ].
  apply wp_try, wp_lift; intros; apply HQ.
Qed.

Lemma pipeline_body_finishes orch url o id0 c0 w :
  at_job w0 job_id l (mkJobStatus id0 queued 0 None None c0) [] w →
  wp (try_except (pipeline_body orch job_id url l o) (pipeline_failed job_id l))
     (finished w0 job_id l (mkJobStatus id0 queued 0 None None c0)) w.
Proof.
  intros H. apply wp_try. unfold pipeline_body.
  set_step H. set_step H. update_step H.
  apply wp_bind, wp_lift; [intros context _|intros e _; fail_leaf H].
  set_step H. update_step H.
  apply wp_bind. eapply wp_analyze; [exact H|]. clear H.
  intros [e|llm_raw] ? H; [fail_leaf H|].
  set_step H. update_step H.
  apply wp_bind, wp_lift; [intros raw_links _|intros e _; fail_leaf H].
  apply wp_bind, wp_enrich. intros enriched_links.
  set_step H. update_step H.
  apply wp_bind, wp_lift; [intros res _|intros e _; fail_leaf H].
  set_step H. update_step H.
  apply wp_bind. eapply wp_cache_save; [exact H|]. clear H.
  intros [e|[]] ? H; [fail_leaf H|].
  set_step H. set_step H. set_step H. update_step H.
  apply wp_ret. close_leaf.
Qed.

End PipelineFacts.

Section PipelineClaims.
Import Main.

(** C9: whatever the collaborators of a pipeline run do, the run ends
    without raising, and over the job record as submitted followed by
    the record as each [job_store.update] leaves it, progress never
    goes down, the result is there exactly when the status is
    completed and the error exactly when it is failed; the object ends
    as the last update left it. *)
Theorem job_record_invariant orch job_id url o w l j0 :
  JobStore.get job_id (job_store w) = Some l →
  heap w !! l = Some j0 →
  status j0 = queued → progress j0 = 0 → result j0 = None → error j0 = None →
  let out := process_analysis_pipeline orch job_id url o w in
  out.1 = inr tt
  ∧ ∃ evs, log out.2 = log w ++ evs
           ∧ good_trace (j0 :: updates_of evs)
           ∧ heap out.2 !! l = last (j0 :: updates_of evs).
Proof.
  intros Hget Hheap Hs Hp Hr He.
  destruct j0 as [id0 s0 p0 r0 e0 c0]. simpl in *. subst.
  assert (at_job w job_id l (mkJobStatus id0 queued 0 None None c0) [] w) as Hat.
  { split; [done|]. split; [done|]. exists []. by rewrite app_nil_r. }
  pose proof (pipeline_body_finishes w job_id l orch url o id0 c0 w Hat) as Hwp.
  unfold process_analysis_pipeline, mbind, M_bind, bind, gets. simpl.
  rewrite Hget. unfold wp, finished in Hwp.
  destruct Hwp as (Hres & j & tr & (Hh & _ & evs & Hl & Hu) & Hgood & Hlast).
  split; [done|]. exists evs. rewrite Hu. split; [done|]. split; [done|].
  by rewrite Hlast.
Qed.

Lemma job_record_invariant_witness :
  (process_analysis_pipeline (AIOrchestrator.mk true true 120000 lim_demo)
     (uuid4 77) (py "https://redd.it/abc123")
     (mkOutcomes (inr ctx_demo) (inr (py "{}")) (inr (py "{}")) (inr (JList []))
        (λ _ _ _, inr R_demo) DualCacheManager.no_save_faults)
     (submit_analysis DualCacheManager.no_get_faults 77
        (mkAnalyzeRequest (py "https://redd.it/abc123") false false false)
        w_demo).2).1
  = inr tt.
Proof.
  refine (proj1 (job_record_invariant (AIOrchestrator.mk true true 120000 lim_demo)
                   (uuid4 77) (py "https://redd.it/abc123") _ _ 0%nat
                   (mkJobStatus (uuid4 77) queued 0 None None 2) _ _ _ _ _ _));
    vm_compute; reflexivity.
Defined.
End PipelineClaims.

Section SentinelFacts.
Import Main.

Lemma uuid4_length rnd : length (uuid4 rnd) = 36%nat.
Proof.
  unfold uuid4, slice. rewrite !length_app, !length_take, !length_drop.
  unfold hex32. rewrite length_map, length_seq. reflexivity.
Qed.

Lemma uuid4_not_sentinel rnd : uuid4 rnd ≠ cache_sentinel.
Proof.
  intros H. apply (f_equal length) in H. rewrite uuid4_length in H.
  discriminate H.
Qed.

Lemma keeps_bind k {A B} (c : M A) (f : A → M B) :
  keeps k c → (∀ a, keeps k (f a)) → keeps k (c ≫= f).
Proof.
  intros Hc Hf w Hw. unfold mbind, M_bind, bind.
  specialize (Hc w Hw). destruct (c w) as [[e|a] w']; [done|].
  by apply Hf.
Qed.

Lemma keeps_try k {A} (c : M A) (h : exn → M A) :
  keeps k c → (∀ e, keeps k (h e)) → keeps k (try_except c h).
Proof.
  intros Hc Hh w Hw. unfold try_except.
  specialize (Hc w Hw). destruct (c w) as [[e|a] w']; [|done].
  by apply Hh.
Qed.

Lemma keeps_ret k {A} (a : A) : keeps k (ret a).
Proof. by intros w. Qed.
Lemma keeps_raise k {A} e : keeps k (@raise A e).
Proof. by intros w. Qed.
Lemma keeps_lift k {A} (x : exn + A) : keeps k (lift x).
Proof. by destruct x; intros w. Qed.
Lemma keeps_gets k {A} (f : World → A) : keeps k (gets f).
Proof. by intros w. Qed.
Lemma keeps_time k : keeps k time_time.
Proof. by intros w. Qed.
Lemma keeps_modify k (f : World → World) :
  (∀ w, job_store (f w) = job_store w) → keeps k (modify f).
Proof. intros Hf w Hw. unfold untracked, modify. simpl. by rewrite Hf. Qed.

Lemma keeps_set_job k l f : keeps k (set_job l f).
Proof. by apply keeps_modify. Qed.

Lemma keeps_analyze k orch context ga ma :
  keeps k (AIOrchestrator.analyze orch context ga ma).
Proof.
  intros w Hw. unfold untracked.
  by destruct (analyze_frame orch context ga ma w) as (_ & -> & _).
Qed.

Lemma keeps_job_store_update k job_id l : keeps k (job_store_update job_id l).
Proof.
  intros w Hw. unfold job_store_update, mbind, M_bind, bind, gets, modify, ret.
  simpl. unfold untracked, JobStore.get, JobStore.update in *.
  destruct (JobStore._jobs (job_store w) !! job_id) eqn:E; simpl.
  - assert (job_id ≠ k) as Hne by (intros ->; congruence).
    destruct (heap w !! l); simpl; by rewrite lookup_insert_ne.
  - by destruct (heap w !! l).
Qed.

Lemma untracked_cleanup k now (s : JobStore.t loc) :
  JobStore.get k s = None → JobStore.get k (JobStore.cleanup now s).2 = None.
Proof. intros H. rewrite get_cleanup. by case_decide. Qed.

Lemma keeps_job_store_add k job_id l : job_id ≠ k → keeps k (job_store_add job_id l).
Proof.
  intros Hne w Hw. unfold job_store_add, mbind, M_bind, bind, time_time, modify.
  simpl. unfold untracked, JobStore.add. unfold JobStore.get at 1. simpl.
  rewrite lookup_insert_ne by done. by apply untracked_cleanup.
Qed.

Lemma keeps_job_store_stats k : keeps k job_store_stats.
Proof.
  intros w Hw. unfold job_store_stats, mbind, M_bind, bind, time_time, gets, modify.
  simpl. by apply untracked_cleanup.
Qed.

Lemma keeps_job_store_cleanup k : keeps k job_store_cleanup.
Proof.
  intros w Hw. unfold job_store_cleanup, mbind, M_bind, bind, time_time, gets, modify.
  simpl. by apply untracked_cleanup.
Qed.

Lemma keeps_cache_get k f url : keeps k (cache_get f url).
Proof.
  intros w Hw. unfold cache_get, mbind, M_bind, bind, time_time, gets, modify, ret.
  destruct (DualCacheManager.hash_raises url); [done|].
  simpl. by destruct (DualCacheManager.get _ _ _ _ _).
Qed.

Lemma keeps_cache_save k f url v : keeps k (cache_save f url v).
Proof.
  intros w Hw. unfold cache_save. by destruct (DualCacheManager.save_raises f url).
Qed.

Lemma keeps_new_job k j : keeps k (new_job j).
Proof. by intros w Hw. Qed.

Lemma keeps_get_job_status k job_id : keeps k (get_job_status job_id).
Proof.
  intros w Hw. unfold get_job_status, mbind, M_bind, bind, gets. simpl.
  by case_match.
Qed.

Lemma keeps_pipeline k orch job_id url o :
  keeps k (process_analysis_pipeline orch job_id url o).
Proof.
  unfold process_analysis_pipeline. apply keeps_bind; [apply keeps_gets|].
  intros s. destruct (JobStore.get job_id s) as [l|]; [|apply keeps_ret].
  apply keeps_try.
  - unfold pipeline_body.
    repeat (first [ apply keeps_ret | apply keeps_set_job | apply keeps_lift
                  | apply keeps_job_store_update | apply keeps_analyze
                  | apply keeps_cache_save
                  | apply keeps_bind; [|intros ?] ]).
    destruct (truthy _); [|apply keeps_ret].
    apply keeps_try; [apply keeps_lift|intros; apply keeps_ret].
  - intros e. unfold pipeline_failed.
    repeat (first [ apply keeps_ret | apply keeps_set_job
                  | apply keeps_job_store_update
                  | apply keeps_bind; [|intros ?] ]).
Qed.

Lemma keeps_submit f rnd request :
  keeps cache_sentinel (submit_analysis f rnd request).
Proof.
  unfold submit_analysis.
  destruct (negb (validate_reddit_url _)); [apply keeps_raise|].
  apply keeps_bind.
  { destruct (negb _); [apply keeps_cache_get|apply keeps_ret]. }
  intros cached.
  assert (keeps cache_sentinel
            (match cached with
             | Some v =>
                 if truthy v
                 then raise (mkExn ValueError
                               (py "result: Input should be a valid dictionary"))
                 else ret ()
             | None => ret ()
             end;;
             let job_id := uuid4 rnd in
             now ← utcnow;
             let job_status := mkJobStatus job_id queued 0 None None now in
             l ← new_job job_status;
             job_store_add job_id l;;
             modify (emit (EvSpawn job_id (req_url request)));;
             ret job_status)) as Hmiss.
  { apply keeps_bind.
    { destruct cached as [v|]; [|apply keeps_ret].
      destruct (truthy v); [apply keeps_raise|apply keeps_ret]. }
    intros _. simpl.
    apply keeps_bind; [apply keeps_time|intros now].
    apply keeps_bind; [apply keeps_new_job|intros l].
    apply keeps_bind; [apply keeps_job_store_add, uuid4_not_sentinel|intros _].
    apply keeps_bind; [by apply keeps_modify|intros _]. apply keeps_ret. }
  destruct cached as [[| | | | | |[|kv d]]|];
    first [exact Hmiss
          |apply keeps_bind; [apply keeps_time|intros now]; apply keeps_ret].
Qed.

Lemma keeps_perform a w :
  untracked cache_sentinel w → untracked cache_sentinel (perform w a).
Proof.
  intros Hw. destruct a; simpl.
  - by apply keeps_submit.
  - by apply keeps_pipeline.
  - by apply keeps_job_store_update.
  - by apply keeps_get_job_status.
  - by apply keeps_job_store_stats.
  - by apply keeps_job_store_cleanup.
Qed.

(** C10: after any sequence of submissions, pipeline runs, single
    updates, polls, statistics requests and sweeps on a freshly started
    service, polling the status of the sentinel id is answered with
    not-found; and a submission that answers with the sentinel id
    leaves the job store as it was. *)
Theorem sentinel_never_tracked acts ttl gl ml hot cold clk :
  let w := run_actions acts (startup ttl gl ml hot cold clk) in
  (get_job_status cache_sentinel w).1
  = inl (mkExn (HTTPException 404) (py "Job not found"))
  ∧ ∀ f rnd request j,
      (submit_analysis f rnd request w).1 = inr j →
      job_id j = cache_sentinel →
      job_store (submit_analysis f rnd request w).2 = job_store w.
Proof.
  intros w.
  assert (untracked cache_sentinel w) as Hw.
  { unfold w, run_actions. induction acts as [|a acts IH] using rev_ind; [done|].
    rewrite foldl_app. simpl. by apply keeps_perform. }
  split.
  - unfold get_job_status, mbind, M_bind, bind, gets. simpl.
    unfold untracked in Hw. by rewrite Hw.
  - intros f rnd request j. unfold submit_analysis.
    destruct (negb (validate_reddit_url _)); [done|].
    unfold mbind, M_bind, bind, utcnow, time_time, gets, modify, ret, raise.
    destruct (if negb (force_refresh request) then _ else _) as [[e|cached] w1] eqn:E;
      [done|].
    assert (job_store w1 = job_store w) as Hw1.
    { destruct (negb (force_refresh request)).
      - unfold cache_get, mbind, M_bind, bind, time_time, gets, modify, ret in E.
        destruct (DualCacheManager.hash_raises _) in E; [done|].
        simpl in E. destruct (DualCacheManager.get _ _ _ _ _) in E.
        by injection E as _ <-.
      - by injection E as _ <-. }
    destruct cached as [[| | | | | |[|kv d]]|]; simpl;
      repeat (match goal with
              | |- context [if ?b then _ else _] => destruct b
              end; simpl);
      try done;
      try (intros [= <-]; simpl; intros H; by apply uuid4_not_sentinel in H).
Qed.

(** A second submission of a URL whose analysis has been saved is
    answered with the sentinel id, and the job store stays as it was. *)
Lemma sentinel_never_tracked_witness :
  let w := run_actions demo_actions (startup 3600 150 8 86400 ∅ (λ n, Z.of_nat n)) in
  ∃ j, (submit_analysis DualCacheManager.no_get_faults 78 demo_request w).1 = inr j
       ∧ job_id j = cache_sentinel
       ∧ job_store (submit_analysis DualCacheManager.no_get_faults 78 demo_request w).2
         = job_store w.
Proof.
  intros w.
  exists (mkJobStatus cache_sentinel completed 100 (Some R_demo) None 10).
  assert ((submit_analysis DualCacheManager.no_get_faults 78 demo_request w).1
          = inr (mkJobStatus cache_sentinel completed 100 (Some R_demo) None 10)) as E.
  { vm_compute. reflexivity. }
  split; [exact E|]. split; [reflexivity|].
  exact (proj2 (sentinel_never_tracked demo_actions 3600 150 8 86400 ∅ (λ n, Z.of_nat n))
           DualCacheManager.no_get_faults 78%N demo_request _ E eq_refl).
Defined.
End SentinelFacts.

Section Sha256Facts.

(** The digest function agrees with the test vectors of the standard. *)
Example sha256_abc :
  Sha256.hexdigest (encode (py "abc"))
  = py "ba7816bf8f01cfea414140de5dae2223b00361a396177a9cb410ff61f20015ad".
Proof. vm_compute. reflexivity. Qed.

Example sha256_empty :
  Sha256.hexdigest []
  = py "e3b0c44298fc1c149afbf4c8996fb92427ae41e4649b934ca495991b7852b855".
Proof. vm_compute. reflexivity. Qed.

Example sha256_two_blocks :
  Sha256.hexdigest
    (encode (py "abcdbcdecdefdefgefghfghighijhijkijkljklmklmnlmnomnopnopq"))
  = py "248d6a61d20638b8e5c026930c3e6039a33ce45964ff2167f6ecedd419db06c1".
Proof. vm_compute. reflexivity. Qed.

End Sha256Facts.

Section JobStoreCalls.
Import JobStore.

Lemma not_expired_lookup {V} now (s : t V) k :
  ¬ is_expired now k s → get k (cleanup now s).2 = get k s.
Proof.
  intros H. rewrite get_cleanup. rewrite decide_False; [done|].
  by rewrite elem_of_expired.
Qed.

Lemma created_cleanup {V} now (s : t V) k :
  _created_at (cleanup now s).2 !! k
  = if decide (k ∈ expired now s) then None else _created_at s !! k.
Proof. unfold cleanup. simpl. apply foldl_delete_lookup. Qed.

(** X1: [add] then [get] finds the job that was added, stamped with the
    reading [add] took, whatever the store held and whatever the sweep
    of [add] removed; every other id that the sweep does not find
    expired keeps its job. *)
Theorem add_then_get {V} now now' job_id (st : V) (s : t V) :
  get job_id (add now now' job_id st s) = Some st
  ∧ _created_at (add now now' job_id st s) !! job_id = Some now'
  ∧ ∀ other, other ≠ job_id → ¬ is_expired now other s →
      get other (add now now' job_id st s) = get other s.
Proof.
  unfold add, get. simpl. rewrite !lookup_insert_eq. do 2 (split; [done|]).
  intros other Hne Hex. rewrite lookup_insert_ne by done.
  by apply (not_expired_lookup now s other).
Qed.

Lemma add_then_get_witness :
  get (py "b") (add 10 10 (py "a") queued (add 0 0 (py "b") failed (init None 3600)))
  = get (py "b") (add 0 0 (py "b") failed (init None 3600)).
Proof.
  refine (proj2 (proj2 (add_then_get 10 10 (py "a") queued
                          (add 0 0 (py "b") failed (init None 3600))))
            (py "b") _ _).
  - vm_compute. discriminate.
  - intros (c & Hc & Hlt). vm_compute in Hc. injection Hc as <-.
    vm_compute in Hlt. discriminate.
Defined.

(** X2: [update] of an id that is not in the store returns [False] and
    leaves the store as it was.  [update] of an id that is there
    returns [True] and replaces the job, and nothing else: every other
    id keeps its job, and the creation stamps are untouched, so the ids
    that a sweep finds expired are the same before and after: an update
    does not prolong a job. *)
Theorem update_keeps_stamps {V} job_id (st : V) (s : t V) :
  (get job_id s = None → update job_id st s = (false, s))
  ∧ (is_Some (get job_id s) →
       (update job_id st s).1 = true
       ∧ get job_id (update job_id st s).2 = Some st
       ∧ (∀ other, other ≠ job_id →
            get other (update job_id st s).2 = get other s)
       ∧ ∀ now, expired now (update job_id st s).2 = expired now s).
Proof.
  unfold update, get. split.
  - by intros ->.
  - intros [x ->]. simpl. rewrite lookup_insert_eq. do 2 (split; [done|]).
    split; [|done]. intros other Hne. by rewrite lookup_insert_ne.
Qed.

Lemma update_keeps_stamps_witness :
  update (py "a") completed (init None 3600) = (false, init None 3600 : t Status)
  ∧ expired 5000 (update (py "a") completed
                    (add 0 0 (py "a") queued (init None 3600))).2
    = expired 5000 (add 0 0 (py "a") queued (init None 3600)).
Proof.
  split.
  - refine (proj1 (update_keeps_stamps (py "a") completed (init None 3600)) _).
    vm_compute. reflexivity.
  - refine (proj2 (proj2 (proj2 (proj2 (update_keeps_stamps (py "a") completed
              (add 0 0 (py "a") queued (init None 3600))) _))) 5000).
    vm_compute. eexists. reflexivity.
Defined.

(** X3: [remove] returns whether the id was there; afterwards the id is
    in neither dict, every other id is where it was, and a second
    [remove] of the same id returns [False]. *)
Theorem remove_forgets {V} job_id (s : t V) :
  (remove job_id s).1 = bool_decide (is_Some (get job_id s))
  ∧ get job_id (remove job_id s).2 = None
  ∧ (is_Some (get job_id s) → _created_at (remove job_id s).2 !! job_id = None)
  ∧ (∀ other, other ≠ job_id →
       get other (remove job_id s).2 = get other s
       ∧ _created_at (remove job_id s).2 !! other = _created_at s !! other)
  ∧ (remove job_id (remove job_id s).2).1 = false.
Proof.
  unfold remove, get. destruct (_jobs s !! job_id) as [x|] eqn:E; simpl.
  - rewrite !lookup_delete_eq. simpl.
    split; [done|]. do 2 (split; [done|]).
    split; [|done]. intros other Hne. by rewrite !lookup_delete_ne.
  - rewrite E. simpl.
    split; [done|].
    split; [done|]. split; [by intros [? ?]|]. by split.
Qed.

Lemma in_sync_cleanup {V} now (s : t V) : in_sync s → in_sync (cleanup now s).2.
Proof.
  intros H k. unfold in_sync in *. fold (get k (cleanup now s).2).
  rewrite get_cleanup, created_cleanup. case_decide; [|apply H].
  split; by intros [? ?].
Qed.

Lemma in_sync_step {V} (status_of : V → Status) (s : t V) o : in_sync s → in_sync (job_step status_of s o).
Proof.
  intros H. destruct o as [now now' j st|j st|j|now|now|]; simpl.
  - intros k. unfold add. simpl. destruct (decide (k = j)) as [->|Hne].
    + rewrite !lookup_insert_eq. split; eauto.
    + rewrite !lookup_insert_ne by done. by apply in_sync_cleanup.
  - unfold update. destruct (_jobs s !! j) as [x|] eqn:E; [|done].
    intros k. simpl. destruct (decide (k = j)) as [->|Hne].
    + rewrite lookup_insert_eq. split; [intros _|eauto].
      apply H. eauto.
    + rewrite lookup_insert_ne by done. apply H.
  - unfold remove. destruct (_jobs s !! j) as [x|] eqn:E; [|done].
    intros k. simpl. destruct (decide (k = j)) as [->|Hne].
    + rewrite !lookup_delete_eq. split; by intros [? ?].
    + rewrite !lookup_delete_ne by done. apply H.
  - by apply in_sync_cleanup.
  - by apply in_sync_cleanup.
  - intros k. simpl. rewrite !lookup_empty. split; by intros [? ?].
Qed.

Lemma in_sync_init {V} ttl d : in_sync (init ttl d : t V).
Proof. intros k. simpl. rewrite !lookup_empty. split; by intros [? ?]. Qed.

(** X4: after any sequence of [add], [update], [remove], [cleanup],
    [stats] and [clear] calls on a new store, the dict of jobs and the
    dict of creation stamps hold the same ids: every job in the store
    has a stamp by which a sweep can find it, and no stamp outlives its
    job. *)
Theorem store_in_sync {V} (status_of : V → Status) ops ttl d job_id :
  let s := job_run status_of ops (init ttl d : t V) in
  is_Some (get job_id s) ↔ is_Some (_created_at s !! job_id).
Proof.
  intros s. revert job_id. change (in_sync s). unfold s, job_run.
  induction ops as [|o ops IH] using rev_ind; [apply in_sync_init|].
  rewrite foldl_app. simpl. by apply in_sync_step.
Qed.

Lemma size_foldl_delete {X} (ks : list pystr) (m : gmap pystr X) :
  NoDup ks → Forall (λ k, is_Some (m !! k)) ks →
  (size (foldl (λ m j, delete j m) m ks) + length ks = size m)%nat.
Proof.
  revert m. induction ks as [|k ks IH]; intros m Hnd Hin; cbn [foldl length].
  - lia.
  - apply NoDup_cons in Hnd as [Hk Hnd]. apply Forall_cons in Hin as [Hm Hin].
    assert (Forall (λ j, is_Some (delete k m !! j)) ks) as Hin'.
    { apply Forall_forall. intros j Hj. rewrite Forall_forall in Hin.
      rewrite lookup_delete_ne; [by apply Hin|]. by intros ->. }
    specialize (IH (delete k m) Hnd Hin').
    rewrite map_size_delete_Some in IH by done.
    assert (size m ≠ 0)%nat.
    { destruct Hm as [x Hx]. by eapply map_size_ne_0_lookup_2. }
    lia.
Qed.

Lemma expired_NoDup {V} now (s : t V) : NoDup (expired now s).
Proof.
  unfold expired. eapply NoDup_fmap_fst.
  - intros k x y Hx Hy.
    apply list_elem_of_filter in Hx as [_ Hx]. apply list_elem_of_filter in Hy as [_ Hy].
    apply elem_of_map_to_list in Hx, Hy. congruence.
  - apply NoDup_filter, NoDup_map_to_list.
Qed.

Lemma expired_after_cleanup {V} now (s : t V) : expired now (cleanup now s).2 = [].
Proof.
  destruct (expired now (cleanup now s).2) as [|k l] eqn:E; [done|exfalso].
  assert (k ∈ expired now (cleanup now s).2) as Hk by (rewrite E; left).
  apply elem_of_expired in Hk as (c & Hc & Hlt).
  rewrite created_cleanup in Hc. case_decide as Hin; [done|].
  apply Hin. apply elem_of_expired. by exists c.
Qed.

(** X5: on a store whose two dicts hold the same ids, [cleanup] returns
    the number of jobs that it removes; no job that is left is expired
    at the reading it took, and a second sweep at the same reading
    returns 0 and changes nothing. *)
Theorem cleanup_counts_removed {V} now (s : t V) :
  in_sync s →
  (cleanup now s).1 = Z.of_nat (size (_jobs s)) - Z.of_nat (size (_jobs (cleanup now s).2))
  ∧ (∀ k, ¬ is_expired now k (cleanup now s).2)
  ∧ cleanup now (cleanup now s).2 = (0, (cleanup now s).2).
Proof.
  intros Hsync. split; [|split].
  - unfold cleanup. simpl.
    pose proof (size_foldl_delete (expired now s) (_jobs s) (expired_NoDup now s)) as Hsz.
    rewrite <- Hsz; [lia|].
    apply Forall_forall. intros k Hk. apply Hsync.
    apply elem_of_expired in Hk as (c & Hc & _). eauto.
  - intros k Hk. apply elem_of_expired in Hk.
    rewrite expired_after_cleanup in Hk. by apply elem_of_nil in Hk.
  - unfold cleanup at 1. rewrite expired_after_cleanup. simpl.
    by destruct (cleanup now s).2.
Qed.

Lemma cleanup_counts_removed_witness :
  (cleanup 5000 (add 4000 4000 (py "b") failed
                   (add 0 0 (py "a") queued (init None 3600)))).1
  = Z.of_nat (size (_jobs (add 4000 4000 (py "b") failed
                             (add 0 0 (py "a") queued (init None 3600)))))
    - Z.of_nat (size (_jobs (cleanup 5000
                               (add 4000 4000 (py "b") failed
                                  (add 0 0 (py "a") queued (init None 3600)))).2)).
Proof.
  refine (proj1 (cleanup_counts_removed 5000
                   (add 4000 4000 (py "b") failed
                      (add 0 0 (py "a") queued (init None 3600))) _)).
  apply (in_sync_step (λ x, x) _ (JAdd 4000 4000 (py "b") failed)).
  apply (in_sync_step (λ x, x) _ (JAdd 0 0 (py "a") queued)).
  apply in_sync_init.
Defined.

Lemma count_by_status {V} (status_of : V → Status) (l : list (pystr * V)) :
  (length (filter (λ p : pystr * V, status_of p.2 = queued) l)
   + length (filter (λ p : pystr * V, status_of p.2 = processing) l)
   + length (filter (λ p : pystr * V, status_of p.2 = completed) l)
   + length (filter (λ p : pystr * V, status_of p.2 = failed) l)
   = length l)%nat.
Proof.
  induction l as [|[k x] l IH]; [done|].
  rewrite !filter_cons. simpl. destruct (status_of x);
    repeat (case_decide; simplify_eq); simpl; lia.
Qed.

(** X6: the counts that [stats] returns add up: the total is the sum of
    the counts of the four states, it is the number of jobs in the
    store once [stats] has swept, and none of the jobs counted is
    expired at the reading [stats] took. *)
Theorem stats_add_up {V} (status_of : V → Status) now (s : t V) :
  let c := (stats status_of now s).1 in
  let s' := (stats status_of now s).2 in
  n_total c = n_queued c + n_processing c + n_completed c + n_failed c
  ∧ n_total c = Z.of_nat (size (_jobs s'))
  ∧ s' = (cleanup now s).2
  ∧ ∀ k, ¬ is_expired now k s'.
Proof.
  intros c s'. subst c s'. unfold stats.
  pose proof (expired_after_cleanup now s) as Hex.
  set (s1 := (cleanup now s).2) in *.
  cbn [fst snd n_total n_queued n_processing n_completed n_failed].
  split; [|split; [done|split; [done|]]].
  - unfold count_status.
    pose proof (count_by_status status_of (map_to_list (_jobs s1))) as H.
    rewrite length_map_to_list in H. lia.
  - intros k Hk. apply elem_of_expired in Hk.
    rewrite Hex in Hk. by apply elem_of_nil in Hk.
Qed.

End JobStoreCalls.

Section RateLimitProtocol.
Import RateLimitManager.

Lemma clean_length w now h : (length (_clean_history w now h) ≤ length h)%nat.
Proof. apply sublist_length, clean_sublist. Qed.

Lemma deque_append_length n x h :
  (length h ≤ n)%nat → (length (deque_append n x h) ≤ n)%nat.
Proof.
  intros H. unfold deque_append. rewrite length_app. simpl.
  destruct (Nat.ltb_spec n (length h + 1)).
  - rewrite length_drop, length_app. simpl. lia.
  - rewrite length_app. simpl. lia.
Qed.

Lemma history_bounded_step p s o :
  (length (history p s) ≤ maxlen p)%nat →
  (length (history p (step s o)) ≤ maxlen p)%nat.
Proof.
  intros H. destruct o as [[] now|[] now|now now'], p; simpl in *;
    try done;
    try (etrans; [apply clean_length|done]);
    by apply deque_append_length.
Qed.

(** X7: whatever calls are made and whatever the limits are, a window
    never holds more timestamps than the bound of its deque, 500 for
    Groq and 100 for Gemini; and what [get_stats] reports as used and as
    available adds up to the limit, so that the available count is
    negative when more calls were recorded than the limit allows. *)
Theorem window_bounded ops gl ml now now' :
  let s := run ops (init gl ml) in
  (length (history Groq s) ≤ 500)%nat
  ∧ (length (history Gemini s) ≤ 100)%nat
  ∧ let r := (get_stats now now' s).1 in
    groq_used r + groq_available r = gl
    ∧ gemini_used r + gemini_available r = ml
    ∧ 0 ≤ groq_used r ≤ 500 ∧ 0 ≤ gemini_used r ≤ 100.
Proof.
  intros s.
  assert (∀ p, (length (history p s) ≤ maxlen p)%nat
               ∧ limit_rpm p s = limit_rpm p (init gl ml)) as H.
  { intros p. unfold s, run. induction ops as [|o ops [IH1 IH2]] using rev_ind.
    - split; [|done]. destruct p; simpl; lia.
    - rewrite foldl_app. cbn [foldl]. split; [by apply history_bounded_step|].
      rewrite <- IH2. by destruct o as [[] ?|[] ?|? ?], p. }
  pose proof (H Groq) as [Hq Lq]. pose proof (H Gemini) as [Hm Lm].
  simpl in Hq, Hm, Lq, Lm. unfold groq_maxlen, gemini_maxlen in *.
  do 2 (split; [done|]). simpl.
  pose proof (clean_length (_window_seconds s) now (_groq_history s)).
  pose proof (clean_length (_window_seconds s) now' (_gemini_history s)).
  rewrite Lq, Lm. lia.
Qed.

Lemma filter_none_below (c : Z) (l : list Z) :
  Forall (λ x, x < c) l → filter (λ t, c ≤ t) l = [].
Proof.
  induction 1 as [|x l Hx _ IH]; [done|].
  rewrite filter_cons. case_decide; [lia|done].
Qed.

Lemma filter_all_above (c : Z) (l : list Z) :
  Forall (λ x, c ≤ x) l → filter (λ t, c ≤ t) l = l.
Proof.
  induction 1 as [|x l Hx _ IH]; [done|].
  rewrite filter_cons. case_decide; [by rewrite IH|lia].
Qed.

Lemma calls_of_app p a b : calls_of p (a ++ b) = calls_of p a ++ calls_of p b.
Proof. apply omap_app. Qed.

Lemma sorted_snoc (l : list Z) (x : Z) :
  StronglySorted Z.le l → Forall (λ y, y ≤ x) l → StronglySorted Z.le (l ++ [x]).
Proof.
  intros Hs Hb. apply StronglySorted_app_2; [|done|repeat constructor].
  intros y z Hy ->%list_elem_of_singleton. rewrite Forall_forall in Hb. by apply Hb.
Qed.

(** The window after a cleaning at [now]: what is left of the recorded
    calls is what is at most sixty seconds old. *)
Lemma window_after_clean p ub now s s' calls :
  window_tracks p ub (s, calls) → ub ≤ now →
  history p s' = _clean_history 60 now (history p s) →
  window_tracks p now (s', calls)
  ∧ filter (λ t, now - 60 ≤ t) (calls_of p calls) = history p s'.
Proof.
  intros (Hs & Hb & old & Heq & Hold) Hle Hh. simpl in *.
  destruct (popleft_while_suffix (now - 60) (history p s)) as (popped & Hp & Hpop).
  fold (_clean_history 60 now (history p s)) in Hp. rewrite <- Hh in Hp.
  assert (Forall (λ x, now - 60 ≤ x ≤ now) (history p s')) as Hin.
  { rewrite Hh. apply clean_within_window. split.
    - rewrite Heq in Hs. by apply StronglySorted_app_1_r in Hs.
    - rewrite Heq in Hb. apply Forall_app in Hb as [_ Hb].
      eapply Forall_impl; [done|]. simpl. lia. }
  assert (Forall (λ x, x < now - 60) (old ++ popped)) as Hold'.
  { apply Forall_app. split; [|done]. eapply Forall_impl; [done|]. simpl. lia. }
  assert (calls_of p calls = (old ++ popped) ++ history p s') as Heq'.
  { by rewrite <- app_assoc, <- Hp. }
  split.
  - split; [done|]. split.
    + eapply Forall_impl; [done|]. simpl. lia.
    + by exists (old ++ popped).
  - rewrite Heq', filter_app, filter_none_below by done. simpl.
    apply filter_all_above. eapply Forall_impl; [done|]. simpl. lia.
Qed.

Lemma window_later p ub ub' s s' calls :
  window_tracks p ub (s, calls) → ub ≤ ub' →
  history p s' = history p s →
  window_tracks p ub' (s', calls).
Proof.
  intros (Hs & Hb & old & Heq & Hold) Hle Hh. simpl in *.
  unfold window_tracks. simpl. split; [done|]. split.
  - eapply Forall_impl; [done|]. simpl. lia.
  - exists old. rewrite Hh. split; [done|].
    eapply Forall_impl; [done|]. simpl. lia.
Qed.

Lemma window_record p ub now' s calls :
  window_tracks p ub (s, calls) → ub ≤ now' →
  (length (history p s) < maxlen p)%nat →
  window_tracks p now' (record_usage p now' s, calls ++ [(p, now')]).
Proof.
  intros (Hs & Hb & old & Heq & Hold) Hle Hlen. simpl in *.
  assert (calls_of p (calls ++ [(p, now')]) = calls_of p calls ++ [now']) as Hc.
  { rewrite calls_of_app. f_equal. unfold calls_of. simpl. by destruct p. }
  assert (history p (record_usage p now' s) = history p s ++ [now']) as Hh.
  { destruct p; simpl in *; unfold deque_append; rewrite length_app; simpl;
      (case_match eqn:E; [apply Nat.ltb_lt in E; lia|done]). }
  assert (Forall (λ y, y ≤ now') (calls_of p calls)) as Hb'.
  { eapply Forall_impl; [done|]. simpl. lia. }
  unfold window_tracks. simpl. rewrite Hc, Hh. split; [by apply sorted_snoc|]. split.
  - apply Forall_app. split; [done|]. by repeat constructor.
  - exists old. rewrite Heq, <- app_assoc. split; [done|].
    eapply Forall_impl; [done|]. simpl. lia.
Qed.

Lemma history_other p q now s :
  same_provider q p = false → history p (can_use q now s).2 = history p s.
Proof. by destruct p, q. Qed.

Lemma record_other p q now s :
  same_provider q p = false → history p (record_usage q now s) = history p s.
Proof. by destruct p, q. Qed.

Lemma calls_of_other p q now calls :
  same_provider q p = false → calls_of p (calls ++ [(q, now)]) = calls_of p calls.
Proof.
  intros H. rewrite calls_of_app. unfold calls_of at 2. simpl. rewrite H.
  apply app_nil_r.
Qed.

Lemma same_provider_eq p q : same_provider q p = true → q = p.
Proof. by destruct p, q. Qed.

Lemma guarded_step_tracks p limit ub st o tail :
  limit ≤ Z.of_nat (maxlen p) →
  window_tracks p ub st → same_settings p limit st →
  StronglySorted Z.le (ub :: guarded_readings o ++ tail) →
  ∃ ub', window_tracks p ub' (guarded_step st o)
         ∧ same_settings p limit (guarded_step st o)
         ∧ StronglySorted Z.le (ub' :: tail).
Proof.
  intros Hmax Ht [Hw Hl] Hs. destruct st as [s calls]. simpl in Hw, Hl.
  destruct o as [q now now'|q now|now now']; simpl in Hs.
  - apply StronglySorted_inv in Hs as [Hs Hub].
    apply Forall_cons in Hub as [Hub1 Hub]. apply Forall_cons in Hub as [Hub2 _].
    apply StronglySorted_inv in Hs as [Hs Hnow].
    apply Forall_cons in Hnow as [Hnow _].
    exists now'. split; [|split; [|done]].
    + simpl. destruct (can_use_spec q now s) as (E & Hh & Hlq & Hwq).
      destruct (can_use q now s) as [ok s1] eqn:Ec. simpl in *.
      destruct (same_provider q p) eqn:Hqp.
      * apply same_provider_eq in Hqp as ->.
        destruct (window_after_clean p ub now s s1 calls Ht Hub1) as [Ht1 _].
        { by rewrite Hh, Hw. }
        destruct ok.
        -- apply (window_record p now now' s1 calls); [done|done|].
           injection E as E. symmetry in E. apply Z.ltb_lt in E.
           rewrite <- Hh in E. lia.
        -- by eapply (window_later p now now' s1).
      * pose proof (history_other p q now s Hqp) as Ho. rewrite Ec in Ho. simpl in Ho.
        destruct ok.
        -- destruct Ht as (H1 & H2 & old & H3 & H4). simpl in *.
           unfold window_tracks. simpl.
           rewrite calls_of_other, record_other, Ho by done.
           split; [done|]. split.
           ++ eapply Forall_impl; [done|]. simpl. lia.
           ++ exists old. split; [done|]. eapply Forall_impl; [done|]. simpl. lia.
        -- by eapply window_later.
    + unfold same_settings. simpl.
      destruct (can_use q now s) as [ok s1] eqn:Ec.
      assert (_window_seconds s1 = 60 ∧ limit_rpm p s1 = limit) as [? ?].
      { replace s1 with (can_use q now s).2 by by rewrite Ec. by destruct p, q. }
      destruct ok; simpl; [|done]. by destruct p, q.
  - apply StronglySorted_inv in Hs as [Hs Hub].
    apply Forall_cons in Hub as [Hub1 _].
    exists now. split; [|split; [|done]].
    + simpl. destruct (same_provider q p) eqn:Hqp.
      * apply same_provider_eq in Hqp as ->.
        destruct (can_use_spec p now s) as (_ & Hh & _ & _).
        eapply (window_after_clean p ub now s); [done|done|]. by rewrite Hh, Hw.
      * eapply window_later; [done|done|]. by apply history_other.
    + unfold same_settings. simpl. by destruct p, q.
  - apply StronglySorted_inv in Hs as [Hs Hub].
    apply Forall_cons in Hub as [Hub1 Hub]. apply Forall_cons in Hub as [Hub2 _].
    apply StronglySorted_inv in Hs as [Hs Hnow].
    apply Forall_cons in Hnow as [Hnow _].
    exists now'. split; [|split; [|done]].
    + simpl. destruct p.
      * eapply (window_later Groq now); [|done|reflexivity].
        eapply (window_after_clean Groq ub now s); [done|done|]. simpl. by rewrite Hw.
      * eapply (window_after_clean Gemini ub now' s); [done|done|]. simpl. by rewrite Hw.
    + unfold same_settings. simpl. by destruct p.
Qed.

Lemma guarded_run_tracks p limit ops ub st tail :
  limit ≤ Z.of_nat (maxlen p) →
  window_tracks p ub st → same_settings p limit st →
  StronglySorted Z.le (ub :: (ops ≫= guarded_readings) ++ tail) →
  ∃ ub', window_tracks p ub' (guarded_run ops st)
         ∧ same_settings p limit (guarded_run ops st)
         ∧ StronglySorted Z.le (ub' :: tail).
Proof.
  intros Hmax. revert ub st. induction ops as [|o ops IH]; intros ub st Ht Hp Hs.
  - by exists ub.
  - rewrite bind_cons, <- app_assoc in Hs.
    destruct (guarded_step_tracks p limit ub st o _ Hmax Ht Hp Hs)
      as (ub1 & Ht1 & Hp1 & Hs1).
    by apply (IH ub1 (guarded_step st o)).
Qed.

(** X8: the limiter counts what it should.  Let a call be recorded only
    after a check that admitted it, let the clock never go back, and let
    the limit of the provider be no larger than the bound of its deque.
    Then an admission check admits exactly when fewer calls than the
    limit were recorded for the provider in the sixty seconds up to the
    check: no more than the limit are ever admitted in such a window. *)
Theorem admits_iff_under_limit ops p now gl ml :
  StronglySorted Z.le ((ops ≫= guarded_readings) ++ [now]) →
  limit_rpm p (init gl ml) ≤ Z.of_nat (maxlen p) →
  let st := guarded_run ops (init gl ml, []) in
  let recent := filter (λ t, now - 60 ≤ t) (calls_of p st.2) in
  (can_use p now st.1).1
  = bool_decide (Z.of_nat (length recent) < limit_rpm p (init gl ml)).
Proof.
  intros Hs Hmax st recent.
  assert (∃ lo, StronglySorted Z.le (lo :: (ops ≫= guarded_readings) ++ [now]))
    as [lo Hlo].
  { destruct ((ops ≫= guarded_readings) ++ [now]) as [|x l] eqn:E.
    - exists 0. repeat constructor.
    - exists x. constructor; [done|]. constructor; [lia|].
      by apply StronglySorted_inv in Hs as [_ ?]. }
  destruct (guarded_run_tracks p (limit_rpm p (init gl ml)) ops lo (init gl ml, [])
              [now] Hmax) as (ub & Ht & [Hw Hl] & Hub); [| |done|].
  { split; [constructor|]. split; [constructor|]. exists []. by destruct p. }
  { split; [done|]. by destruct p. }
  fold st in Ht, Hw, Hl. destruct st as [s calls]. simpl in *.
  apply StronglySorted_inv in Hub as [_ Hub]. apply Forall_cons in Hub as [Hub _].
  destruct (can_use_spec p now s) as (E & Hh & _ & _).
  destruct (window_after_clean p ub now s (can_use p now s).2 calls Ht Hub) as [_ Hf].
  { by rewrite Hh, Hw. }
  unfold recent. rewrite Hf, Hh, <- Hl. rewrite E at 1. simpl.
  rewrite Hw.
  destruct (Z.ltb_spec
              (Z.of_nat (length (_clean_history 60 now (history p s))))
              (limit_rpm p s)).
  - by rewrite bool_decide_eq_true_2.
  - rewrite bool_decide_eq_false_2; [done|lia].
Qed.

Lemma admits_iff_under_limit_witness :
  (can_use Gemini 70
     (guarded_run [Acquire Gemini 0 1; Acquire Gemini 20 21; Acquire Gemini 30 31]
        (init 150 2, [])).1).1
  = bool_decide
      (Z.of_nat (length (filter (λ t, 70 - 60 ≤ t)
                           (calls_of Gemini
                              (guarded_run
                                 [Acquire Gemini 0 1; Acquire Gemini 20 21; Acquire Gemini 30 31]
                                 (init 150 2, [])).2)))
       < limit_rpm Gemini (init 150 2)).
Proof.
  refine (admits_iff_under_limit
            [Acquire Gemini 0 1; Acquire Gemini 20 21; Acquire Gemini 30 31]
            Gemini 70 150 2 _ _).
  - repeat constructor; lia.
  - vm_compute. discriminate.
Defined.

Lemma time_time_run w :
  time_time w = (inr (clock w (ticks w)), set_ticks (S (ticks w)) w).
Proof. done. Qed.

Lemma limiter_can_use_run p w :
  limiter_can_use p w
  = (inr (can_use p (clock w (ticks w)) (rate_limiter w)).1,
     set_rate_limiter (can_use p (clock w (ticks w)) (rate_limiter w)).2
       (set_ticks (S (ticks w)) w)).
Proof.
  unfold limiter_can_use, mbind, M_bind, bind, time_time, gets, modify, ret. simpl.
  by destruct (can_use p (clock w (ticks w)) (rate_limiter w)).
Qed.

Lemma wait_loop_returns p timeout start fuel w :
  (∀ n, clock w n + 1 ≤ clock w (S (S n))) →
  1 ≤ Z.of_nat fuel →
  timeout - (clock w (ticks w) - start) < Z.of_nat fuel →
  ∃ b w', wait_loop p timeout start fuel w = (inr (Some b), w')
    ∧ clock w' = clock w
    ∧ (ticks w < ticks w')%nat
    ∧ (b = true →
       (ticks w + 2 ≤ ticks w')%nat
       ∧ clock w (ticks w' - 2) - start < timeout
       ∧ Z.of_nat (length (history p (rate_limiter w'))) < limit_rpm p (rate_limiter w'))
    ∧ (b = false → timeout ≤ clock w (ticks w' - 1) - start).
Proof.
  intros Hadv. revert w Hadv.
  induction fuel as [|fuel IH]; intros w Hadv Hone Hfuel; [lia|].
  cbn [wait_loop]. unfold mbind at 1, M_bind at 1, bind at 1.
  rewrite time_time_run.
  destruct (Z.ltb_spec (clock w (ticks w) - start) timeout) as [Hlt|Hge].
  - unfold mbind at 1, M_bind at 1, bind at 1. rewrite limiter_can_use_run.
    set (w1 := set_ticks (S (ticks w)) w).
    destruct (can_use_spec p (clock w1 (ticks w1)) (rate_limiter w1))
      as (E & Hh & Hl & _).
    destruct (can_use p (clock w1 (ticks w1)) (rate_limiter w1)) as [ok rl] eqn:Ec.
    simpl in E, Hh, Hl. cbn [fst snd]. destruct ok.
    + eexists true, _. split; [reflexivity|]. split; [done|].
      split; [simpl; lia|]. split; [|done].
      intros _. split; [simpl; lia|]. split.
      * simpl. by rewrite ?Nat.sub_0_r.
      * simpl. rewrite Hh, Hl. injection E as E. symmetry in E.
        by apply Z.ltb_lt in E.
    + set (w2 := set_rate_limiter rl (set_ticks (S (ticks w1)) w1)).
      destruct (IH w2) as (b & w' & Hrun & Hclk & Htk & Ht & Hf).
      * exact Hadv.
      * lia.
      * simpl. specialize (Hadv (ticks w)). lia.
      * exists b, w'. rewrite Hrun. split; [done|]. split; [done|].
        simpl in Htk. split; [lia|]. split.
        -- intros Hb. destruct (Ht Hb) as (H1 & H2 & H3). simpl in H1.
           split; [lia|]. by split.
        -- exact Hf.
  - eexists false, _. split; [reflexivity|]. split; [done|].
    split; [simpl; lia|]. split; [done|].
    intros _. simpl. by rewrite ?Nat.sub_0_r.
Qed.

(** X9: [wait_for_groq] and [wait_for_gemini] return.  On a clock that
    never goes back and on which a round of the loop, with its sleep,
    takes a second or more, the wait ends within [timeout] rounds and
    one more.  It returns [False] only on a reading of the clock, the
    last one it takes, that is [timeout] seconds or more after the
    reading it started with; it returns [True] only when the reading
    that let the last round in was less than [timeout] seconds after
    the start and the window of the provider holds fewer timestamps
    than the limit; with a timeout that is not positive it returns
    [False] on its second reading and the limiter is not consulted. *)
Theorem wait_for_returns p timeout fuel w :
  (∀ n, clock w n ≤ clock w (S n)) →
  (∀ n, clock w n + 1 ≤ clock w (S (S n))) →
  (Z.to_nat timeout < fuel)%nat →
  ∃ b w', wait_for p timeout fuel w = (inr (Some b), w')
    ∧ (ticks w + 2 ≤ ticks w')%nat
    ∧ (b = true →
       (ticks w + 3 ≤ ticks w')%nat
       ∧ clock w (ticks w' - 2) - clock w (ticks w) < timeout
       ∧ Z.of_nat (length (history p (rate_limiter w'))) < limit_rpm p (rate_limiter w'))
    ∧ (b = false → timeout ≤ clock w (ticks w' - 1) - clock w (ticks w))
    ∧ (timeout ≤ 0 →
       b = false ∧ ticks w' = (ticks w + 2)%nat ∧ rate_limiter w' = rate_limiter w).
Proof.
  intros Hmono Hadv Hfuel. unfold wait_for, mbind, M_bind, bind.
  rewrite time_time_run. set (w1 := set_ticks (S (ticks w)) w).
  destruct (wait_loop_returns p timeout (clock w (ticks w)) fuel w1)
    as (b & w' & Hrun & Hclk & Htk & Ht & Hf).
  - exact Hadv.
  - lia.
  - simpl. specialize (Hmono (ticks w)). lia.
  - exists b, w'. split; [done|]. simpl in Htk. split; [lia|]. split.
    { intros Hb. destruct (Ht Hb) as (H1 & H2 & H3). simpl in H1.
      split; [lia|]. by split. }
    split; [done|].
    intros Hle. destruct fuel as [|fuel]; [lia|].
    cbn [wait_loop] in Hrun. unfold mbind at 1, M_bind at 1, bind at 1 in Hrun.
    rewrite time_time_run in Hrun.
    destruct (Z.ltb_spec (clock w1 (ticks w1) - clock w (ticks w)) timeout) as [Hlt|Hge].
    + simpl in Hlt. specialize (Hmono (ticks w)). lia.
    + injection Hrun as <- <-. repeat split. simpl. lia.
Qed.

Lemma wait_for_returns_witness :
  ∃ b w', wait_for Groq 60 61 w_demo = (inr (Some b), w')
          ∧ (ticks w_demo + 2 ≤ ticks w')%nat.
Proof.
  destruct (wait_for_returns Groq 60 61 w_demo) as (b & w' & H & Htk & _).
  - intros n. simpl. lia.
  - intros n. simpl. lia.
  - vm_compute. lia.
  - by exists b, w'.
Defined.

(** A limiter that refuses all along: the wait gives up on the reading
    that is sixty seconds after the first, having asked the limiter on
    every round before. *)
Lemma wait_for_gives_up :
  let w := set_rate_limiter (RateLimitManager.init 0 0) w_demo in
  (wait_for Groq 60 61 w).1 = inr (Some false)
  ∧ ticks (wait_for Groq 60 61 w).2 = 62%nat
  ∧ clock w 61 - clock w 0 = 61.
Proof. vm_compute. by repeat split. Qed.

End RateLimitProtocol.

Section CacheTiers.
Import DualCacheManager.

(** X10: an entry written by [setex] at [now] is returned by [get] at
    [now'] exactly when less than the TTL of the cache has gone by
    between the two readings; otherwise [get] returns nothing and the
    cache is as if the key had been deleted.  The [ttl] that [setex] is
    given plays no part. *)
Theorem setex_then_get now now' key ttl value s :
  InMemoryCache.get now' key (InMemoryCache.setex now key ttl value s)
  = if now' - now <? InMemoryCache._ttl s
    then (Some value, InMemoryCache.setex now key ttl value s)
    else (None, InMemoryCache.delete key s).
Proof.
  unfold InMemoryCache.get, InMemoryCache.setex, InMemoryCache.delete. simpl.
  rewrite lookup_insert_eq. case_match; [done|]. by rewrite delete_insert_eq.
Qed.

Lemma live_iff now ttl (ts : Z) : (now - ts <? ttl) = true ↔ ¬ (ttl ≤ now - ts).
Proof. rewrite Z.ltb_lt. lia. Qed.

(** X11: [dbsize] counts the entries that [get] would still return at
    the same reading, and its sweep takes away the others only: a key
    is in the cache afterwards exactly when [get] returns something for
    it, what [get] returns is the same before and after, and the count
    is the number of keys that are left. *)
Theorem dbsize_counts_live now s :
  let n := (InMemoryCache.dbsize now s).1 in
  let s' := (InMemoryCache.dbsize now s).2 in
  n = Z.of_nat (size (InMemoryCache._data s'))
  ∧ ∀ key,
      (is_Some (InMemoryCache._data s' !! key)
       ↔ is_Some (InMemoryCache.get now key s).1)
      ∧ (InMemoryCache.get now key s').1 = (InMemoryCache.get now key s).1.
Proof.
  simpl. split; [done|]. intros key.
  unfold InMemoryCache.get, InMemoryCache._cleanup. simpl.
  destruct (InMemoryCache._data s !! key) as [[ts v]|] eqn:E.
  - destruct (now - ts <? InMemoryCache._ttl s) eqn:Hlive; simpl.
    + assert (filter (λ kv : pystr * (Z * pystr),
                        ¬ (InMemoryCache._ttl s ≤ now - kv.2.1))
                     (InMemoryCache._data s) !! key = Some (ts, v)) as ->.
      { apply map_lookup_filter_Some. split; [done|]. simpl. by apply live_iff. }
      rewrite Hlive. simpl. split; [|done]. split; eauto.
    + assert (filter (λ kv : pystr * (Z * pystr),
                        ¬ (InMemoryCache._ttl s ≤ now - kv.2.1))
                     (InMemoryCache._data s) !! key = None) as ->.
      { apply map_lookup_filter_None. right. intros x Hx. simplify_eq. simpl.
        intros Hn. apply live_iff in Hn. congruence. }
      simpl. split; [|done]. split; by intros [? ?].
  - assert (filter (λ kv : pystr * (Z * pystr),
                      ¬ (InMemoryCache._ttl s ≤ now - kv.2.1))
                   (InMemoryCache._data s) !! key = None) as ->.
    { apply map_lookup_filter_None. by left. }
    simpl. split; [|done]. split; by intros [? ?].
Qed.

(** X12: after [invalidate] has deleted from both tiers, a [get] of the
    same URL, in any spelling with the same normalized form, is a miss
    whatever faults it meets, and changes nothing; the rows and entries
    stored under other keys are where they were. *)
Theorem invalidate_then_miss f now now' u u' s :
  normalize u' = normalize u →
  let s' := invalidate (mkInvalidateFaults false false) u s in
  get f now now' u' s' = (None, s')
  ∧ ∀ key, key ≠ _hash_url u →
      _cold s' !! key = _cold s !! key
      ∧ InMemoryCache._data (_hot s') !! key = InMemoryCache._data (_hot s) !! key.
Proof.
  intros Hn s'. split.
  - assert (_hash_url u' = _hash_url u) as Hk by (unfold _hash_url; by rewrite Hn).
    unfold get. rewrite Hk. unfold s', invalidate. simpl.
    unfold InMemoryCache.get, InMemoryCache.delete. simpl.
    rewrite !lookup_delete_eq. simpl.
    destruct (hot_read_fails f), (cold_read_fails f); simpl; try done;
      by rewrite ?lookup_delete_eq.
  - intros key Hne. unfold s', invalidate. simpl.
    by rewrite !lookup_delete_ne.
Qed.

Lemma invalidate_then_miss_witness :
  get no_get_faults 20 20 (py " HTTPS://redd.it/abc/ ")
    (invalidate (mkInvalidateFaults false false) (py "https://redd.it/abc")
       (save no_save_faults 5 (py "https://redd.it/abc") R_demo (init 86400)))
  = (None,
     invalidate (mkInvalidateFaults false false) (py "https://redd.it/abc")
       (save no_save_faults 5 (py "https://redd.it/abc") R_demo (init 86400))).
Proof.
  refine (proj1 (invalidate_then_miss no_get_faults 20 20 (py "https://redd.it/abc")
                   (py " HTTPS://redd.it/abc/ ")
                   (save no_save_faults 5 (py "https://redd.it/abc") R_demo (init 86400))
                   _)).
  vm_compute. reflexivity.
Defined.

(** X13: a hit in the volatile tier is answered from it alone.  When
    the volatile tier holds, under the key of the URL, a text that is
    not empty, younger than the TTL and valid JSON, [get] returns its
    value and leaves both tiers as they are: the durable row is not
    read, and its access count does not move. *)
Theorem hot_hit_skips_durable f now now' u s ts text v :
  hot_read_fails f = false →
  InMemoryCache._data (_hot s) !! _hash_url u = Some (ts, text) →
  now - ts < InMemoryCache._ttl (_hot s) →
  text ≠ [] →
  Json.loads text = Some v →
  get f now now' u s = (Some v, s).
Proof.
  intros Hf Hrow Hlive Hne Hv. unfold get. rewrite Hf.
  unfold InMemoryCache.get. rewrite Hrow.
  apply Z.ltb_lt in Hlive. rewrite Hlive.
  destruct text as [|c d]; [done|]. rewrite Hv. by destruct s.
Qed.

Lemma hot_hit_skips_durable_witness :
  get no_get_faults 10 10 (py "https://redd.it/abc")
    (save no_save_faults 5 (py "https://redd.it/abc") R_demo (init 86400))
  = (Some R_demo,
     save no_save_faults 5 (py "https://redd.it/abc") R_demo (init 86400)).
Proof.
  refine (hot_hit_skips_durable no_get_faults 10 10 (py "https://redd.it/abc")
            (save no_save_faults 5 (py "https://redd.it/abc") R_demo (init 86400))
            5 (JsonDumps.dumps false R_demo) R_demo _ _ _ _ _);
    try (vm_compute; reflexivity).
  vm_compute. discriminate.
Defined.

End CacheTiers.

Section AnalyzeFacts.
Import RateLimitManager AIOrchestrator Recovery.

Ltac analyze_runs self ctx ga ma :=
  unfold analyze, _invoke_groq, _invoke_gemini, call_remote,
    limiter_can_use, limiter_record_usage, lift;
  unfold mbind, M_bind, bind, mret, M_ret, ret, raise, modify, gets, time_time,
    try_except;
  destruct (get_default (tc_metadata ctx) (py "subreddit") (JStr [])) eqn:?;
  destruct (_groq_client self) eqn:?, (_gemini_configured self) eqn:?,
    (token_count_llama ctx <? groq_max_tokens self) eqn:?, ga, ma; simpl;
  repeat (match goal with
          | |- context [if ?b then _ else _] => destruct b eqn:?
          | |- context [_parse_json_response ?l ?r] =>
              destruct (_parse_json_response l r) eqn:?
          end; simpl).

(** X14: in any run of [analyze] each remote call comes directly after
    the record of its usage, no provider is called twice, and Gemini is
    called only after Groq or without it: the trace grows by nothing,
    by one record and call, or by Groq's record and call followed by
    Gemini's. *)
Theorem analyze_records_before_calls self ctx ga ma w :
  let out := analyze self ctx ga ma w in
  ∃ evs, log out.2 = log w ++ evs
    ∧ (evs = []
       ∨ evs = [EvRecord Groq; EvCall Groq]
       ∨ evs = [EvRecord Gemini; EvCall Gemini]
       ∨ evs = [EvRecord Groq; EvCall Groq; EvRecord Gemini; EvCall Gemini]).
Proof.
  analyze_runs self ctx ga ma; rewrite <- ?app_assoc; simpl;
    eexists; (split; [first [reflexivity|symmetry; apply app_nil_r]|]); eauto.
Qed.

(** X15: what [analyze] raises.  When the metadata of the context hold
    something else than a string under [subreddit], it is the
    [AttributeError] of [lower], raised before the limiter is asked and
    before any provider is tried.  Otherwise it is a [RuntimeError]:
    with the fixed message when no provider could be tried or the only
    one that was tried is Groq, and else with the message of what the
    invocation of Gemini raised, in the call or in the recovery of the
    text.  What the invocation of Groq raised is never passed on. *)
Theorem analyze_raises_runtime_error self ctx ga ma w e :
  (analyze self ctx ga ma w).1 = inl e →
  ((∀ name, subreddit_of ctx ≠ JStr name)
   ∧ e = attribute_error (subreddit_of ctx) (py "lower")
   ∧ (analyze self ctx ga ma w).2 = w)
  ∨ ((∃ name, subreddit_of ctx = JStr name)
     ∧ exn_cls e = RuntimeError
     ∧ (exn_msg e = no_llm_message
        ∨ ∃ last, invocation (interpreter self) ma = inl last
                  ∧ exn_msg e = all_failed_message last)).
Proof.
  unfold subreddit_of, invocation.
  analyze_runs self ctx ga ma; intros [= <-]; simpl;
    first [ left; by repeat split
          | right; split; [by eauto|]; split; [done|]; by eauto ].
Qed.

Lemma analyze_raises_runtime_error_witness :
  exn_cls (mkExn RuntimeError
             (all_failed_message (mkExn ValueError (py "quota")))) = RuntimeError.
Proof.
  destruct (analyze_raises_runtime_error (mk true true 120000 lim_demo) ctx_demo
              (inl (mkExn OtherException (py "timeout")))
              (inl (mkExn ValueError (py "quota"))) w_demo
              (mkExn RuntimeError (all_failed_message (mkExn ValueError (py "quota")))))
    as [(_ & H & _)|(_ & H & _)]; [vm_compute; reflexivity|discriminate H|exact H].
Defined.

(** X16: a context at or over the token ceiling of Groq, or a service
    without a Groq client, never reaches Groq: the limiter is not asked
    about Groq, no Groq usage is recorded, and the Groq call is not
    made. *)
Theorem over_ceiling_skips_groq self ctx ga ma w :
  _groq_client self = false ∨ groq_max_tokens self ≤ token_count_llama ctx →
  let out := analyze self ctx ga ma w in
  history Groq (rate_limiter out.2) = history Groq (rate_limiter w)
  ∧ ∃ evs, log out.2 = log w ++ evs
           ∧ (EvRecord Groq ∉ evs) ∧ (EvCall Groq ∉ evs).
Proof.
  intros H.
  assert (_groq_client self = false
          ∨ (token_count_llama ctx <? groq_max_tokens self) = false) as H'.
  { destruct H as [?|H]; [by left|right]. by apply Z.ltb_ge. }
  clear H. revert H'.
  analyze_runs self ctx ga ma; intros [?|?]; try done;
    (split; [done|]); rewrite <- ?app_assoc; simpl;
    eexists; (split; [first [reflexivity|symmetry; apply app_nil_r]|]);
    split; set_solver.
Qed.

Lemma over_ceiling_skips_groq_witness :
  history Groq (rate_limiter
    (analyze (mk true true 100 lim_demo) ctx_demo (inr (py "{}")) (inr (py "{}"))
       w_demo).2)
  = history Groq (rate_limiter w_demo).
Proof.
  refine (proj1 (over_ceiling_skips_groq (mk true true 100 lim_demo) ctx_demo
                   (inr (py "{}")) (inr (py "{}")) w_demo _)).
  right. vm_compute. discriminate.
Defined.

(** X17: for a context whose metadata hold a string under [subreddit],
    or nothing: when Groq is configured, the context is under its token
    ceiling, the limiter admits, the Groq call returns a text and the
    recovery cascade returns a value for it, [analyze] returns that
    value and Gemini is left alone: its window is not even cleaned, and
    the clock has been read twice, once by the check and once by the
    record. *)
Theorem groq_answer_is_final self ctx ga ma w name raw v :
  subreddit_of ctx = JStr name →
  _groq_client self = true →
  token_count_llama ctx < groq_max_tokens self →
  (can_use Groq (clock w (ticks w)) (rate_limiter w)).1 = true →
  ga = inr raw →
  _parse_json_response (interpreter self) raw = inr v →
  let out := analyze self ctx ga ma w in
  out.1 = inr v
  ∧ log out.2 = log w ++ [EvRecord Groq; EvCall Groq]
  ∧ history Gemini (rate_limiter out.2) = history Gemini (rate_limiter w)
  ∧ ticks out.2 = (2 + ticks w)%nat.
Proof.
  intros Hsub Hq Htok Hadm -> Hv. apply Z.ltb_lt in Htok. unfold subreddit_of in Hsub.
  unfold analyze, _invoke_groq, _invoke_gemini, call_remote,
    limiter_can_use, limiter_record_usage, lift.
  rewrite Hsub, Hq, Htok. simpl in Hadm.
  unfold mbind, M_bind, bind, mret, M_ret, ret, raise, modify, gets, time_time,
    try_except. simpl. rewrite Hadm. simpl. rewrite Hv. simpl.
  repeat split. by rewrite <- !app_assoc.
Qed.

Lemma groq_answer_is_final_witness :
  (analyze (mk true true 120000 lim_demo) ctx_demo (inr (py "{}"))
     (inl (mkExn OtherException [])) w_demo).1
  = inr (JDict []).
Proof.
  refine (proj1 (groq_answer_is_final (mk true true 120000 lim_demo) ctx_demo
                   (inr (py "{}")) (inl (mkExn OtherException [])) w_demo [] (py "{}")
                   (JDict []) _ _ _ _ _ _)); vm_compute; reflexivity.
Defined.

(** A text from Groq that is nested deeper than the interpreter allows
    makes the cascade raise; [analyze] takes that like any failure of
    Groq and turns to Gemini. *)
Lemma groq_deep_text_falls_back :
  let out := analyze (mk true true 120000 lim_demo) ctx_demo
               (inr (replicate 901 91%N)) (inr (py "{}")) w_demo in
  out.1 = inr (JDict [])
  ∧ log out.2 = [EvRecord Groq; EvCall Groq; EvRecord Gemini; EvCall Gemini].
Proof. vm_compute. by split. Qed.

End AnalyzeFacts.

Section SubredditFacts.

Lemma starts_with_refl a : starts_with a a = true.
Proof. induction a as [|x a IH]; [done|]. simpl. by rewrite N.eqb_refl. Qed.

Lemma occurs_in_refl a : occurs_in a a = true.
Proof. destruct a; simpl; [done|]. by rewrite N.eqb_refl, starts_with_refl. Qed.

Lemma first_category_none test cats :
  first_category test cats = None ↔ Forall (λ cs, test cs.2 = false) cats.
Proof.
  induction cats as [|[c names] cats IH]; simpl.
  - split; [constructor|done].
  - destruct (test names) eqn:E.
    + split; [done|]. intros H. apply Forall_cons in H as [H _]. simpl in H. congruence.
    + rewrite IH. split; [by constructor|]. by intros [_ ?]%Forall_cons.
Qed.

Lemma first_category_listed test cats c :
  first_category test cats = Some c → c ∈ cats.*1.
Proof.
  induction cats as [|[c' names] cats IH]; simpl; [done|].
  destruct (test names).
  - intros [= ->]. left.
  - intros H. right. by apply IH.
Qed.

(** X18: a name that one of the lists holds, whatever its case, gets
    the category of that list, also when a list written earlier holds a
    name in which it occurs: the pass that looks for the name itself
    runs over all the lists before the pass that looks for fragments. *)
Theorem exact_name_wins subreddit category subreddits :
  latin1 subreddit →
  (category, subreddits) ∈ SUBREDDIT_CATEGORIES →
  lower subreddit ∈ subreddits →
  detect_subreddit_type subreddit = category.
Proof.
  intros _ Hc Hn. unfold detect_subreddit_type.
  set (x := lower subreddit) in *. clearbody x.
  unfold SUBREDDIT_CATEGORIES in Hc.
  repeat (apply elem_of_cons in Hc as [Hc|Hc];
          [injection Hc as -> ->; vm_compute in Hn;
           repeat (apply elem_of_cons in Hn as [->|Hn]; [by vm_compute|]);
           by apply elem_of_nil in Hn|]).
  by apply elem_of_nil in Hc.
Qed.

Lemma exact_name_wins_witness :
  detect_subreddit_type (py "Science") = SCIENCE
  ∧ occurs_in (lower (py "Science")) (py "datascience") = true.
Proof.
  split; [|by vm_compute].
  refine (exact_name_wins (py "Science") SCIENCE
            [py "science"; py "askscience"; py "space"; py "physics"; py "biology";
             py "chemistry"; py "astronomy"; py "medicine"; py "neuroscience";
             py "environment"] _ _ _).
  - unfold latin1. vm_compute. repeat constructor.
  - unfold SUBREDDIT_CATEGORIES. do 3 right. left.
  - vm_compute. left.
Defined.

(** X19: the category is [GENERAL] exactly when the lower-cased name
    occurs in no listed name and no listed name occurs in it.  A name
    that is a fragment of a listed name is therefore never general: the
    empty name, which [analyze] passes when the metadata of the thread
    have no subreddit, occurs in every listed name and comes out as the
    first category, [TECH]. *)
Theorem general_iff_unrelated subreddit :
  latin1 subreddit →
  (detect_subreddit_type subreddit = GENERAL
   ↔ Forall (λ sub, occurs_in sub (lower subreddit) = false
                    ∧ occurs_in (lower subreddit) sub = false) listed_subreddits)
  ∧ detect_subreddit_type [] = TECH.
Proof.
  intros _. split; [|by vm_compute].
  unfold detect_subreddit_type. set (x := lower subreddit). clearbody x.
  set (exact := λ subreddits : list pystr, bool_decide (x ∈ subreddits)).
  set (related := existsb (λ sub, occurs_in sub x || occurs_in x sub)).
  assert (GENERAL ∉ SUBREDDIT_CATEGORIES.*1) as Hgen.
  { vm_compute. intros H. repeat (apply elem_of_cons in H as [H|H]; [done|]).
    by apply elem_of_nil in H. }
  assert (first_category related SUBREDDIT_CATEGORIES = None
          ↔ Forall (λ sub, occurs_in sub x = false ∧ occurs_in x sub = false)
              listed_subreddits) as Hrel.
  { rewrite first_category_none. unfold listed_subreddits.
    rewrite Forall_bind. apply Forall_iff. intros [c names]. simpl.
    unfold related. rewrite <- not_true_iff_false, existsb_exists.
    rewrite Forall_forall. split.
    - intros H sub Hsub.
      apply orb_false_iff. apply not_true_iff_false. intros Ht.
      apply H. exists sub. split; [by apply list_elem_of_In|done].
    - intros H (sub & Hsub & Ht). apply list_elem_of_In in Hsub.
      destruct (H sub Hsub) as [H1 H2]. by rewrite H1, H2 in Ht. }
  split.
  - destruct (first_category exact SUBREDDIT_CATEGORIES) as [c|] eqn:E1.
    { intros ->. by apply first_category_listed in E1. }
    destruct (first_category related SUBREDDIT_CATEGORIES) as [c|] eqn:E2.
    { intros ->. by apply first_category_listed in E2. }
    intros _. by apply Hrel.
  - intros H. pose proof H as H'. apply Hrel in H'. rewrite H'.
    assert (first_category exact SUBREDDIT_CATEGORIES = None) as ->; [|done].
    apply first_category_none. apply Forall_forall. intros [c names] Hin. simpl.
    unfold exact. apply bool_decide_eq_false_2. intros Hx.
    rewrite Forall_forall in H. destruct (H x) as [H1 _].
    + unfold listed_subreddits. apply list_elem_of_bind. by exists (c, names).
    + by rewrite occurs_in_refl in H1.
Qed.

Lemma general_iff_unrelated_witness :
  detect_subreddit_type (py "AskReddit") = GENERAL.
Proof.
  refine (proj2 (proj1 (general_iff_unrelated (py "AskReddit") _)) _).
  - unfold latin1. vm_compute. repeat constructor.
  - vm_compute. repeat constructor.
Defined.

End SubredditFacts.

Section RecoveryStrategies.
Import Re Recovery.

Lemma search_fails_everywhere r s :
  (∀ x y, s = x ++ y → match_here r y = None) → search r s = None.
Proof.
  induction s as [|c s IH]; intros H.
  - simpl. by rewrite (H [] []).
  - cbn [search]. rewrite (H [] (c :: s)) by done. apply IH.
    intros x y ->. by apply (H (c :: x) y).
Qed.

Lemma code_block_needs_ticks text :
  tick_free text → search code_block_re text = None.
Proof.
  intros Ht. apply search_fails_everywhere. intros x y ->.
  apply Forall_app in Ht as [_ Ht]. unfold match_here, code_block_re.
  rewrite m_seq. destruct y as [|d y]; [done|].
  apply ticks_miss. by inversion Ht.
Qed.

(** X20: a response that is one fenced block holding a valid JSON
    object, with or without the tag and with any whitespace around the
    object, comes back as that object, however deeply the object is
    nested, provided it holds no backtick: the second strategy takes
    the text from the first brace to the last one. *)
Theorem fenced_object_returned lim tag ws1 ws2 inner J :
  spaces ws1 → spaces ws2 → tick_free inner →
  Json.decode lim ([lbrace] ++ inner ++ [rbrace]) = Json.Value J →
  _parse_json_response lim (fenced tag ws1 ws2 ([lbrace] ++ inner ++ [rbrace]))
  = inr J.
Proof.
  intros H1 H2 Ht HJ. unfold _parse_json_response.
  rewrite direct_fenced, code_block_fenced; [|done..|].
  - unfold try_loads. by rewrite HJ.
  - apply tick_free_fence_free. unfold tick_free. cbn [app].
    constructor; [done|]. apply Forall_app. split; [done|]. by repeat constructor.
Qed.

Lemma fenced_object_returned_witness :
  _parse_json_response lim_demo (fenced false [] [10%N] (deep_text (py "}")))
  = inr deep_value.
Proof.
  refine (fenced_object_returned lim_demo false [] [10%N]
            (quoted "a" ++ py ": {" ++ quoted "b" ++ py ": {" ++ quoted "c"
               ++ py ": 1}}") deep_value _ _ _ _).
  - constructor.
  - by repeat constructor.
  - unfold tick_free. vm_compute. repeat (constructor; [discriminate|]). constructor.
  - vm_compute. reflexivity.
Defined.

(** X21: a valid JSON object nested at most one level deep that stands
    in running text is found by the third strategy: when the text as a
    whole is not JSON and holds no backtick, and no opening brace comes
    before the object, the response comes back as the object, whatever
    follows it. *)
Theorem object_in_prose lim pre c0 gs post J :
  Forall (λ c, c ≠ lbrace) pre →
  tick_free (pre ++ one_level c0 gs ++ post) →
  brace_free c0 → groups_ok gs →
  Json.decode lim (pre ++ one_level c0 gs ++ post) = Json.DecodeError →
  Json.decode lim (one_level c0 gs) = Json.Value J →
  _parse_json_response lim (pre ++ one_level c0 gs ++ post) = inr J.
Proof.
  intros Hpre Ht Hc Hgs Hbad HJ. unfold _parse_json_response, try_direct, try_loads.
  rewrite Hbad. unfold try_code_block. rewrite code_block_needs_ticks by done.
  unfold try_brace, try_loads.
  replace (pre ++ one_level c0 gs ++ post)
    with (pre ++ [lbrace] ++ c0 ++ groups_text gs ++ [rbrace] ++ post)
    by (unfold one_level; by rewrite <- !app_assoc).
  rewrite (search_brace pre c0 gs post) by done.
  fold (one_level c0 gs). by rewrite HJ.
Qed.

Lemma object_in_prose_witness :
  _parse_json_response lim_demo
    (py "Here it is: " ++ one_level shallow_c0 shallow_gs ++ py " Anything else?")
  = inr shallow_value.
Proof.
  refine (object_in_prose lim_demo (py "Here it is: ") shallow_c0 shallow_gs
            (py " Anything else?") shallow_value _ _ _ _ _ _);
    try (vm_compute; reflexivity).
  - vm_compute. repeat (constructor; [discriminate|]). constructor.
  - unfold tick_free. vm_compute. repeat (constructor; [discriminate|]). constructor.
  - unfold brace_free. vm_compute. repeat (constructor; [reflexivity|]). constructor.
  - unfold groups_ok, brace_free. vm_compute.
    repeat constructor.
Defined.

End RecoveryStrategies.

Section SubmissionFacts.
Import Re Main.

Lemma m_lit_suffix {A} l cap s (k : option pystr → pystr → option A) :
  m (lit l) cap s k = None ∨ ∃ s', s = l ++ s' ∧ m (lit l) cap s k = k cap s'.
Proof.
  revert s. induction l as [|c l IH]; intros s.
  - right. by exists s.
  - cbn [lit]. rewrite m_seq. destruct s as [|d s]; [by left|].
    destruct (decide (d = c)) as [->|Hne]; [|left; by apply m_chr_miss].
    rewrite m_chr_hit. destruct (IH s) as [->|(s' & -> & ->)]; [by left|].
    right. by exists s'.
Qed.

Lemma m_lit_absent {A} c l cap s (k : option pystr → pystr → option A) :
  c ∉ s → m (lit (c :: l)) cap s k = None.
Proof.
  intros H. destruct s as [|d s]; [done|]. apply m_lit_miss.
  intros ->. apply H. left.
Qed.

Lemma m_opt {A} r cap s (k : option pystr → pystr → option A) :
  m (opt r) cap s k = match m r cap s k with Some a => Some a | None => k cap s end.
Proof. done. Qed.

Lemma scheme_needs_colon {A} cap s (k : option pystr → pystr → option A) :
  colon ∉ s → m scheme cap s k = None.
Proof.
  intros H. unfold scheme. rewrite m_seq.
  destruct (m_lit_suffix (py "http") cap s
              (λ cap' s', m (opt (chr 115) ⋅ lit (py "://")) cap' s' k))
    as [->|(s' & -> & ->)]; [done|].
  assert (colon ∉ s') as H' by (intros ?; apply H, elem_of_app; by right).
  rewrite m_seq, m_opt.
  assert (∀ cap0 t, colon ∉ t → m (lit (py "://")) cap0 t k = None) as Hlit.
  { intros cap0 t Ht. by apply (m_lit_absent colon). }
  cbn beta. rewrite (Hlit cap s' H'). destruct s' as [|d s'']; [done|].
  unfold chr. rewrite m_class_cons.
  rewrite Hlit; [by destruct (115 =? d)%N|]. intros ?. apply H'. by right.
Qed.

Lemma no_colon_no_match u :
  colon ∉ u → validate_reddit_url u = false.
Proof.
  intros H. unfold validate_reddit_url, REDDIT_URL_PATTERNS.
  assert (∀ rest, search (scheme ⋅ rest) u = None) as Hs.
  { intros rest. apply search_fails_everywhere. intros x y ->.
    unfold match_here. rewrite m_seq. apply scheme_needs_colon.
    intros ?. apply H, elem_of_app. by right. }
  cbn [existsb]. by rewrite !Hs.
Qed.

(** X22: a URL in which no colon occurs is refused.  The answer is the
    error 400 and the service is left as it was: no job is created, the
    cache is not read and the clock is not read.  So is, for one, a
    thread URL written without its scheme. *)
Theorem url_without_scheme_refused f rnd request w :
  colon ∉ req_url request →
  submit_analysis f rnd request w
  = (inl (mkExn (HTTPException 400) invalid_url_detail), w).
Proof.
  intros H. unfold submit_analysis. by rewrite no_colon_no_match.
Qed.

Lemma url_without_scheme_refused_witness :
  submit_analysis DualCacheManager.no_get_faults 7
    (mkAnalyzeRequest (py "www.reddit.com/r/rust/comments/abc123") false false false)
    w_demo
  = (inl (mkExn (HTTPException 400) invalid_url_detail), w_demo).
Proof.
  refine (url_without_scheme_refused DualCacheManager.no_get_faults 7
            (mkAnalyzeRequest (py "www.reddit.com/r/rust/comments/abc123")
               false false false) w_demo _).
  vm_compute. intros H.
  repeat (apply elem_of_cons in H as [H|H]; [discriminate|]).
  by apply elem_of_nil in H.
Defined.

Lemma search_finds r pre s :
  is_Some (match_here r s) → is_Some (search r (pre ++ s)).
Proof.
  intros [[[whole cap] rest] H]. induction pre as [|c pre IH].
  - simpl. destruct s; simpl; rewrite H; eauto.
  - cbn [app search]. destruct (match_here r (c :: pre ++ s)) as [[[? ?] ?]|]; eauto.
Qed.

Lemma star_greedy_total {A} body (k : option pystr → pystr → option A) n cap s :
  (∀ cap' s', is_Some (k cap' s')) →
  is_Some (star_loop body true k n cap s).
Proof.
  intros Hk. destruct n as [|n]; [rewrite star_loop_0; apply Hk|].
  rewrite star_loop_S. cbn zeta. case_match; [eauto|apply Hk].
Qed.

Lemma short_link_matches (secure : bool) c id post :
  is_alnum c = true →
  is_Some (match_here (scheme ⋅ lit (py "redd.it/") ⋅ plus alnum)
             (py "http" ++ (if secure then py "s" else []) ++ py "://redd.it/"
                ++ (c :: id) ++ post)).
Proof.
  intros Hc. unfold match_here, scheme. rewrite !m_seq, m_lit, m_seq, m_opt.
  set (k := λ (cap : option pystr) (rest : pystr),
              Some (take (length (py "http" ++ (if secure then py "s" else [])
                                    ++ py "://redd.it/" ++ (c :: id) ++ post)
                          - length rest)
                      (py "http" ++ (if secure then py "s" else [])
                         ++ py "://redd.it/" ++ (c :: id) ++ post), cap, rest)).
  assert (∀ cap, is_Some (m (lit (py "://")) cap (py "://redd.it/" ++ (c :: id) ++ post)
                            (λ cap' s', m (lit (py "redd.it/") ⋅ plus alnum) cap' s' k)))
    as Htail.
  { intros cap.
    change (py "://redd.it/" ++ (c :: id) ++ post)
      with (py "://" ++ py "redd.it/" ++ (c :: id) ++ post).
    rewrite m_lit, m_seq, m_lit. unfold plus. rewrite m_seq.
    unfold alnum at 1. cbn [app]. rewrite m_class_cons. fold (is_alnum c). rewrite Hc.
    rewrite m_star. apply star_greedy_total. intros cap' s'. by eexists. }
  destruct secure.
  - change (py "s" ++ ?t) with (115%N :: t). rewrite m_chr_hit.
    destruct (Htail None) as [a Ha]. rewrite Ha. eauto.
  - cbn [app]. case_match; [eauto|apply Htail].
Qed.

(** X23: the validation searches, it does not anchor.  A text in which
    a short link occurs anywhere, with either scheme and an identifier
    that starts with a letter or a digit, passes, whatever stands
    before the link and after it. *)
Theorem link_accepted_anywhere pre (secure : bool) c id post :
  is_alnum c = true →
  validate_reddit_url
    (pre ++ py "http" ++ (if secure then py "s" else []) ++ py "://redd.it/"
       ++ (c :: id) ++ post) = true.
Proof.
  intros Hc. unfold validate_reddit_url, REDDIT_URL_PATTERNS. cbn [existsb].
  apply orb_true_iff. right. apply orb_true_iff. left.
  apply bool_decide_eq_true_2, search_finds. by apply short_link_matches.
Qed.

Lemma link_accepted_anywhere_witness :
  validate_reddit_url (py "not a url at all http://redd.it/x<script>") = true.
Proof.
  refine (link_accepted_anywhere (py "not a url at all ") false 120 [] (py "<script>") _).
  vm_compute. reflexivity.
Defined.

(** X24: with [force_refresh] the cache is bypassed.  A submission of
    an accepted URL creates a job whatever the cache holds: the answer
    is a descriptor with a new id, queued, at progress 0, with neither
    result nor error; the cache is as it was; the pipeline task is
    started for that id and URL; and a poll of that id right away is
    answered with the same descriptor. *)
Theorem forced_submission_tracked f rnd request w :
  validate_reddit_url (req_url request) = true →
  force_refresh request = true →
  let out := submit_analysis f rnd request w in
  let j := mkJobStatus (uuid4 rnd) queued 0 None None (clock w (ticks w)) in
  out.1 = inr j
  ∧ (get_job_status (uuid4 rnd) out.2).1 = inr j
  ∧ cache_manager out.2 = cache_manager w
  ∧ log out.2 = log w ++ [EvSpawn (uuid4 rnd) (req_url request)].
Proof.
  intros Hv Hf. unfold submit_analysis. rewrite Hv, Hf. simpl.
  unfold get_job_status, new_job, job_store_add, utcnow.
  unfold mbind, M_bind, bind, time_time, gets, modify, ret. simpl.
  split; [done|]. split; [|done].
  unfold JobStore.get, JobStore.add. simpl. rewrite lookup_insert_eq. simpl.
  by rewrite lookup_insert_eq.
Qed.

Lemma forced_submission_tracked_witness :
  (submit_analysis DualCacheManager.no_get_faults 78
     (mkAnalyzeRequest (py "https://redd.it/abc123") true false false)
     (run_actions demo_actions w_demo)).1
  = inr (mkJobStatus (uuid4 78) queued 0 None None 8).
Proof.
  refine (proj1 (forced_submission_tracked DualCacheManager.no_get_faults 78
                   (mkAnalyzeRequest (py "https://redd.it/abc123") true false false)
                   (run_actions demo_actions w_demo) _ _));
    vm_compute; reflexivity.
Defined.

End SubmissionFacts.

Section ThreadUrls.
Import Re Main.

Lemma opt_take {A} r cap s (k : option pystr → pystr → option A) :
  is_Some (m r cap s k) → is_Some (m (opt r) cap s k).
Proof. intros [a H]. rewrite m_opt, H. eauto. Qed.

Lemma opt_skip {A} r cap s (k : option pystr → pystr → option A) :
  is_Some (k cap s) → is_Some (m (opt r) cap s k).
Proof. intros H. rewrite m_opt. case_match; eauto. Qed.

Lemma scheme_matches {A} (secure : bool) cap t (k : option pystr → pystr → option A) :
  is_Some (k cap t) →
  is_Some (m scheme cap (py "http" ++ (if secure then py "s" else []) ++ py "://" ++ t) k).
Proof.
  intros Hk. unfold scheme. rewrite m_seq, m_lit, m_seq. destruct secure.
  - apply opt_take. change (py "s" ++ ?u) with (115%N :: u).
    by rewrite m_chr_hit, m_lit.
  - apply opt_skip. cbn [app]. by rewrite m_lit.
Qed.

Lemma thread_tail_matches {A} cap c sub d id post
    (k : option pystr → pystr → option A) :
  is_word c = true → Forall (λ x, is_word x = true) sub → is_alnum d = true →
  (∀ cap' s', is_Some (k cap' s')) →
  is_Some (m (plus word ⋅ lit (py "/comments/") ⋅ plus alnum) cap
             ((c :: sub) ++ py "/comments/" ++ (d :: id) ++ post) k).
Proof.
  intros Hc Hsub Hd Hk. unfold plus at 1.
  rewrite !m_seq. unfold word at 1. cbn [app]. rewrite m_class_cons.
  fold (is_word c). rewrite Hc, m_star.
  assert (is_Some (m (lit (py "/comments/") ⋅ plus alnum) cap
                     (py "/comments/" ++ (d :: id) ++ post) k)) as [a Ha].
  { rewrite m_seq, m_lit. unfold plus. rewrite m_seq. unfold alnum at 1.
    cbn [app]. rewrite m_class_cons. fold (is_alnum d). rewrite Hd, m_star.
    by apply star_greedy_total. }
  exists a. apply star_class_greedy; [exact Hsub|by vm_compute|done|exact Ha].
Qed.

(** X28: a thread URL as Reddit writes it passes the validation: with
    either scheme, with the host bare, under [www.] or under [old.], a
    subreddit name of letters, digits and underscores, and an id that
    starts with a letter or a digit; whatever text stands before it and
    after it. *)
Theorem thread_url_accepted pre (secure : bool) host c sub d id post :
  host ∈ [[]; py "www."; py "old."] →
  is_word c = true → Forall (λ x, is_word x = true) sub →
  is_alnum d = true →
  validate_reddit_url (pre ++ thread_url secure host (c :: sub) (d :: id) ++ post)
  = true.
Proof.
  intros Hhost Hc Hsub Hd. unfold validate_reddit_url, REDDIT_URL_PATTERNS, thread_url.
  cbn [existsb]. rewrite <- !app_assoc.
  assert (∀ cap' s', is_Some (Some (take
            (length (py "http" ++ (if secure then py "s" else []) ++ py "://" ++ host
                       ++ py "reddit.com/r/" ++ (c :: sub) ++ py "/comments/"
                       ++ (d :: id) ++ post) - length s')
            (py "http" ++ (if secure then py "s" else []) ++ py "://" ++ host
               ++ py "reddit.com/r/" ++ (c :: sub) ++ py "/comments/"
               ++ (d :: id) ++ post), cap' : option pystr, s' : pystr))) as Hk by eauto.
  apply elem_of_cons in Hhost as [->|Hhost];
    [|apply elem_of_cons in Hhost as [->|Hhost];
      [|apply elem_of_cons in Hhost as [->|Hhost]; [|by apply elem_of_nil in Hhost]]].
  - apply orb_true_iff. left. apply bool_decide_eq_true_2, search_finds.
    unfold match_here. rewrite m_seq. apply scheme_matches.
    rewrite m_seq. apply opt_skip. change ([] ++ ?t) with t. rewrite m_seq, m_lit.
    by apply thread_tail_matches.
  - apply orb_true_iff. left. apply bool_decide_eq_true_2, search_finds.
    unfold match_here. rewrite m_seq. apply scheme_matches.
    rewrite m_seq. apply opt_take. rewrite m_lit, m_seq, m_lit.
    by apply thread_tail_matches.
  - apply orb_true_iff. right. apply orb_true_iff. right.
    apply orb_true_iff. left. apply bool_decide_eq_true_2, search_finds.
    unfold match_here. rewrite m_seq. apply scheme_matches.
    change (py "old." ++ py "reddit.com/r/" ++ ?t) with (py "old.reddit.com/r/" ++ t).
    rewrite m_seq, m_lit. by apply thread_tail_matches.
Qed.

Lemma thread_url_accepted_witness :
  validate_reddit_url
    (py "see " ++ thread_url true (py "old.") (py "rust_lang") (py "1abc9z")
       ++ py "/some_title/?utm=1")
  = true.
Proof.
  refine (thread_url_accepted (py "see ") true (py "old.") 114 (py "ust_lang")
            49 (py "abc9z") (py "/some_title/?utm=1") _ _ _ _).
  - do 2 right. left.
  - vm_compute. reflexivity.
  - vm_compute. repeat constructor.
  - vm_compute. reflexivity.
Defined.

End ThreadUrls.

Section ExtractUrls.
Import Re.

Lemma star_class_shape {A} p (k : option pystr → pystr → option A) n cap s a :
  star_loop (m (Chr p)) true k n cap s = Some a →
  ∃ xs rest, s = xs ++ rest ∧ Forall (λ c, p c = true) xs ∧ k cap rest = Some a.
Proof.
  revert s. induction n as [|n IH]; intros s.
  - rewrite star_loop_0. intros H. by exists [], s.
  - rewrite star_loop_S. cbn zeta. destruct s as [|c s].
    { rewrite m_class_nil. intros H. by exists [], []. }
    rewrite m_class_cons. destruct (p c) eqn:Hc.
    + cbn [length]. rewrite ltb_succ.
      destruct (star_loop (m (Chr p)) true k n cap s) as [b|] eqn:E.
      * intros [= ->]. destruct (IH s E) as (xs & rest & -> & Hxs & Hk).
        exists (c :: xs), rest. split; [done|]. split; [by constructor|done].
      * intros H. by exists [], (c :: s).
    + intros H. by exists [], (c :: s).
Qed.

Lemma url_tail_shape {A} cap t (k : option pystr → pystr → option A) a :
  m (lit (py "://") ⋅ plus (Chr url_char)) cap t k = Some a →
  ∃ body rest, t = py "://" ++ body ++ rest ∧ body ≠ []
    ∧ Forall (λ c, url_char c = true) body ∧ k cap rest = Some a.
Proof.
  rewrite m_seq. intros H.
  destruct (m_lit_suffix (py "://") cap t (λ cap' s', m (plus (Chr url_char)) cap' s' k))
    as [E|(t' & -> & E)]; rewrite E in H; [done|].
  unfold plus in H. rewrite m_seq in H. destruct t' as [|c t']; [done|].
  rewrite m_class_cons in H. destruct (url_char c) eqn:Hc; [|done].
  rewrite m_star in H. apply star_class_shape in H as (xs & rest & -> & Hxs & Hk).
  exists (c :: xs), rest. split; [done|]. split; [done|]. split; [by constructor|done].
Qed.

Lemma url_m_shape (all s whole : pystr) cap rest :
  m url_pattern None s
    (λ cap' rest', Some (take (length all - length rest') all, cap', rest'))
  = Some (whole, cap, rest) →
  ∃ secure body, s = url_of secure body ++ rest ∧ body ≠ []
    ∧ Forall (λ c, url_char c = true) body
    ∧ whole = take (length all - length rest) all.
Proof.
  unfold url_pattern. rewrite m_seq. intros H.
  match type of H with
  | m (lit ?l) ?c ?s ?k = _ =>
      destruct (m_lit_suffix l c s k) as [E|(s1 & -> & E)]; rewrite E in H; [done|]
  end.
  rewrite m_seq, m_opt in H. clear E.
  match type of H with
  | match ?x with Some _ => _ | None => _ end = _ => destruct x as [b|] eqn:E
  end.
  - injection H as ->. destruct s1 as [|d s1]; [done|].
    destruct (decide (d = 115%N)) as [->|Hd]; [|by rewrite m_chr_miss in E].
    rewrite m_chr_hit in E.
    apply url_tail_shape in E as (body & rest' & -> & Hne & Hb & Hk).
    injection Hk as Hw Hc Hr. subst rest'. exists true, body.
    repeat split; try done; unfold url_of; cbn [app]; by rewrite <- !app_assoc.
  - apply url_tail_shape in H as (body & rest' & -> & Hne & Hb & Hk).
    injection Hk as Hw Hc Hr. subst rest'. exists false, body.
    repeat split; try done; unfold url_of; cbn [app]; by rewrite <- !app_assoc.
Qed.

Lemma url_match_shape s whole cap rest :
  match_here url_pattern s = Some (whole, cap, rest) →
  ∃ secure body, whole = url_of secure body ∧ body ≠ []
    ∧ Forall (λ c, url_char c = true) body ∧ s = whole ++ rest.
Proof.
  unfold match_here. intros H.
  apply url_m_shape in H as (secure & body & Hs & Hne & Hb & ->).
  exists secure, body. rewrite (take_matched (url_of secure body) rest s Hs).
  by repeat split.
Qed.

Lemma findall_urls n s u :
  u ∈ findall_from n url_pattern s →
  ∃ x y secure body, s = x ++ u ++ y ∧ u = url_of secure body ∧ body ≠ []
    ∧ Forall (λ c, url_char c = true) body.
Proof.
  revert s. induction n as [|n IH]; intros s; [by intros ?%elem_of_nil|].
  cbn [findall_from].
  destruct (match_here url_pattern s) as [[[[|c whole] cap] rest]|] eqn:E.
  - destruct s as [|d s]; [by intros ?%elem_of_nil|]. intros H.
    destruct (IH _ H) as (x & y & sec & body & -> & Hu). by exists (d :: x), y, sec, body.
  - apply url_match_shape in E as (sec & body & Hw & Hne & Hb & ->).
    intros [->|H]%elem_of_cons.
    + by exists [], rest, sec, body.
    + destruct (IH _ H) as (x & y & sec' & body' & -> & Hu).
      exists ((c :: whole) ++ x), y, sec', body'. split; [|done].
      by rewrite <- app_assoc.
  - destruct s as [|d s]; [by intros ?%elem_of_nil|]. intros H.
    destruct (IH _ H) as (x & y & sec & body & -> & Hu). by exists (d :: x), y, sec, body.
Qed.

Lemma rstrip_chars_prefix p s :
  ∃ tail, s = rstrip_chars p s ++ tail ∧ Forall (λ c, p c = true) tail.
Proof.
  induction s as [|c s (tail & IH & Ht)]; [by exists []|]. cbn [rstrip_chars].
  destruct (rstrip_chars p s) as [|d r] eqn:E.
  - cbn [app] in IH. subst tail. destruct (p c) eqn:Hc.
    + exists (c :: s). split; [done|]. by constructor.
    + by exists s.
  - exists tail. split; [|done]. cbn [app]. by rewrite IH at 1.
Qed.

Lemma rstrip_chars_last p s c :
  last (rstrip_chars p s) = Some c → p c = false.
Proof.
  induction s as [|d s IH]; [done|]. cbn [rstrip_chars].
  destruct (rstrip_chars p s) as [|e r] eqn:E.
  - destruct (p d) eqn:Hd; [done|]. by intros [= <-].
  - intros H. apply IH. by rewrite last_cons_cons in H.
Qed.

Lemma rstrip_chars_keep p a c b :
  p c = false → rstrip_chars p (a ++ c :: b) = a ++ c :: rstrip_chars p b.
Proof.
  intros Hc. induction a as [|x a IH].
  - cbn [app rstrip_chars]. destruct (rstrip_chars p b); [by rewrite Hc|done].
  - cbn [app rstrip_chars]. rewrite IH. by destruct a.
Qed.

Lemma rstrip_chars_id p s :
  (∀ c, last s = Some c → p c = false) → rstrip_chars p s = s.
Proof.
  destruct s as [|c s _] using rev_ind; [done|]. intros H.
  rewrite rstrip_chars_keep; [done|]. apply H. by rewrite last_snoc.
Qed.

Lemma scheme_url_chars secure : Forall (λ c, url_char c = true) (url_of secure []).
Proof. destruct secure; vm_compute; repeat constructor. Qed.

(** X27: every URL that [_extract_urls] returns is a piece of the
    text; it starts with [http://] or [https://]; it holds no
    whitespace, no angle bracket, no quote, no []] and no [)]; and it
    does not end with one of the punctuation marks that are stripped.
    So a URL with a closing parenthesis in it is never returned
    whole. *)
Theorem extracted_urls_shape text u :
  u ∈ _extract_urls text →
  (∃ x y, text = x ++ u ++ y)
  ∧ (∃ secure rest, u = url_of secure rest)
  ∧ Forall (λ c, url_char c = true) u
  ∧ (∀ c, last u = Some c → trailing_punctuation c = false).
Proof.
  unfold _extract_urls, findall. rewrite elem_of_list_to_set, list_elem_of_fmap.
  intros (w & -> & Hw).
  apply findall_urls in Hw as (x & y & secure & body & -> & -> & Hne & Hb).
  assert (rstrip_chars trailing_punctuation (url_of secure body)
          = url_of secure (rstrip_chars trailing_punctuation body)) as Hkeep.
  { unfold url_of. destruct secure.
    - change (py "http" ++ py "s" ++ py "://" ++ ?b) with (py "https:/" ++ 47%N :: b).
      by rewrite rstrip_chars_keep.
    - change (py "http" ++ [] ++ py "://" ++ ?b) with (py "http:/" ++ 47%N :: b).
      by rewrite rstrip_chars_keep. }
  destruct (rstrip_chars_prefix trailing_punctuation body) as (tail & Hb' & _).
  split; [|split; [|split]].
  - rewrite Hkeep. exists x, (tail ++ y). rewrite Hb' at 1.
    unfold url_of. by rewrite <- !app_assoc.
  - rewrite Hkeep. eauto.
  - rewrite Hkeep. rewrite Hb' in Hb. apply Forall_app in Hb as [Hb _].
    pose proof (scheme_url_chars secure) as Hs. unfold url_of in *.
    rewrite app_nil_r in Hs. rewrite !app_assoc. apply Forall_app. split; [|done].
    by rewrite <- !app_assoc.
  - intros c. apply rstrip_chars_last.
Qed.

Lemma extracted_urls_shape_witness :
  ∃ x y, py "see (https://a.io/x_(y)). Bye" = x ++ py "https://a.io/x_(y" ++ y.
Proof.
  refine (proj1 (extracted_urls_shape (py "see (https://a.io/x_(y)). Bye")
                   (py "https://a.io/x_(y") _)).
  apply elem_of_list_to_set. vm_compute. left.
Defined.

Lemma url_here secure body post :
  body ≠ [] → Forall (λ c, url_char c = true) body → stops url_char post →
  match_here url_pattern (url_of secure body ++ post)
  = Some (url_of secure body, None, post).
Proof.
  intros Hne Hb Hp. destruct body as [|c body]; [done|].
  apply Forall_cons in Hb as [Hc Hb].
  unfold match_here, url_pattern, url_of. rewrite <- !app_assoc.
  rewrite m_seq, m_lit, m_seq, m_opt.
  set (all := py "http" ++ (if secure then py "s" else []) ++ py "://" ++ (c :: body) ++ post).
  set (k := λ (cap : option pystr) (rest : pystr),
              Some (take (length all - length rest) all, cap, rest)).
  assert (m (lit (py "://") ⋅ plus (Chr url_char)) None
            (py "://" ++ (c :: body) ++ post) k
          = Some (py "http" ++ (if secure then py "s" else []) ++ py "://" ++ c :: body,
                  None, post)) as Htail.
  { rewrite m_seq, m_lit. unfold plus. rewrite m_seq. cbn [app].
    rewrite m_class_cons, Hc, m_star.
    apply star_class_greedy; [done|done|done|]. unfold k. do 2 f_equal.
    f_equal. apply take_matched. unfold all. by rewrite <- !app_assoc. }
  destruct secure.
  - change (py "s" ++ ?t) with (115%N :: t). by rewrite m_chr_hit, Htail.
  - cbn [app]. change (104%N :: 116%N :: 116%N :: 112%N :: ?t) with (py "http" ++ t) in Htail.
    cbn [app] in Htail. rewrite Htail. by case_match.
Qed.

Lemma breaks_cut pre s w rest :
  breaks pre → pre ≠ [] → Forall (λ c, url_char c = true) w →
  pre ++ s = w ++ rest →
  ∃ pre', rest = pre' ++ s ∧ breaks pre' ∧ pre' ≠ []
    ∧ length pre = (length w + length pre')%nat.
Proof.
  intros [->|(p & z & -> & Hz)] Hne Hw Heq; [done|].
  apply app_eq_inv in Heq as [(k & Hk & ->)|(k & -> & Hk)].
  - destruct k as [|y k _] using rev_ind.
    + rewrite app_nil_r in Hk. subst w. apply Forall_app in Hw as [_ Hw].
      apply Forall_cons in Hw as [Hw _]. congruence.
    + rewrite app_assoc in Hk. apply app_inj_tail in Hk as [-> ->].
      exists (k ++ [y]). split; [done|]. split; [right; eauto|].
      split; [by destruct k|]. rewrite !length_app. simpl. lia.
  - apply Forall_app in Hw as [Hw _]. apply Forall_app in Hw as [_ Hw].
    apply Forall_cons in Hw as [Hw _]. congruence.
Qed.

Lemma breaks_tail d pre : breaks (d :: pre) → breaks pre.
Proof.
  intros [?|(p & z & Hp & Hz)]; [done|]. destruct p as [|e p].
  - injection Hp as -> ->. by left.
  - injection Hp as -> ->. right. eauto.
Qed.

Lemma url_chars_of secure body :
  Forall (λ c, url_char c = true) body →
  Forall (λ c, url_char c = true) (url_of secure body).
Proof.
  intros Hb. pose proof (scheme_url_chars secure) as Hs. unfold url_of in *.
  rewrite app_nil_r in Hs. rewrite !app_assoc. apply Forall_app. split; [|done].
  by rewrite <- !app_assoc.
Qed.

Lemma findall_after n pre secure body post :
  breaks pre → body ≠ [] → Forall (λ c, url_char c = true) body →
  stops url_char post →
  (length (pre ++ url_of secure body ++ post) ≤ n)%nat →
  url_of secure body ∈ findall_from n url_pattern (pre ++ url_of secure body ++ post).
Proof.
  intros Hpre Hne Hb Hp. revert pre Hpre.
  induction n as [|n IH]; intros pre Hpre Hn.
  { rewrite !length_app in Hn. destruct secure; simpl in Hn; lia. }
  destruct pre as [|d pre].
  - cbn [app findall_from]. rewrite url_here by done.
    destruct secure; cbn [url_of app]; left.
  - cbn [findall_from].
    destruct (match_here url_pattern ((d :: pre) ++ url_of secure body ++ post))
      as [[[[|c whole] cap] rest]|] eqn:E.
    + cbn [app]. apply IH; [by eapply breaks_tail|]. cbn [app length] in Hn. lia.
    + apply url_match_shape in E as (sec' & body' & Hw & Hne' & Hb' & Heq).
      destruct (breaks_cut (d :: pre) (url_of secure body ++ post) (c :: whole) rest)
        as (pre' & -> & Hbr & _ & Hlen); [done|done| |done|].
      { rewrite Hw. by apply url_chars_of. }
      right. apply IH; [done|]. rewrite length_app in Hn |- *.
      rewrite Hlen in Hn. cbn [length] in Hn. lia.
    + cbn [app]. apply IH; [by eapply breaks_tail|]. cbn [app length] in Hn. lia.
Qed.

(** X29: a URL that stands out in the text is returned as it is.  When
    the text before it is empty or ends outside the class of the
    pattern, what follows it is nothing or starts outside the class,
    and it does not end with a punctuation mark that is stripped, the
    URL is among the extracted ones, whatever else the text holds. *)
Theorem delimited_url_extracted pre secure body post :
  breaks pre → body ≠ [] → Forall (λ c, url_char c = true) body →
  (∀ c, last body = Some c → trailing_punctuation c = false) →
  stops url_char post →
  url_of secure body ∈ _extract_urls (pre ++ url_of secure body ++ post).
Proof.
  intros Hpre Hne Hb Hlast Hp. unfold _extract_urls, findall.
  rewrite elem_of_list_to_set, list_elem_of_fmap. exists (url_of secure body).
  split; [|by apply findall_after].
  symmetry. apply rstrip_chars_id. intros c Hc. apply Hlast.
  unfold url_of in Hc. rewrite !last_app in Hc.
  destruct (last body) eqn:E; [exact Hc|]. by apply last_None in E.
Qed.

Lemma delimited_url_extracted_witness :
  py "https://redd.it/abc" ∈ _extract_urls (py "x http://a.io, then <https://redd.it/abc>").
Proof.
  refine (delimited_url_extracted (py "x http://a.io, then <") true (py "redd.it/abc")
            (py ">") _ _ _ _ _).
  - right. exists (py "x http://a.io, then "), 60%N. split; reflexivity.
  - discriminate.
  - vm_compute. repeat constructor.
  - intros c Hc. vm_compute in Hc. injection Hc as <-. reflexivity.
  - reflexivity.
Defined.

End ExtractUrls.

Section PipelineOutcome.
Import Main.

Section PipelineSteps.

Lemma analyze_keeps_cache orch ctx ga ma w :
  cache_manager (AIOrchestrator.analyze orch ctx ga ma w).2 = cache_manager w
  ∧ clock (AIOrchestrator.analyze orch ctx ga ma w).2 = clock w.
Proof. analyze_cases orch ctx ga ma; done. Qed.

Lemma analyze_error_class orch ctx ga ma w e :
  (AIOrchestrator.analyze orch ctx ga ma w).1 = inl e →
  exn_cls e = RuntimeError
  ∨ ((∀ name, subreddit_of ctx ≠ JStr name)
     ∧ e = attribute_error (subreddit_of ctx) (py "lower")).
Proof.
  unfold subreddit_of.
  analyze_cases orch ctx ga ma; intros [= <-]; first [by left|by right].
Qed.

Lemma dict_get_error v key d e :
  dict_get v key d = inl e → (∀ d', v ≠ JDict d') ∧ e = attribute_error v (py "get").
Proof. destruct v; simpl; by intros [= <-]. Qed.

Lemma links_step raw_links o (Q : exn + json → World → Prop) w :
  Q (inr (links_for raw_links (enrichment o))) w →
  wp (if truthy raw_links
      then try_except (lift (enrichment o)) (λ _, ret raw_links)
      else ret (JList [])) Q w.
Proof.
  unfold links_for, wp, try_except, lift, ret, raise.
  destruct (truthy raw_links); [|done]. by destruct (enrichment o).
Qed.

Context (clk : nat → Z) (job_id : pystr) (l : loc).

Lemma on_set_job f c j Q w :
  on_job clk job_id l c j w →
  (∀ w', on_job clk job_id l c (f j) w' → Q (inr tt) w') →
  wp (set_job l f) Q w.
Proof.
  intros (Hh & Hs & Hc) HQ. apply HQ. split; [|done].
  simpl. by rewrite lookup_alter_eq, Hh.
Qed.

Lemma on_update c j Q w :
  on_job clk job_id l c j w →
  (∀ ok w', on_job clk job_id l c j w' → Q (inr ok) w') →
  wp (job_store_update job_id l) Q w.
Proof.
  intros (Hh & Hs & Hc) HQ. unfold wp, job_store_update.
  unfold mbind, M_bind, bind, gets, modify, ret. simpl.
  unfold JobStore.update. unfold JobStore.get in Hs. rewrite Hs. simpl.
  rewrite Hh. simpl. apply HQ. split; [done|]. split; [|done].
  unfold JobStore.get. simpl. by rewrite lookup_insert_eq.
Qed.

Lemma on_analyze orch ctx ga ma c j Q w :
  on_job clk job_id l c j w →
  (∀ r w', on_job clk job_id l c j w' →
           (∃ w1, (AIOrchestrator.analyze orch ctx ga ma w1).1 = r) →
           (∀ e, r = inl e →
                 exn_cls e = RuntimeError
                 ∨ ((∀ name, subreddit_of ctx ≠ JStr name)
                    ∧ e = attribute_error (subreddit_of ctx) (py "lower"))) →
           Q r w') →
  wp (AIOrchestrator.analyze orch ctx ga ma) Q w.
Proof.
  intros (Hh & Hs & Hc & Hk) HQ. unfold wp. apply HQ.
  - destruct (analyze_frame orch ctx ga ma w) as (H1 & H2 & _).
    destruct (analyze_keeps_cache orch ctx ga ma w) as [H3 H4].
    split; [by rewrite H1|]. split; [by rewrite H2|].
    split; [by rewrite H3|by rewrite H4].
  - by exists w.
  - intros e He. by eapply analyze_error_class.
Qed.

Lemma on_cache_save f url v c j Q w :
  on_job clk job_id l c j w →
  (∀ e w', on_job clk job_id l c j w' →
           DualCacheManager.save_raises f url = Some e → Q (inl e) w') →
  (∀ n w', on_job clk job_id l (DualCacheManager.save f (clk n) url v c) j w' →
           Q (inr tt) w') →
  wp (cache_save f url v) Q w.
Proof.
  intros (Hh & Hs & Hc & Hk) HE HQ. unfold wp, cache_save.
  destruct (DualCacheManager.save_raises f url) as [e|] eqn:E; [by apply HE|].
  unfold mbind, M_bind, bind, time_time, modify. simpl.
  apply (HQ (ticks w)). split; [done|]. split; [done|].
  simpl. by rewrite Hc, Hk.
Qed.

End PipelineSteps.

Ltac set_job_step H :=
  apply wp_bind; eapply on_set_job; [exact H|]; clear H; intros ? H; simpl in H.
Ltac update_job_step H :=
  apply wp_bind; eapply on_update; [exact H|]; clear H; intros ? ? H; simpl in H.
Ltac failed_leaf H stage e :=
  unfold pipeline_failed;
  set_job_step H; set_job_step H; update_job_step H;
  apply wp_ret; split; [done|]; left; exists stage, e;
  destruct H as (H & _ & Hc & _); (split; [exact H|]); split; [|exact Hc].

Lemma pipeline_outcome orch job_id l url o w j0 :
  JobStore.get job_id (job_store w) = Some l →
  heap w !! l = Some j0 →
  wp (process_analysis_pipeline orch job_id url o)
     (λ r w', r = inr tt ∧ run_ended orch w l j0 url o w') w.
Proof.
  intros Hget Hheap.
  assert (on_job (clock w) job_id l (cache_manager w) j0 w) as H by done.
  unfold process_analysis_pipeline. apply wp_bind. unfold wp at 1, gets. simpl.
  rewrite Hget. apply wp_try. unfold pipeline_body.
  set_job_step H. set_job_step H. update_job_step H.
  apply wp_bind, wp_lift; [intros ctx Hx|intros e Hx].
  2:{ failed_leaf H 10 e. left. by split. }
  set_job_step H. update_job_step H.
  apply wp_bind. eapply on_analyze; [exact H|]. clear H.
  intros [e|llm_raw] ? H [w1 Hw1] He.
  { failed_leaf H 35 e. right. left. split; [done|]. split; [by exists ctx, w1|].
    destruct (He e eq_refl) as [?|[? ?]]; [by left|right; by exists ctx]. }
  set_job_step H. update_job_step H.
  apply wp_bind, wp_lift; [intros raw_links Hl|intros e Hl].
  2:{ failed_leaf H 70 e. right. right. left. split; [done|].
      exists llm_raw. split; [by exists ctx, w1|]. by eapply dict_get_error. }
  apply wp_bind, links_step.
  set_job_step H. update_job_step H.
  apply wp_bind, wp_lift; [intros res Hb|intros e Hb].
  2:{ failed_leaf H 85 e. do 3 right. left. split; [done|]. eauto. }
  set_job_step H. update_job_step H.
  apply wp_bind. eapply on_cache_save; [exact H| |]; clear H.
  { intros e ? H Hraise. failed_leaf H 95 e. do 4 right. by split. }
  intros n ? H.
  set_job_step H. set_job_step H. set_job_step H. update_job_step H.
  apply wp_ret. split; [done|]. right.
  exists ctx, llm_raw, raw_links, res, n.
  destruct H as (H & _ & Hc & _). repeat split; try done. by exists ctx, w1.
Qed.

Lemma error_text_short e : (length (error_text e) ≤ 200)%nat.
Proof.
  unfold error_text.
  destruct (exn_cls e); rewrite ?length_app, length_take;
    try change (length (py "Unexpected error: ")) with 18%nat; lia.
Qed.

(** X25: a run that leaves the job failed has not touched the cache nor
    the result of the job; the error of the job is the text of the
    exception, at most 200 characters long, and the progress tells the
    stage that raised: 10 the extraction; 35 the analysis, with a
    [RuntimeError] or, for a context whose subreddit is no string, the
    [AttributeError] of [lower]; 70 an analysis that is no dict, with
    the [AttributeError] of [get]; 85 the construction of the result;
    95 the first statements of [save], the encoding of the URL or the
    serialization of the result. *)
Theorem failed_run_outcome orch job_id l url o w j0 j :
  JobStore.get job_id (job_store w) = Some l →
  heap w !! l = Some j0 →
  let out := process_analysis_pipeline orch job_id url o w in
  heap out.2 !! l = Some j →
  status j = failed →
  cache_manager out.2 = cache_manager w
  ∧ result j = result j0
  ∧ ∃ e, error j = Some (error_text e)
         ∧ (length (error_text e) ≤ 200)%nat
         ∧ failure_at orch url o (progress j) e.
Proof.
  intros Hget Hheap out Hj Hs.
  destruct (pipeline_outcome orch job_id l url o w j0 Hget Hheap) as [_ Hend].
  fold out in Hend.
  destruct Hend as [(stage & e & Hh & Hf & Hc)|(? & ? & ? & ? & ? & Hh & _)];
    rewrite Hh in Hj; injection Hj as <-; [|done].
  split; [done|]. split; [done|]. exists e. split; [done|].
  split; [apply error_text_short|done].
Qed.

Lemma failed_run_outcome_witness :
  let o := mkOutcomes (inr ctx_demo) (inl (mkExn OtherException (py "timeout")))
             (inl (mkExn ValueError (py "quota"))) (inr (JList []))
             (λ _ _ _, inr R_demo) DualCacheManager.no_save_faults in
  let w := (submit_analysis DualCacheManager.no_get_faults 77 demo_request w_demo).2 in
  let out := process_analysis_pipeline (AIOrchestrator.mk true true 120000 lim_demo)
               (uuid4 77) (py "https://redd.it/abc123") o w in
  cache_manager out.2 = cache_manager w.
Proof.
  intros o w out.
  refine (proj1 (failed_run_outcome (AIOrchestrator.mk true true 120000 lim_demo)
                   (uuid4 77) 0%nat (py "https://redd.it/abc123") o w
                   (mkJobStatus (uuid4 77) queued 0 None None 2)
                   (mkJobStatus (uuid4 77) failed 35 None
                      (Some (py "All LLMs failed. Last error: quota")) 2)
                   _ _ _ _)); vm_compute; reflexivity.
Defined.



End PipelineOutcome.
